(** * UV-map synthesis of the render workbench ([Render/renderingmesh.py])

    A shallow embedding of the [RenderingMesh] class and of its geometry
    helpers, followed by the properties of the three projection strategies
    (cubic, spherical, cylindric).

    Conventions of the embedding:
    - Python floats are read as real numbers ([R]); rounding, signed zeros,
      infinities and NaN are outside the model.  An operation that raises in
      Python (division by zero, [math.asin] out of its domain, an attribute
      never assigned, a failed [assert]) returns [Raise e].
    - A method of [RenderingMesh] is a computation of the monad [M]: it takes
      the object and gives back an outcome together with the object as the
      call leaves it, also when the outcome is an exception.
    - The host application's geometry types ([App.Base.Vector], [Vector2d],
      [Matrix], [Placement], [Mesh.Mesh]) are not part of the repository;
      they are modelled in the modules [Base] and [Mesh] below. *)

From Stdlib Require Import String Reals Lra Lia List Bool Permutation.
Import ListNotations.
Open Scope R_scope.

(** ** Python runtime: exceptions and fallible results *)

Inductive exn : Set :=
| ValueError
| ZeroDivisionError
| AttributeError
| AssertionError
| FreeCADError.

Inductive result (A : Type) : Type :=
| OK (a : A)
| Raise (e : exn).
Arguments OK {A} a.
Arguments Raise {A} e.

Definition rbind {A B : Type} (c : result A) (k : A -> result B) : result B :=
  match c with
  | OK a => k a
  | Raise e => Raise e
  end.

Notation "'let*' x ':=' c 'in' k" := (rbind c (fun x => k))
  (at level 10, x pattern, c at level 200, k at level 200).

(** A comprehension [[f p for p in xs]] whose body may raise: elements are
    evaluated from left to right and the first exception aborts the whole. *)
Fixpoint mapM {A B : Type} (f : A -> result B) (xs : list A) : result (list B) :=
  match xs with
  | [] => OK []
  | a :: xs' =>
      let* b := f a in
      let* bs := mapM f xs' in
      OK (b :: bs)
  end.

(** A [for] loop whose body may raise, with the loop variables as accumulator. *)
Fixpoint foldM {A S : Type} (body : S -> A -> result S) (xs : list A) (s : S)
  : result S :=
  match xs with
  | [] => OK s
  | a :: xs' => let* s' := body s a in foldM body xs' s'
  end.

(** Comparisons of floats, as booleans. *)
Definition Rgeb (a b : R) : bool := if Rge_dec a b then true else false.
Definition Rleb (a b : R) : bool := if Rle_dec a b then true else false.
Definition Reqb (a b : R) : bool := if Req_dec_T a b then true else false.

(** Python's [a / b] on numbers. *)
Definition truediv (a b : R) : result R :=
  if Reqb b 0 then Raise ZeroDivisionError else OK (a / b).

(** ** The [math] module *)

Module math.

Definition pi : R := PI.

Definition hypot (a b : R) : R := sqrt (a * a + b * b).

(** [math.atan2 (y, x)]: the angle of the point [(x, y)], in (-pi, pi]. *)
Definition atan2 (y x : R) : R :=
  if Rlt_dec 0 x then atan (y / x)
  else if Rlt_dec x 0 then
         (if Rge_dec y 0 then atan (y / x) + PI else atan (y / x) - PI)
  else if Rlt_dec 0 y then PI / 2
  else if Rlt_dec y 0 then - (PI / 2)
  else 0.

(** [math.asin] raises [ValueError] outside [-1, 1]. *)
Definition asin (a : R) : result R :=
  if Rleb (Rabs a) 1 then OK (Ratan.asin a) else Raise ValueError.

(** [math.isclose (a, b, rel_tol, abs_tol)]; [rel_tol] defaults to 1e-09. *)
Definition rel_tol_default : R := 1e-9.

Definition isclose (a b rel_tol abs_tol : R) : bool :=
  Rleb (Rabs (a - b))
       (Rmax (rel_tol * Rmax (Rabs a) (Rabs b)) abs_tol).

End math.

(** ** Host geometry primitives ([App.Base]) *)

Module Base.

(** Modelled from the spec: the host's [Vector] type (section 6, a 3-D
    coordinate triple with the usual vector operations). *)
Record Vector : Set := mkVector { x : R; y : R; z : R }.

(** Modelled from the spec: the host's [Vector2d] type, a 2-D coordinate. *)
Record Vector2d : Set := mkVector2d { x2d : R; y2d : R }.

(** Modelled from the spec: the operations of [Vector] that the module uses:
    [a + b], [a - b], [a / k], [a.dot (b)], the cross product (behind
    [facet.Normal]) and [a.Length]. *)
Definition add (a b : Vector) : Vector :=
  mkVector (x a + x b) (y a + y b) (z a + z b).

Definition sub (a b : Vector) : Vector :=
  mkVector (x a - x b) (y a - y b) (z a - z b).

(** [v / k] for a scalar [k] that cannot be zero where the source divides (a
    literal, or a value tested before). *)
Definition div (a : Vector) (k : R) : Vector :=
  mkVector (x a / k) (y a / k) (z a / k).

Definition dot (a b : Vector) : R := x a * x b + y a * y b + z a * z b.

Definition cross (a b : Vector) : Vector :=
  mkVector (y a * z b - z a * y b) (z a * x b - x a * z b)
           (x a * y b - y a * x b).

Definition Length (a : Vector) : R := sqrt (dot a a).

(** Modelled from the spec: [Vector.normalize ()] (section 7: a zero-length
    vector where a direction normalization is required is an error). *)
Definition normalize (a : Vector) : result Vector :=
  if Reqb (Length a) 0 then Raise FreeCADError else OK (div a (Length a)).

(** Modelled from the spec: [Vector2d * k]. *)
Definition scale2d (a : Vector2d) (k : R) : Vector2d :=
  mkVector2d (x2d a * k) (y2d a * k).

(** Modelled from the spec: the host's [Matrix] type, "matrix form" of an
    affine transform (section 6).  The fourth row is not used on points. *)
Record Matrix : Set := mkMatrix {
  A11 : R; A12 : R; A13 : R; A14 : R;
  A21 : R; A22 : R; A23 : R; A24 : R;
  A31 : R; A32 : R; A33 : R; A34 : R
}.

(** Modelled from the spec: a matrix applied to a point. *)
Definition multVec (m : Matrix) (p : Vector) : Vector :=
  mkVector (A11 m * x p + A12 m * y p + A13 m * z p + A14 m)
           (A21 m * x p + A22 m * y p + A23 m * z p + A24 m)
           (A31 m * x p + A32 m * y p + A33 m * z p + A34 m).

(** Modelled from the spec: the host's [Placement] type, "an affine
    transform (rotation + translation)" exposing inverse and matrix form
    (sections 3 and 6).  The rotation is kept as the three rows of its
    matrix; the inverse of a rotation is its transpose. *)
Record Placement : Set := mkPlacement {
  Position : Vector;
  Row1 : Vector; Row2 : Vector; Row3 : Vector
}.

(** Modelled from the spec: [App.Base.Placement ()], the identity. *)
Definition Placement0 : Placement :=
  mkPlacement (mkVector 0 0 0)
              (mkVector 1 0 0) (mkVector 0 1 0) (mkVector 0 0 1).

(** Modelled from the spec: [placement.Matrix]. *)
Definition Matrix_of (pl : Placement) : Matrix :=
  mkMatrix (x (Row1 pl)) (y (Row1 pl)) (z (Row1 pl)) (x (Position pl))
           (x (Row2 pl)) (y (Row2 pl)) (z (Row2 pl)) (y (Position pl))
           (x (Row3 pl)) (y (Row3 pl)) (z (Row3 pl)) (z (Position pl)).

(** Modelled from the spec: [placement.inverse ()]. *)
Definition inverse (pl : Placement) : Placement :=
  let c1 := mkVector (x (Row1 pl)) (x (Row2 pl)) (x (Row3 pl)) in
  let c2 := mkVector (y (Row1 pl)) (y (Row2 pl)) (y (Row3 pl)) in
  let c3 := mkVector (z (Row1 pl)) (z (Row2 pl)) (z (Row3 pl)) in
  let t := Position pl in
  mkPlacement (mkVector (- dot c1 t) (- dot c2 t) (- dot c3 t)) c1 c2 c3.

(** Equality of vectors and of placements ([==]). *)
Definition Vector_eq_dec (a b : Vector) : {a = b} + {a <> b}.
Proof. decide equality; apply Req_dec_T. Defined.

Definition Placement_eq_dec (a b : Placement) : {a = b} + {a <> b}.
Proof. decide equality; apply Vector_eq_dec. Defined.

Definition Placement_eqb (a b : Placement) : bool :=
  if Placement_eq_dec a b then true else false.

End Base.

(** ** Host mesh type ([Mesh.Mesh]) *)

Module Mesh.
Import Base.

(** Modelled from the spec: a facet object of the host mesh (section 3: "each
    facet referencing three points and exposing a derived outward normal"). *)
Record Facet : Set := mkFacet { Facet_Points : Vector * Vector * Vector }.

(** Modelled from the spec: [facet.Normal], the unit normal derived from the
    three points; a degenerate facet keeps the null cross product. *)
Definition Facet_Normal (f : Facet) : Vector :=
  let '(p1, p2, p3) := Facet_Points f in
  let n := cross (sub p2 p1) (sub p3 p1) in
  if Reqb (Length n) 0 then n else div n (Length n).

(** Modelled from the spec: the host's mesh (sections 3 and 6), "an ordered
    sequence of 3-D points plus a set of triangular facets", each facet three
    indices into the point sequence, and the mesh's own placement. *)
Record Mesh : Set := mkMesh {
  Points : list Vector;
  Faces : list (nat * nat * nat);
  Placement : Base.Placement
}.

(** Modelled from the spec: [Mesh.Mesh ()], the empty mesh. *)
Definition Mesh0 : Mesh := mkMesh [] [] Placement0.

Definition origin : Vector := mkVector 0 0 0.

(** Modelled from the spec: [mesh.Facets], the facet objects of a mesh, each
    with the coordinates of its three points. *)
Definition Facets (m : Mesh) : list Facet :=
  map (fun '(i, j, k) =>
         mkFacet (nth i (Points m) origin, nth j (Points m) origin,
                  nth k (Points m) origin))
      (Faces m).

(** Modelled from the spec: [mesh.Topology], the points and the faces'
    indices. *)
Definition Topology (m : Mesh) : list Vector * list (nat * nat * nat) :=
  (Points m, Faces m).

(** Modelled from the spec: [mesh.copy ()] (section 6, "mesh copy"). *)
Definition copy (m : Mesh) : Mesh := m.

(** Modelled from the spec: [mesh.transform (matrix)] (section 6, "mesh
    transform-by-matrix"): every point is moved, order and faces are kept. *)
Definition transform (mat : Matrix) (m : Mesh) : Mesh :=
  mkMesh (map (multVec mat) (Points m)) (Faces m) (Placement m).

(** Modelled from the spec: [mesh.addMesh (other)] (section 6, "mesh
    merge/append (union of two meshes' points+facets with no
    deduplication)"). *)
Definition addMesh (m other : Mesh) : Mesh :=
  let n := length (Points m) in
  mkMesh (Points m ++ Points other)
         (Faces m ++ map (fun '(i, j, k) => (n + i, n + j, n + k))%nat
                         (Faces other))
         (Placement m).

(** Position of a point among the points of a mesh, if it is there. *)
Fixpoint index_of (p : Vector) (pts : list Vector) : option nat :=
  match pts with
  | [] => None
  | q :: pts' =>
      if Vector_eq_dec p q then Some O
      else match index_of p pts' with
           | Some i => Some (S i)
           | None => None
           end
  end.

Definition add_point (pts : list Vector) (p : Vector) : list Vector * nat :=
  match index_of p pts with
  | Some i => (pts, i)
  | None => (pts ++ [p], length pts)
  end.

(** Modelled from the spec: [mesh.addFacet (facet)]; the facet's points are
    looked up among the points of the mesh and appended when new. *)
Definition addFacet (m : Mesh) (f : Facet) : Mesh :=
  let '(p1, p2, p3) := Facet_Points f in
  let '(pts1, i) := add_point (Points m) p1 in
  let '(pts2, j) := add_point pts1 p2 in
  let '(pts3, k) := add_point pts2 p3 in
  mkMesh pts3 (Faces m ++ [(i, j, k)]) (Placement m).

(** Modelled from the spec: [Mesh.Mesh (facets)], the sub-mesh built "from
    only those facets" (section 4.1); points shared by facets of the same
    sub-mesh are stored once, in order of first use. *)
Definition Mesh_of (facets : list Facet) : Mesh :=
  fold_left addFacet facets Mesh0.

End Mesh.

(** ** Cube uvmap helpers *)

Inductive _UnitCubeFaceEnum : Set :=
| XPLUS
| XMINUS
| YPLUS
| YMINUS
| ZPLUS
| ZMINUS.

(** Iteration order of the enumeration, which is the insertion order of the
    dictionary [face_facets]. *)
Definition _UnitCubeFaceEnum_members : list _UnitCubeFaceEnum :=
  [XPLUS; XMINUS; YPLUS; YMINUS; ZPLUS; ZMINUS].

Definition face_eqb (a b : _UnitCubeFaceEnum) : bool :=
  match a, b with
  | XPLUS, XPLUS | XMINUS, XMINUS | YPLUS, YPLUS
  | YMINUS, YMINUS | ZPLUS, ZPLUS | ZMINUS, ZMINUS => true
  | _, _ => false
  end.

Definition _UNIT_CUBE_FACES_NORMALS (f : _UnitCubeFaceEnum) : Base.Vector :=
  match f with
  | XPLUS => Base.mkVector 1 0 0
  | XMINUS => Base.mkVector (-1) 0 0
  | YPLUS => Base.mkVector 0 1 0
  | YMINUS => Base.mkVector 0 (-1) 0
  | ZPLUS => Base.mkVector 0 0 1
  | ZMINUS => Base.mkVector 0 0 (-1)
  end.

(** [_intersect_unitcube_face]; [direction[0]], [direction[1]] and
    [direction[2]] are the fields [x], [y] and [z]. *)
Definition _intersect_unitcube_face (direction : Base.Vector)
  : _UnitCubeFaceEnum :=
  let dabs := (Rabs (Base.x direction), Rabs (Base.y direction),
               Rabs (Base.z direction)) in
  let '(dabs0, dabs1, dabs2) := dabs in
  if Rgeb dabs0 dabs1 && Rgeb dabs0 dabs2 then
    (if Rgeb (Base.x direction) 0 then XPLUS else XMINUS)
  else if Rgeb dabs1 dabs0 && Rgeb dabs1 dabs2 then
    (if Rgeb (Base.y direction) 0 then YPLUS else YMINUS)
  else
    (if Rgeb (Base.z direction) 0 then ZPLUS else ZMINUS).

(** [_compute_uv_from_unitcube], the branches in the order of the source. *)
Definition _compute_uv_from_unitcube (point : Base.Vector)
  (face : _UnitCubeFaceEnum) : Base.Vector2d :=
  if face_eqb face XPLUS then Base.mkVector2d (Base.y point) (Base.z point)
  else if face_eqb face YPLUS then
    Base.mkVector2d (- Base.x point) (Base.z point)
  else if face_eqb face XMINUS then
    Base.mkVector2d (- Base.y point) (Base.z point)
  else if face_eqb face YMINUS then
    Base.mkVector2d (Base.x point) (Base.z point)
  else if face_eqb face ZPLUS then
    Base.mkVector2d (Base.x point) (Base.y point)
  else (* ZMINUS, the last member of the enumeration *)
    Base.mkVector2d (Base.x point) (- Base.y point).

(** ** Other uvmap helpers *)

(** [_compute_barycenter] *)
Definition _compute_barycenter (points : list Base.Vector) : Base.Vector :=
  let length := List.length points in
  let origin := Base.mkVector 0 0 0 in
  if Nat.eqb length 0 then origin
  else Base.div (fold_left Base.add points origin) (INR length).

(** [_is_facet_normal_to_vector].  [vector.normalize ()] works in place, so
    the caller's vector is returned next to the answer. *)
Definition _is_facet_normal_to_vector (facet : Mesh.Facet)
  (vector : Base.Vector) : result (bool * Base.Vector) :=
  let '(pt1, pt2, pt3) := Mesh.Facet_Points facet in
  let* vec1 := Base.normalize (Base.sub pt2 pt1) in
  let* vec2 := Base.normalize (Base.sub pt3 pt1) in
  let* vector := Base.normalize vector in
  let tolerance := 1e-5 in
  let res :=
    math.isclose (Base.dot vec1 vector) 0 math.rel_tol_default tolerance
    && math.isclose (Base.dot vec2 vector) 0 math.rel_tol_default tolerance in
  OK (res, vector).

(** ** The class [RenderingMesh] *)

(** The attributes of an object.  [__originalmesh] and [__originalplacement]
    are [None] when the constructor never assigned them (reading them then
    raises [AttributeError]); [__uvmap] is [None] for Python's [None]. *)
Record RenderingMesh : Set := mkRenderingMesh {
  __mesh : Mesh.Mesh;
  __originalmesh : option Mesh.Mesh;
  __originalplacement : option Base.Placement;
  __uvmap : option (list Base.Vector2d)
}.

(** [RenderingMesh (mesh, uvmap, placement)]; [placement] defaults to
    [App.Base.Placement ()].  A mesh object of the host is always true, so
    [if mesh:] tests whether a mesh was given. *)
Definition __init__ (mesh : option Mesh.Mesh)
  (uvmap : option (list Base.Vector2d)) (placement : Base.Placement)
  : result RenderingMesh :=
  match mesh with
  | Some mesh =>
      if Base.Placement_eqb (Mesh.Placement mesh) Base.Placement0 then
        let originalmesh :=
          Mesh.transform (Base.Matrix_of (Base.inverse placement))
                         (Mesh.copy mesh) in
        OK (mkRenderingMesh mesh (Some originalmesh) (Some placement) uvmap)
      else Raise AssertionError
  | None => OK (mkRenderingMesh Mesh.Mesh0 None None uvmap)
  end.

(** Methods: state passing over the object, with exceptions. *)
Definition M (A : Type) : Type := RenderingMesh -> result A * RenderingMesh.

Definition ret {A : Type} (a : A) : M A := fun self => (OK a, self).

Definition bind {A B : Type} (c : M A) (k : A -> M B) : M B :=
  fun self =>
    match c self with
    | (OK a, self') => k a self'
    | (Raise e, self') => (Raise e, self')
    end.

Definition lift {A : Type} (r : result A) : M A := fun self => (r, self).

Notation "'do' x <- c ;; k" := (bind c (fun x => k))
  (at level 10, x pattern, c at level 200, k at level 200).
Notation "c ;;; k" := (bind c (fun _ => k))
  (at level 61, right associativity).

Definition get_originalmesh : M Mesh.Mesh :=
  fun self =>
    match __originalmesh self with
    | Some m => (OK m, self)
    | None => (Raise AttributeError, self)
    end.

Definition get_originalplacement : M Base.Placement :=
  fun self =>
    match __originalplacement self with
    | Some pl => (OK pl, self)
    | None => (Raise AttributeError, self)
    end.

Definition set_mesh (m : Mesh.Mesh) : M unit :=
  fun self =>
    (OK tt, mkRenderingMesh m (__originalmesh self)
                            (__originalplacement self) (__uvmap self)).

Definition set_uvmap (uv : option (list Base.Vector2d)) : M unit :=
  fun self =>
    (OK tt, mkRenderingMesh (__mesh self) (__originalmesh self)
                            (__originalplacement self) uv).

(** A [for] loop over a list whose body is a method-level computation. *)
Fixpoint for_ {A S : Type} (xs : list A) (body : S -> A -> M S) (s : S)
  : M S :=
  match xs with
  | [] => ret s
  | a :: xs' => do s' <- body s a ;; for_ xs' body s'
  end.

(** [copy]: the placement is not passed on to the constructor. *)
Definition copy (self : RenderingMesh) : result RenderingMesh :=
  __init__ (Some (Mesh.copy (__mesh self))) (__uvmap self) Base.Placement0.

(** Properties [Points], [Topology], [uvmap] and the method [has_uvmap]. *)
Definition Points (self : RenderingMesh) : list Base.Vector :=
  Mesh.Points (__mesh self).

Definition Topology (self : RenderingMesh)
  : list Base.Vector * list (nat * nat * nat) :=
  Mesh.Topology (__mesh self).

Definition uvmap (self : RenderingMesh) : option (list Base.Vector2d) :=
  __uvmap self.

Definition has_uvmap (self : RenderingMesh) : bool :=
  match __uvmap self with Some _ => true | None => false end.

(** The dictionary [face_facets], keys in insertion order. *)
Definition face_dict : Set := list (_UnitCubeFaceEnum * list Mesh.Facet).

(** [{f: [] for f in _UnitCubeFaceEnum}] *)
Definition face_dict_init : face_dict :=
  map (fun f => (f, [])) _UnitCubeFaceEnum_members.

(** [face_facets[cubeface].append (facet)] *)
Definition face_dict_append (d : face_dict) (cubeface : _UnitCubeFaceEnum)
  (facet : Mesh.Facet) : face_dict :=
  map (fun '(f, facets) =>
         if face_eqb f cubeface then (f, facets ++ [facet]) else (f, facets))
      d.

(** [_compute_uvmap_cube]; the local [origin] of the source is never used
    and is left out. *)
Definition _compute_uvmap_cube : M unit :=
  do originalmesh <- get_originalmesh ;;
  let face_facets :=
    fold_left (fun face_facets facet =>
                 let cubeface :=
                   _intersect_unitcube_face (Mesh.Facet_Normal facet) in
                 face_dict_append face_facets cubeface facet)
              (Mesh.Facets originalmesh) face_dict_init in
  do (mesh, uvmap) <-
    for_ face_facets
      (fun '(mesh, uvmap) '(cubeface, facets) =>
         let facemesh := Mesh.Mesh_of facets in
         let facemesh_uvmap :=
           map (fun p => _compute_uv_from_unitcube (Base.div p 1000) cubeface)
               (Mesh.Points facemesh) in
         do originalplacement <- get_originalplacement ;;
         let facemesh :=
           Mesh.transform (Base.Matrix_of originalplacement) facemesh in
         ret (Mesh.addMesh mesh facemesh, uvmap ++ facemesh_uvmap))
      (Mesh.Mesh0, []) ;;
  set_mesh mesh ;;;
  set_uvmap (Some uvmap).

(** [_compute_uvmap_sphere] *)
Definition _compute_uvmap_sphere : M unit :=
  do originalmesh <- get_originalmesh ;;
  let origin := _compute_barycenter (Mesh.Points originalmesh) in
  do originalmesh <- get_originalmesh ;;
  let vectors := map (fun p => Base.sub p origin) (Mesh.Points originalmesh) in
  do uvmap <- lift (mapM (fun v =>
      let* q := truediv (Base.z v) (Base.Length v) in
      let* a := math.asin q in
      OK (Base.scale2d
            (Base.mkVector2d
               (0.5 + math.atan2 (Base.x v) (Base.y v) / (2 * math.pi))
               (0.5 + a / math.pi))
            (Base.Length v / 1000 * math.pi)))
    vectors) ;;
  set_uvmap (Some uvmap).

(** The loop of [_compute_uvmap_cylinder] that splits the facets;
    [faces0] and [faces1] are [faces[0]] and [faces[1]]. *)
Definition split_z_normal (facets : list Mesh.Facet) (z_vector : Base.Vector)
  : result (list Mesh.Facet * list Mesh.Facet * Base.Vector) :=
  foldM (fun '(faces0, faces1, z_vector) facet =>
           let* (res, z_vector) :=
             _is_facet_normal_to_vector facet z_vector in
           if res then OK (faces0, faces1 ++ [facet], z_vector)
           else OK (faces0 ++ [facet], faces1, z_vector))
        facets ([], [], z_vector).

(** [_compute_uvmap_cylinder] *)
Definition _compute_uvmap_cylinder : M unit :=
  let z_vector := Base.mkVector 0 0 1 in
  do originalmesh <- get_originalmesh ;;
  do (faces0, faces1, z_vector) <-
    lift (split_z_normal (Mesh.Facets originalmesh) z_vector) ;;
  let mesh := Mesh.Mesh0 in
  let uvmap := [] in
  let regular_mesh := Mesh.Mesh_of faces0 in
  let points := Mesh.Points regular_mesh in
  do avg_radius <-
    lift (truediv
            (fold_left Rplus
               (map (fun p => math.hypot (Base.x p) (Base.y p)) points) 0)
            (INR (length points))) ;;
  let uvmap :=
    uvmap ++
    map (fun p =>
           Base.scale2d
             (Base.mkVector2d
                (math.atan2 (Base.x p) (Base.y p) * avg_radius) (Base.z p))
             0.001)
        points in
  do originalplacement <- get_originalplacement ;;
  let regular_mesh :=
    Mesh.transform (Base.Matrix_of originalplacement) regular_mesh in
  let mesh := Mesh.addMesh mesh regular_mesh in
  let z_mesh := Mesh.Mesh_of faces1 in
  let uvmap :=
    uvmap ++
    map (fun p => Base.mkVector2d (Base.x p / 1000) (Base.y p / 1000))
        (Mesh.Points z_mesh) in
  do originalplacement <- get_originalplacement ;;
  let z_mesh := Mesh.transform (Base.Matrix_of originalplacement) z_mesh in
  let mesh := Mesh.addMesh mesh z_mesh in
  set_mesh mesh ;;;
  set_uvmap (Some uvmap).

(** [compute_uvmap] *)
Definition compute_uvmap (projection : option string) : M unit :=
  let projection :=
    match projection with None => "Cubic"%string | Some p => p end in
  if String.eqb projection "Cubic" then _compute_uvmap_cube
  else if String.eqb projection "Spherical" then _compute_uvmap_sphere
  else if String.eqb projection "Cylindric" then _compute_uvmap_cylinder
  else lift (Raise ValueError).

(** ** Vocabulary of the properties *)

(** The axis and the sign of a face of the unit cube. *)
Inductive axis : Set := AxisX | AxisY | AxisZ.

Definition face_axis (f : _UnitCubeFaceEnum) : axis :=
  match f with
  | XPLUS | XMINUS => AxisX
  | YPLUS | YMINUS => AxisY
  | ZPLUS | ZMINUS => AxisZ
  end.

Definition face_positive (f : _UnitCubeFaceEnum) : bool :=
  match f with
  | XPLUS | YPLUS | ZPLUS => true
  | XMINUS | YMINUS | ZMINUS => false
  end.

Definition component (a : axis) (d : Base.Vector) : R :=
  match a with
  | AxisX => Base.x d
  | AxisY => Base.y d
  | AxisZ => Base.z d
  end.

(** A computation that never modifies the object. *)
Definition readonly {A : Type} (c : M A) : Prop :=
  forall self, snd (c self) = self.

(** A computation that leaves the object as it found it when it raises. *)
Definition atomic {A : Type} (c : M A) : Prop :=
  forall self e self', c self = (Raise e, self') -> self' = self.

(** The projection kinds that [compute_uvmap] accepts. *)
Definition supported (projection : string) : Prop :=
  projection = "Cubic"%string \/ projection = "Spherical"%string
  \/ projection = "Cylindric"%string.

(** *** Cubic strategy: what the spec describes *)

(** The facets of a mesh that the classifier sends to a face, in the order
    of the mesh. *)
Definition cube_facets (om : Mesh.Mesh) (face : _UnitCubeFaceEnum)
  : list Mesh.Facet :=
  filter (fun facet =>
            face_eqb (_intersect_unitcube_face (Mesh.Facet_Normal facet)) face)
         (Mesh.Facets om).

Definition cube_submesh (om : Mesh.Mesh) (face : _UnitCubeFaceEnum)
  : Mesh.Mesh :=
  Mesh.Mesh_of (cube_facets om face).

(** The unfolding table of the spec (section 4.1):
    +X -> (y, z), -X -> (-y, z), +Y -> (-x, z), -Y -> (x, z),
    +Z -> (x, y), -Z -> (x, -y). *)
Definition cube_unfolding (face : _UnitCubeFaceEnum) (p : Base.Vector)
  : Base.Vector2d :=
  match face with
  | XPLUS => Base.mkVector2d (Base.y p) (Base.z p)
  | XMINUS => Base.mkVector2d (- Base.y p) (Base.z p)
  | YPLUS => Base.mkVector2d (- Base.x p) (Base.z p)
  | YMINUS => Base.mkVector2d (Base.x p) (Base.z p)
  | ZPLUS => Base.mkVector2d (Base.x p) (Base.y p)
  | ZMINUS => Base.mkVector2d (Base.x p) (- Base.y p)
  end.

(** The merged mesh: the six sub-meshes, each moved by the placement, added
    one after the other to an empty mesh. *)
Definition cube_mesh (om : Mesh.Mesh) (pl : Base.Placement) : Mesh.Mesh :=
  fold_left (fun mesh face =>
               Mesh.addMesh mesh
                 (Mesh.transform (Base.Matrix_of pl) (cube_submesh om face)))
            _UnitCubeFaceEnum_members Mesh.Mesh0.

Definition cube_uvmap (om : Mesh.Mesh) : list Base.Vector2d :=
  concat (map (fun face =>
                 map (fun p => cube_unfolding face (Base.div p 1000))
                     (Mesh.Points (cube_submesh om face)))
              _UnitCubeFaceEnum_members).


(** *** Spherical strategy: what the spec describes *)

(** UV of a point [p] for the centre [origin] (section 4.1): with
    [v = p - origin], [(0.5 + atan2 (v.x, v.y) / (2 pi),
    0.5 + asin (v.z / |v|) / pi)], both scaled by [(|v| / 1000) * pi]. *)
Definition sphere_uv (origin p : Base.Vector) : Base.Vector2d :=
  let v := Base.sub p origin in
  Base.scale2d
    (Base.mkVector2d (0.5 + math.atan2 (Base.x v) (Base.y v) / (2 * PI))
                     (0.5 + Ratan.asin (Base.z v / Base.Length v) / PI))
    (Base.Length v / 1000 * PI).

(** Sum of a list of numbers, and the arithmetic mean of position vectors. *)
Definition Rsum (l : list R) : R := fold_right Rplus 0 l.

Definition mean_position (points : list Base.Vector) : Base.Vector :=
  let n := INR (length points) in
  Base.mkVector (Rsum (map Base.x points) / n) (Rsum (map Base.y points) / n)
                (Rsum (map Base.z points) / n).

(** *** Cylindric strategy: what the spec describes *)

(** A facet is normal to an axis when the two normalized edge vectors
    [p2 - p1] and [p3 - p1] both have a dot product with the normalized axis
    within 1e-5 of zero (section 4.2). *)
Definition axis_normal (facet : Mesh.Facet) (axis : Base.Vector) : Prop :=
  let '(p1, p2, p3) := Mesh.Facet_Points facet in
  exists e1 e2 a,
    Base.normalize (Base.sub p2 p1) = OK e1
    /\ Base.normalize (Base.sub p3 p1) = OK e2
    /\ Base.normalize axis = OK a
    /\ Rabs (Base.dot e1 a) <= 1e-5
    /\ Rabs (Base.dot e2 a) <= 1e-5.

Definition z_axis : Base.Vector := Base.mkVector 0 0 1.

(** Average radial distance of a list of points. *)
Definition avg_radius (points : list Base.Vector) : R :=
  Rsum (map (fun p => math.hypot (Base.x p) (Base.y p)) points)
  / INR (length points).

Definition cyl_regular_uv (radius : R) (p : Base.Vector) : Base.Vector2d :=
  Base.scale2d
    (Base.mkVector2d (math.atan2 (Base.x p) (Base.y p) * radius) (Base.z p))
    0.001.

Definition cyl_cap_uv (p : Base.Vector) : Base.Vector2d :=
  Base.mkVector2d (Base.x p / 1000) (Base.y p / 1000).

(** The merged mesh and UV map of the cylindric strategy for the regular
    facets [faces0] and the axis-normal facets [faces1]. *)
Definition cyl_mesh (pl : Base.Placement) (faces0 faces1 : list Mesh.Facet)
  : Mesh.Mesh :=
  Mesh.addMesh
    (Mesh.addMesh Mesh.Mesh0
       (Mesh.transform (Base.Matrix_of pl) (Mesh.Mesh_of faces0)))
    (Mesh.transform (Base.Matrix_of pl) (Mesh.Mesh_of faces1)).

Definition cyl_uvmap (faces0 faces1 : list Mesh.Facet) : list Base.Vector2d :=
  let points := Mesh.Points (Mesh.Mesh_of faces0) in
  map (cyl_regular_uv (avg_radius points)) points
  ++ map cyl_cap_uv (Mesh.Points (Mesh.Mesh_of faces1)).

(** *** Meshes used in the examples *)

(** Two triangles that share the edge from (0,0,0) to (1,0,0): one in the
    plane z = 0 (a cap, facing +Z) and one in the plane y = 0 (a wall,
    facing -Y). *)
Definition corner_mesh : Mesh.Mesh :=
  Mesh.mkMesh
    [Base.mkVector 0 0 0; Base.mkVector 1 0 0; Base.mkVector 0 1 0;
     Base.mkVector 0 0 1]
    [(0, 1, 2); (0, 1, 3)]%nat Base.Placement0.

(** The cube of edge 1000 (one metre, in millimetres) centred at the origin:
    8 vertices and 12 triangles, two per side, facing outwards. *)
Definition unit_cube : Mesh.Mesh :=
  Mesh.mkMesh
    [Base.mkVector (-500) (-500) (-500); Base.mkVector (-500) (-500) 500;
     Base.mkVector (-500) 500 (-500); Base.mkVector (-500) 500 500;
     Base.mkVector 500 (-500) (-500); Base.mkVector 500 (-500) 500;
     Base.mkVector 500 500 (-500); Base.mkVector 500 500 500]
    [(4, 6, 7); (4, 7, 5); (0, 1, 3); (0, 3, 2); (2, 3, 7); (2, 7, 6);
     (0, 4, 5); (0, 5, 1); (1, 5, 7); (1, 7, 3); (0, 2, 6); (0, 6, 4)]%nat
    Base.Placement0.

(** *** Index alignment: what "corresponds" means *)

Definition facet_has_point (facet : Mesh.Facet) (p : Base.Vector) : Prop :=
  let '(p1, p2, p3) := Mesh.Facet_Points facet in p = p1 \/ p = p2 \/ p = p3.

(** [uv] is the cubic projection of the mesh point [P]: [P] is the placed
    form of a point [p] of a facet of the unplaced mesh, and [uv] is [p]
    divided by 1000 and unfolded for the face of that facet. *)
Definition cubic_uv_of (om : Mesh.Mesh) (pl : Base.Placement)
  (P : Base.Vector) (uv : Base.Vector2d) : Prop :=
  exists facet p,
    In facet (Mesh.Facets om) /\ facet_has_point facet p
    /\ P = Base.multVec (Base.Matrix_of pl) p
    /\ uv = cube_unfolding
              (_intersect_unitcube_face (Mesh.Facet_Normal facet))
              (Base.div p 1000).

(** [uv] is the cylindric projection of the mesh point [P], for the average
    radius [radius] of the regular points. *)
Definition cylindric_uv_of (om : Mesh.Mesh) (pl : Base.Placement) (radius : R)
  (P : Base.Vector) (uv : Base.Vector2d) : Prop :=
  exists facet p,
    In facet (Mesh.Facets om) /\ facet_has_point facet p
    /\ P = Base.multVec (Base.Matrix_of pl) p
    /\ ((~ axis_normal facet z_axis /\ uv = cyl_regular_uv radius p)
        \/ (axis_normal facet z_axis /\ uv = cyl_cap_uv p)).

(** [uv] is the spherical projection of the mesh point [P]: the projection
    of its unplaced form, about the barycenter of the unplaced mesh. *)
Definition spherical_uv_of (om : Mesh.Mesh) (pl : Base.Placement)
  (P : Base.Vector) (uv : Base.Vector2d) : Prop :=
  uv = sphere_uv (_compute_barycenter (Mesh.Points om))
                 (Base.multVec (Base.Matrix_of (Base.inverse pl)) P).

Inductive projection_kind : Set := Cubic | Spherical | Cylindric.

Definition kind_of (projection : option string) : option projection_kind :=
  match projection with
  | None => Some Cubic
  | Some p =>
      if String.eqb p "Cubic" then Some Cubic
      else if String.eqb p "Spherical" then Some Spherical
      else if String.eqb p "Cylindric" then Some Cylindric
      else None
  end.

(** The UV map [uv] is aligned, index by index, with the points [points]. *)
Definition aligned (projection : option string) (om : Mesh.Mesh)
  (pl : Base.Placement) (points : list Base.Vector)
  (uv : list Base.Vector2d) : Prop :=
  match kind_of projection with
  | Some Cubic => Forall2 (cubic_uv_of om pl) points uv
  | Some Spherical => Forall2 (spherical_uv_of om pl) points uv
  | Some Cylindric =>
      exists radius, Forall2 (cylindric_uv_of om pl radius) points uv
  | None => False
  end.

(** A lone cap: one triangle in the plane z = 0. *)
Definition cap_mesh : Mesh.Mesh :=
  Mesh.mkMesh
    [Base.mkVector 0 0 0; Base.mkVector 1 0 0; Base.mkVector 0 1 0]
    [(0, 1, 2)%nat] Base.Placement0.

(** A mesh whose only facet is collapsed onto one point. *)
Definition collapsed_mesh : Mesh.Mesh :=
  Mesh.mkMesh [Base.mkVector 1 2 3] [(0, 0, 0)%nat] Base.Placement0.

(** A facet whose two edges from its first point have a direction. *)
Definition proper_facet (facet : Mesh.Facet) : Prop :=
  let '(p1, p2, p3) := Mesh.Facet_Points facet in p2 <> p1 /\ p3 <> p1.

(** A translation by 5 along Z, and the cap after this translation. *)
Definition lift_z : Base.Placement :=
  Base.mkPlacement (Base.mkVector 0 0 5)
    (Base.mkVector 1 0 0) (Base.mkVector 0 1 0) (Base.mkVector 0 0 1).

Definition raised_cap : Mesh.Mesh :=
  Mesh.mkMesh
    [Base.mkVector 0 0 5; Base.mkVector 1 0 5; Base.mkVector 0 1 5]
    [(0, 1, 2)%nat] Base.Placement0.

(** A quarter turn about X, (x, y, z) -> (x, -z, y), followed by a
    translation by 1000 along X; and [corner_mesh] after this placement. *)
Definition turn_x : Base.Placement :=
  Base.mkPlacement (Base.mkVector 1000 0 0)
    (Base.mkVector 1 0 0) (Base.mkVector 0 0 (-1)) (Base.mkVector 0 1 0).

Definition turned_corner : Mesh.Mesh :=
  Mesh.mkMesh
    [Base.mkVector 1000 0 0; Base.mkVector 1001 0 0; Base.mkVector 1000 0 1;
     Base.mkVector 1000 (-1) 0]
    [(0, 1, 2); (0, 1, 3)]%nat Base.Placement0.

(** ** Other methods of [RenderingMesh] *)

(** [transform]: [self.__mesh.transform (matrix)].  The mesh of the object
    and its original mesh are distinct host objects (the constructor copies
    the mesh it is given into [__originalmesh], the strategies assign a new
    mesh to [__mesh]), so only [__mesh] changes. *)
Definition transform (matrix : Base.Matrix) : M unit :=
  fun self => set_mesh (Mesh.transform matrix (__mesh self)) self.

(** [addFacet], for a facet given as a facet object. *)
Definition addFacet (facet : Mesh.Facet) : M unit :=
  fun self => set_mesh (Mesh.addFacet (__mesh self) facet) self.

(** Property [Placement]. *)
Definition Placement (self : RenderingMesh) : Base.Placement :=
  Mesh.Placement (__mesh self).

(** *** Vocabulary of the further properties *)

(** A computation that leaves [__originalmesh] and [__originalplacement] as
    they are. *)
Definition keeps_original {A : Type} (c : M A) : Prop :=
  forall self,
    __originalmesh (snd (c self)) = __originalmesh self
    /\ __originalplacement (snd (c self)) = __originalplacement self.

(** A computation after which, when it returns, the object has a UV map. *)
Definition leaves_uvmap {A : Type} (c : M A) : Prop :=
  forall self a self', c self = (OK a, self') -> has_uvmap self' = true.

(** An object as the constructor and the methods leave it: its mesh has the
    identity placement, and the original mesh and the original placement are
    either both there or both missing. *)
Definition built (self : RenderingMesh) : Prop :=
  Placement self = Base.Placement0
  /\ ((__originalmesh self = None /\ __originalplacement self = None)
      \/ (exists om pl,
             __originalmesh self = Some om
             /\ __originalplacement self = Some pl)).

(** One point that no facet uses. *)
Definition stray_point_mesh : Mesh.Mesh :=
  Mesh.mkMesh [Base.mkVector 1 2 3] [] Base.Placement0.

(** *** Vocabulary of the properties of the helpers *)

(** The face across the cube. *)
Definition opposite (f : _UnitCubeFaceEnum) : _UnitCubeFaceEnum :=
  match f with
  | XPLUS => XMINUS
  | XMINUS => XPLUS
  | YPLUS => YMINUS
  | YMINUS => YPLUS
  | ZPLUS => ZMINUS
  | ZMINUS => ZPLUS
  end.

(** The cross product of the two edges of a facet from its first point, of
    which [facet.Normal] is the unit form. *)
Definition facet_cross (facet : Mesh.Facet) : Base.Vector :=
  let '(p1, p2, p3) := Mesh.Facet_Points facet in
  Base.cross (Base.sub p2 p1) (Base.sub p3 p1).

(** A facet moved by a vector, and a facet with the reverse winding. *)
Definition shifted (t : Base.Vector) (facet : Mesh.Facet) : Mesh.Facet :=
  let '(p1, p2, p3) := Mesh.Facet_Points facet in
  Mesh.mkFacet (Base.add p1 t, Base.add p2 t, Base.add p3 t).

Definition reversed (facet : Mesh.Facet) : Mesh.Facet :=
  let '(p1, p2, p3) := Mesh.Facet_Points facet in Mesh.mkFacet (p1, p3, p2).

(** Square of the distance between two UV coordinates. *)
Definition dist2d_sqr (u v : Base.Vector2d) : R :=
  (Base.x2d u - Base.x2d v) * (Base.x2d u - Base.x2d v)
  + (Base.y2d u - Base.y2d v) * (Base.y2d u - Base.y2d v).

(** A vector multiplied by a number. *)
Definition scaled (h : R) (v : Base.Vector) : Base.Vector :=
  Base.mkVector (h * Base.x v) (h * Base.y v) (h * Base.z v).

(** The placement [pl] with another position. *)
Definition moved_to (t : Base.Vector) (pl : Base.Placement) : Base.Placement :=
  Base.mkPlacement t (Base.Row1 pl) (Base.Row2 pl) (Base.Row3 pl).

(** A facet whose three points have the same height. *)
Definition level_facet (facet : Mesh.Facet) : Prop :=
  let '(p1, p2, p3) := Mesh.Facet_Points facet in
  Base.z p2 = Base.z p1 /\ Base.z p3 = Base.z p1.

(** A placement whose rotation part is a rotation matrix: its rows are unit
    vectors orthogonal to each other. *)
Definition rigid (pl : Base.Placement) : Prop :=
  Base.dot (Base.Row1 pl) (Base.Row1 pl) = 1
  /\ Base.dot (Base.Row2 pl) (Base.Row2 pl) = 1
  /\ Base.dot (Base.Row3 pl) (Base.Row3 pl) = 1
  /\ Base.dot (Base.Row1 pl) (Base.Row2 pl) = 0
  /\ Base.dot (Base.Row1 pl) (Base.Row3 pl) = 0
  /\ Base.dot (Base.Row2 pl) (Base.Row3 pl) = 0.

(** A facet moved by a matrix. *)
Definition placed (mat : Base.Matrix) (facet : Mesh.Facet) : Mesh.Facet :=
  let '(p1, p2, p3) := Mesh.Facet_Points facet in
  Mesh.mkFacet (Base.multVec mat p1, Base.multVec mat p2, Base.multVec mat p3).

(** A mesh whose faces all point into its points. *)
Definition indexed (m : Mesh.Mesh) : Prop :=
  Forall (fun '(i, j, k) =>
            (i < length (Mesh.Points m) /\ j < length (Mesh.Points m)
             /\ k < length (Mesh.Points m))%nat)
         (Mesh.Faces m).

(** *** Index alignment, entry by entry *)

(** The sub-mesh that a point of the projected mesh belongs to: the sub-mesh
    of a face of the cube, the regular or the axis-normal sub-mesh of the
    cylinder, or, for the sphere, the mesh as a whole. *)
Inductive submesh : Set :=
| FaceSubmesh (face : _UnitCubeFaceEnum)
| RegularSubmesh
| AxisNormalSubmesh
| WholeMesh.

(** A point of the unplaced mesh as a projection reads it: a point of one
    of the sub-meshes. *)
Record source : Set := mkSource {
  source_submesh : submesh;
  source_point : Base.Vector
}.

Definition is_regular (s : source) : bool :=
  match source_submesh s with RegularSubmesh => true | _ => false end.

(** The points of the regular sub-mesh among the sources. *)
Definition regular_points (srcs : list source) : list Base.Vector :=
  map source_point (filter is_regular srcs).

(** The projected coordinate of a source, among all the sources [srcs] of
    the projection (section 4.1): the unfolding of the face for a point of a
    face sub-mesh, the cylindric formula with the average radius of the
    regular points for a regular point, the planar formula for a point of
    the axis-normal sub-mesh, the spherical formula about the barycenter. *)
Definition projected_uv (om : Mesh.Mesh) (srcs : list source) (s : source)
  : Base.Vector2d :=
  match source_submesh s with
  | FaceSubmesh face => cube_unfolding face (Base.div (source_point s) 1000)
  | RegularSubmesh =>
      cyl_regular_uv (avg_radius (regular_points srcs)) (source_point s)
  | AxisNormalSubmesh => cyl_cap_uv (source_point s)
  | WholeMesh =>
      sphere_uv (_compute_barycenter (Mesh.Points om)) (source_point s)
  end.

(** [separated P l l0 l1]: [l1] lists the elements of [l] that satisfy [P]
    and [l0] those that do not, both in the order of [l]. *)
Inductive separated (P : Mesh.Facet -> Prop)
  : list Mesh.Facet -> list Mesh.Facet -> list Mesh.Facet -> Prop :=
| separated_nil : separated P [] [] []
| separated_in (a : Mesh.Facet) (l l0 l1 : list Mesh.Facet) :
    P a -> separated P l l0 l1 -> separated P (a :: l) l0 (a :: l1)
| separated_out (a : Mesh.Facet) (l l0 l1 : list Mesh.Facet) :
    ~ P a -> separated P l l0 l1 -> separated P (a :: l) (a :: l0) l1.

(** The sources of a projection of the unplaced mesh [om], in the order of
    the points of the projected mesh: sub-mesh after sub-mesh (the faces
    +X, -X, +Y, -Y, +Z, -Z; the regular then the axis-normal sub-mesh),
    each sub-mesh with its points in their order; for the sphere the points
    of the mesh. *)
Definition sources_of (k : projection_kind) (om : Mesh.Mesh)
  (srcs : list source) : Prop :=
  match k with
  | Cubic =>
      srcs = concat (map (fun face =>
                            map (mkSource (FaceSubmesh face))
                                (Mesh.Points (cube_submesh om face)))
                         _UnitCubeFaceEnum_members)
  | Spherical => srcs = map (mkSource WholeMesh) (Mesh.Points om)
  | Cylindric =>
      exists faces0 faces1,
        separated (fun facet => axis_normal facet z_axis) (Mesh.Facets om)
                  faces0 faces1
        /\ srcs = map (mkSource RegularSubmesh)
                      (Mesh.Points (Mesh.Mesh_of faces0))
                  ++ map (mkSource AxisNormalSubmesh)
                         (Mesh.Points (Mesh.Mesh_of faces1))
  end.

(** The mesh point [P] is the source [s] in place: the cubic and the
    cylindric strategies move the source by the placement; the spherical
    strategy keeps the mesh, whose point was unplaced into the source. *)
Definition placed_source (k : projection_kind) (pl : Base.Placement)
  (P : Base.Vector) (s : source) : Prop :=
  match k with
  | Spherical =>
      source_point s = Base.multVec (Base.Matrix_of (Base.inverse pl)) P
  | Cubic | Cylindric =>
      P = Base.multVec (Base.Matrix_of pl) (source_point s)
  end.

(** The UV map [uv] is, entry by entry, the projected coordinate of the
    point of [points] at the same index. *)
Definition exactly_aligned (projection : option string) (om : Mesh.Mesh)
  (pl : Base.Placement) (points : list Base.Vector)
  (uv : list Base.Vector2d) : Prop :=
  match kind_of projection with
  | Some k =>
      exists srcs,
        sources_of k om srcs
        /\ Forall2 (placed_source k pl) points srcs
        /\ uv = map (projected_uv om srcs) srcs
  | None => False
  end.

(** * Properties *)

(** ** Deciding comparisons of reals *)

Lemma Rgeb_true (a b : R) : Rgeb a b = true <-> a >= b.
Proof.
  unfold Rgeb; destruct (Rge_dec a b); split; intros; congruence || tauto.
Qed.

Lemma Rgeb_false (a b : R) : Rgeb a b = false <-> a < b.
Proof.
  unfold Rgeb; destruct (Rge_dec a b); split; intros; try congruence; lra.
Qed.

Lemma Rleb_true (a b : R) : Rleb a b = true <-> a <= b.
Proof.
  unfold Rleb; destruct (Rle_dec a b); split; intros; congruence || tauto.
Qed.

Lemma Rleb_false (a b : R) : Rleb a b = false <-> b < a.
Proof.
  unfold Rleb; destruct (Rle_dec a b); split; intros; try congruence; lra.
Qed.

Lemma Reqb_true (a b : R) : Reqb a b = true <-> a = b.
Proof.
  unfold Reqb; destruct (Req_dec_T a b); split; intros; congruence || tauto.
Qed.

Lemma Reqb_false (a b : R) : Reqb a b = false <-> a <> b.
Proof.
  unfold Reqb; destruct (Req_dec_T a b); split; intros; congruence || tauto.
Qed.

Lemma Rabs_cases (a : R) : (a >= 0 /\ Rabs a = a) \/ (a < 0 /\ Rabs a = - a).
Proof. unfold Rabs; destruct (Rcase_abs a); [right | left]; split; lra. Qed.

Ltac r_dec :=
  repeat match goal with
  | |- context [Rge_dec ?a ?b] => destruct (Rge_dec a b)
  | |- context [Rle_dec ?a ?b] => destruct (Rle_dec a b)
  | |- context [Rlt_dec ?a ?b] => destruct (Rlt_dec a b)
  | |- context [Req_dec_T ?a ?b] => destruct (Req_dec_T a b)
  end.

Ltac r_abs a :=
  let H := fresh "Habs" in
  destruct (Rabs_cases a) as [[? H] | [? H]]; rewrite ?H in *.

(** ** The cube-face classifier *)

Lemma intersect_110 : _intersect_unitcube_face (Base.mkVector 1 1 0) = XPLUS.
Proof.
  cbv [_intersect_unitcube_face Base.x Base.y Base.z Rgeb].
  r_abs 1; r_abs 0; r_dec; cbn [andb]; try reflexivity; lra.
Qed.

Lemma intersect_100 : _intersect_unitcube_face (Base.mkVector 1 0 0) = XPLUS.
Proof.
  cbv [_intersect_unitcube_face Base.x Base.y Base.z Rgeb].
  r_abs 1; r_abs 0; r_dec; cbn [andb]; try reflexivity; lra.
Qed.

Lemma intersect_00m1 :
  _intersect_unitcube_face (Base.mkVector 0 0 (-1)) = ZMINUS.
Proof.
  cbv [_intersect_unitcube_face Base.x Base.y Base.z Rgeb].
  r_abs (-1); r_abs 0; r_dec; cbn [andb]; try reflexivity; lra.
Qed.

(** C2.  For a non-zero direction the classifier answers the face whose axis
    carries a component of greatest absolute value, the sign of that
    component choosing between the + and the - face; X is taken whenever it
    is among the greatest, then Y whenever it is at least Z.  In particular
    (1,1,0) and (1,0,0) go to +X and (0,0,-1) goes to -Z. *)
Theorem intersect_unitcube_face_spec :
  (forall d : Base.Vector,
      d <> Base.mkVector 0 0 0 ->
      let f := _intersect_unitcube_face d in
      let c := component (face_axis f) d in
      (Rabs c >= Rabs (Base.x d) /\ Rabs c >= Rabs (Base.y d)
       /\ Rabs c >= Rabs (Base.z d))
      /\ (face_positive f = true <-> c > 0)
      /\ (face_positive f = false <-> c < 0)
      /\ (Rabs (Base.x d) >= Rabs (Base.y d) ->
          Rabs (Base.x d) >= Rabs (Base.z d) -> face_axis f = AxisX)
      /\ (Rabs (Base.y d) > Rabs (Base.x d) ->
          Rabs (Base.y d) >= Rabs (Base.z d) -> face_axis f = AxisY))
  /\ _intersect_unitcube_face (Base.mkVector 1 1 0) = XPLUS
  /\ _intersect_unitcube_face (Base.mkVector 1 0 0) = XPLUS
  /\ _intersect_unitcube_face (Base.mkVector 0 0 (-1)) = ZMINUS.
Proof.
  split; [| auto using intersect_110, intersect_100, intersect_00m1].
  intros [a b c] Hnz.
  assert (H : a <> 0 \/ b <> 0 \/ c <> 0).
  { destruct (Req_dec_T a 0), (Req_dec_T b 0), (Req_dec_T c 0);
      subst; tauto. }
  cbv [_intersect_unitcube_face Base.x Base.y Base.z Rgeb].
  r_abs a; r_abs b; r_abs c; r_dec;
    cbn [andb face_axis face_positive component Base.x Base.y Base.z];
    rewrite ?Habs, ?Habs0, ?Habs1;
    repeat split; intros; try discriminate; try lra;
    try (destruct H as [H | [H | H]]; lra).
Qed.

Lemma intersect_unitcube_face_spec_witness :
  Base.mkVector 1 1 0 <> Base.mkVector 0 0 0
  /\ face_axis (_intersect_unitcube_face (Base.mkVector 1 1 0)) = AxisX.
Proof.
  assert (Hnz : Base.mkVector 1 1 0 <> Base.mkVector 0 0 0).
  { intros H; injection H; intros; lra. }
  split; [exact Hnz |].
  destruct (proj1 intersect_unitcube_face_spec _ Hnz) as (_ & _ & _ & HX & _).
  apply HX; cbn [Base.x Base.y Base.z]; r_abs 1; r_abs 0; lra.
Defined.

(** ** Methods that read, and methods that fail cleanly *)

Lemma readonly_ret {A : Type} (a : A) : readonly (ret a).
Proof. intros self; reflexivity. Qed.

Lemma readonly_lift {A : Type} (r : result A) : readonly (lift r).
Proof. intros self; reflexivity. Qed.

Lemma readonly_get_originalmesh : readonly get_originalmesh.
Proof.
  intros self; unfold get_originalmesh; destruct (__originalmesh self);
    reflexivity.
Qed.

Lemma readonly_get_originalplacement : readonly get_originalplacement.
Proof.
  intros self; unfold get_originalplacement;
    destruct (__originalplacement self); reflexivity.
Qed.

Lemma readonly_bind {A B : Type} (c : M A) (k : A -> M B) :
  readonly c -> (forall a, readonly (k a)) -> readonly (bind c k).
Proof.
  intros Hc Hk self; unfold bind.
  specialize (Hc self); destruct (c self) as [[a | e] s]; cbn in *; subst.
  - apply Hk.
  - reflexivity.
Qed.

Lemma readonly_for_ {A S : Type} (xs : list A) (body : S -> A -> M S) :
  (forall s a, readonly (body s a)) -> forall s, readonly (for_ xs body s).
Proof.
  intros Hb; induction xs as [| a xs IH]; intros s; cbn [for_].
  - apply readonly_ret.
  - apply readonly_bind; auto.
Qed.

Lemma readonly_atomic {A : Type} (c : M A) : readonly c -> atomic c.
Proof.
  intros Hc self e self' H; specialize (Hc self); rewrite H in Hc.
  exact Hc.
Qed.

Lemma atomic_bind {A B : Type} (c : M A) (k : A -> M B) :
  readonly c -> (forall a, atomic (k a)) -> atomic (bind c k).
Proof.
  intros Hc Hk self e self'; unfold bind.
  specialize (Hc self); destruct (c self) as [[a | e0] s]; cbn in Hc; subst.
  - apply Hk.
  - intros H; inversion H; reflexivity.
Qed.

(** The two final assignments cannot raise. *)
Lemma atomic_assign (m : Mesh.Mesh) (uv : option (list Base.Vector2d)) :
  atomic (set_mesh m ;;; set_uvmap uv).
Proof. intros self e self' H; discriminate H. Qed.

Lemma atomic_set_uvmap (uv : option (list Base.Vector2d)) :
  atomic (set_uvmap uv).
Proof. intros self e self' H; discriminate H. Qed.

Create HintDb uvmap.

#[local] Hint Resolve readonly_ret readonly_lift readonly_get_originalmesh
  readonly_get_originalplacement readonly_bind readonly_for_
  atomic_assign atomic_set_uvmap : uvmap.

Lemma atomic_compute_uvmap_cube : atomic _compute_uvmap_cube.
Proof.
  unfold _compute_uvmap_cube.
  apply atomic_bind; [auto with uvmap | intros om].
  apply atomic_bind; [| intros [mesh uv]; auto with uvmap].
  apply readonly_for_; intros [mesh uv] [face facets].
  auto with uvmap.
Qed.

Lemma atomic_compute_uvmap_sphere : atomic _compute_uvmap_sphere.
Proof.
  unfold _compute_uvmap_sphere.
  repeat (apply atomic_bind; [auto with uvmap | intros ?]).
  auto with uvmap.
Qed.

Lemma atomic_compute_uvmap_cylinder : atomic _compute_uvmap_cylinder.
Proof.
  unfold _compute_uvmap_cylinder.
  apply atomic_bind; [auto with uvmap | intros om].
  apply atomic_bind; [auto with uvmap | intros [[f0 f1] zv]; cbv zeta].
  repeat first [ apply atomic_assign
               | apply atomic_bind; [solve [auto with uvmap] | intros ?] ].
Qed.

Lemma atomic_compute_uvmap (projection : option string) :
  atomic (compute_uvmap projection).
Proof.
  unfold compute_uvmap.
  repeat match goal with
         | |- context [String.eqb ?a ?b] => destruct (String.eqb a b)
         end;
    auto using atomic_compute_uvmap_cube, atomic_compute_uvmap_sphere,
      atomic_compute_uvmap_cylinder, readonly_atomic, readonly_lift.
Qed.

(** ** The cubic strategy, step by step *)

Lemma face_eqb_eq (a b : _UnitCubeFaceEnum) : face_eqb a b = true <-> a = b.
Proof. destruct a, b; cbn; split; intros H; congruence. Qed.

Lemma face_eqb_sym (a b : _UnitCubeFaceEnum) : face_eqb a b = face_eqb b a.
Proof. destruct a, b; reflexivity. Qed.

Lemma compute_uv_from_unitcube_table (p : Base.Vector)
  (face : _UnitCubeFaceEnum) :
  _compute_uv_from_unitcube p face = cube_unfolding face p.
Proof. destruct face; reflexivity. Qed.

(** A loop whose body only reads the object is a fold. *)
Lemma for_fold {A S : Type} (self : RenderingMesh) (body : S -> A -> M S)
  (g : S -> A -> S) :
  (forall s a, body s a self = (OK (g s a), self)) ->
  forall xs s, for_ xs body s self = (OK (fold_left g xs s), self).
Proof.
  intros Hb xs; induction xs as [| a xs IH]; intros s; cbn [for_ fold_left].
  - reflexivity.
  - unfold bind; rewrite Hb; apply IH.
Qed.

(** The dictionary after the classification loop. *)
Lemma face_facets_fold (facets : list Mesh.Facet)
  (g : _UnitCubeFaceEnum -> list Mesh.Facet) :
  fold_left (fun face_facets facet =>
               face_dict_append face_facets
                 (_intersect_unitcube_face (Mesh.Facet_Normal facet)) facet)
            facets (map (fun f => (f, g f)) _UnitCubeFaceEnum_members)
  = map (fun f =>
           (f, g f ++ filter (fun facet =>
                                face_eqb (_intersect_unitcube_face
                                            (Mesh.Facet_Normal facet)) f)
                             facets))
        _UnitCubeFaceEnum_members.
Proof.
  revert g; induction facets as [| facet facets IH]; intros g.
  - cbn [fold_left filter]; apply map_ext; intros f; now rewrite app_nil_r.
  - cbn [fold_left filter].
    unfold face_dict_append at 2; rewrite map_map.
    rewrite (map_ext _ (fun f => (f, if face_eqb f (_intersect_unitcube_face
                                       (Mesh.Facet_Normal facet))
                                     then g f ++ [facet] else g f))).
    2:{ intros f; destruct (face_eqb f _); reflexivity. }
    rewrite (IH (fun f => if face_eqb f (_intersect_unitcube_face
                                       (Mesh.Facet_Normal facet))
                                     then g f ++ [facet] else g f)).
    apply map_ext; intros f; rewrite (face_eqb_sym f).
    destruct (face_eqb _ f); [rewrite <- app_assoc |]; reflexivity.
Qed.

Lemma cube_run (self : RenderingMesh) (om : Mesh.Mesh) (pl : Base.Placement) :
  __originalmesh self = Some om ->
  __originalplacement self = Some pl ->
  _compute_uvmap_cube self
  = (OK tt, mkRenderingMesh (cube_mesh om pl) (Some om) (Some pl)
                            (Some (cube_uvmap om))).
Proof.
  intros Hom Hpl.
  unfold _compute_uvmap_cube, bind at 1, get_originalmesh; rewrite Hom.
  unfold face_dict_init.
  rewrite (face_facets_fold (Mesh.Facets om) (fun _ => [])).
  unfold bind at 1.
  erewrite (for_fold self _
              (fun '(mesh, uvmap) '(cubeface, facets) =>
                 (Mesh.addMesh mesh
                    (Mesh.transform (Base.Matrix_of pl) (Mesh.Mesh_of facets)),
                  uvmap ++ map (fun p => _compute_uv_from_unitcube
                                           (Base.div p 1000) cubeface)
                               (Mesh.Points (Mesh.Mesh_of facets))))).
  2:{ intros [mesh uv] [face facets]; unfold bind, get_originalplacement.
      rewrite Hpl; reflexivity. }
  cbn [_UnitCubeFaceEnum_members map fold_left app].
  unfold bind, set_mesh, set_uvmap; cbn [__mesh __originalmesh
    __originalplacement __uvmap].
  rewrite Hom, Hpl.
  unfold cube_mesh, cube_uvmap, cube_submesh, cube_facets.
  cbn [_UnitCubeFaceEnum_members map fold_left concat].
  rewrite !app_nil_r, <- !app_assoc.
  repeat f_equal; apply map_ext; intros p; apply compute_uv_from_unitcube_table.
Qed.

(** ** The host mesh *)

Lemma Points_transform (mat : Base.Matrix) (m : Mesh.Mesh) :
  Mesh.Points (Mesh.transform mat m) = map (Base.multVec mat) (Mesh.Points m).
Proof. reflexivity. Qed.

Lemma Points_addMesh (m other : Mesh.Mesh) :
  Mesh.Points (Mesh.addMesh m other) = Mesh.Points m ++ Mesh.Points other.
Proof. reflexivity. Qed.

Lemma fold_left_Rplus (l : list R) (a : R) :
  fold_left Rplus l a = a + Rsum l.
Proof.
  unfold Rsum; revert a; induction l as [| b l IH]; intros a; cbn.
  - lra.
  - rewrite IH; lra.
Qed.

Lemma fold_left_add (points : list Base.Vector) (a : Base.Vector) :
  fold_left Base.add points a
  = Base.mkVector (Base.x a + Rsum (map Base.x points))
                  (Base.y a + Rsum (map Base.y points))
                  (Base.z a + Rsum (map Base.z points)).
Proof.
  unfold Rsum; revert a; induction points as [| p points IH];
    intros [a b c]; cbn.
  - f_equal; lra.
  - rewrite IH; cbn; f_equal; lra.
Qed.

Lemma compute_barycenter_nil :
  _compute_barycenter [] = Base.mkVector 0 0 0.
Proof. reflexivity. Qed.

Lemma compute_barycenter_mean (points : list Base.Vector) :
  points <> [] -> _compute_barycenter points = mean_position points.
Proof.
  intros Hne; unfold _compute_barycenter, mean_position.
  destruct points as [| p points]; [congruence |].
  cbn [length Nat.eqb]; rewrite fold_left_add; unfold Base.div.
  cbn [Base.x Base.y Base.z]; rewrite !Rplus_0_l; reflexivity.
Qed.

(** ** Lengths *)

Lemma dot_self_nonneg (v : Base.Vector) : 0 <= Base.dot v v.
Proof. destruct v as [a b c]; unfold Base.dot; cbn; nra. Qed.

Lemma Length_nonneg (v : Base.Vector) : 0 <= Base.Length v.
Proof. apply sqrt_pos. Qed.

Lemma Length_sqr (v : Base.Vector) :
  Base.Length v * Base.Length v = Base.dot v v.
Proof. apply sqrt_sqrt, dot_self_nonneg. Qed.

Lemma Length_eq (v : Base.Vector) (l : R) :
  0 <= l -> l * l = Base.dot v v -> Base.Length v = l.
Proof. intros Hl H; apply sqrt_lem_1; auto using dot_self_nonneg. Qed.

Lemma z_over_Length (v : Base.Vector) :
  Base.Length v <> 0 -> Rabs (Base.z v / Base.Length v) <= 1.
Proof.
  intros Hnz.
  pose proof (Length_nonneg v) as Hpos; pose proof (Length_sqr v) as Hsq.
  assert (HL : 0 < Base.Length v) by lra.
  assert (Hz : Base.z v * Base.z v <= Base.Length v * Base.Length v).
  { rewrite Hsq; destruct v as [a b c]; unfold Base.dot; cbn; nra. }
  unfold Rdiv; rewrite Rabs_mult, (Rabs_right (/ _)).
  2:{ apply Rle_ge, Rlt_le, Rinv_0_lt_compat, HL. }
  apply (Rmult_le_reg_r (Base.Length v)); [exact HL |].
  rewrite Rmult_assoc, Rinv_l, Rmult_1_r, Rmult_1_l by exact Hnz.
  r_abs (Base.z v); nra.
Qed.

(** ** The spherical strategy, step by step *)

(** One element of the comprehension of [_compute_uvmap_sphere]. *)
Lemma sphere_element (origin p : Base.Vector) :
  let v := Base.sub p origin in
  (let* q := truediv (Base.z v) (Base.Length v) in
   let* a := math.asin q in
   OK (Base.scale2d
         (Base.mkVector2d
            (0.5 + math.atan2 (Base.x v) (Base.y v) / (2 * math.pi))
            (0.5 + a / math.pi))
         (Base.Length v / 1000 * math.pi)))
  = if Reqb (Base.Length v) 0 then Raise ZeroDivisionError
    else OK (sphere_uv origin p).
Proof.
  intros v; unfold truediv.
  destruct (Reqb (Base.Length v) 0) eqn:E; [reflexivity |].
  apply Reqb_false in E; cbn [rbind]; unfold math.asin.
  rewrite (proj2 (Rleb_true _ _) (z_over_Length v E)); reflexivity.
Qed.

Lemma sphere_mapM (origin : Base.Vector) (points : list Base.Vector) :
  mapM (fun v =>
          let* q := truediv (Base.z v) (Base.Length v) in
          let* a := math.asin q in
          OK (Base.scale2d
                (Base.mkVector2d
                   (0.5 + math.atan2 (Base.x v) (Base.y v) / (2 * math.pi))
                   (0.5 + a / math.pi))
                (Base.Length v / 1000 * math.pi)))
       (map (fun p => Base.sub p origin) points)
  = if forallb (fun p => negb (Reqb (Base.Length (Base.sub p origin)) 0))
               points
    then OK (map (sphere_uv origin) points)
    else Raise ZeroDivisionError.
Proof.
  induction points as [| p points IH]; [reflexivity |].
  cbn [map mapM forallb].
  rewrite (sphere_element origin p), IH.
  destruct (Reqb (Base.Length (Base.sub p origin)) 0); [reflexivity |].
  cbn [negb andb rbind]; destruct (forallb _ points); reflexivity.
Qed.

Lemma sphere_run (self : RenderingMesh) (om : Mesh.Mesh) :
  __originalmesh self = Some om ->
  let origin := _compute_barycenter (Mesh.Points om) in
  _compute_uvmap_sphere self
  = if forallb (fun p => negb (Reqb (Base.Length (Base.sub p origin)) 0))
               (Mesh.Points om)
    then (OK tt, mkRenderingMesh (__mesh self) (Some om)
                   (__originalplacement self)
                   (Some (map (sphere_uv origin) (Mesh.Points om))))
    else (Raise ZeroDivisionError, self).
Proof.
  intros Hom origin.
  unfold _compute_uvmap_sphere, bind, get_originalmesh, lift.
  rewrite Hom; cbv beta iota zeta; rewrite Hom; cbv beta iota zeta.
  fold origin; rewrite sphere_mapM.
  destruct (forallb _ _); [unfold set_uvmap; rewrite Hom |]; reflexivity.
Qed.

(** ** The cylindric strategy, step by step *)

Lemma isclose_zero (a : R) :
  math.isclose a 0 math.rel_tol_default 1e-5 = true <-> Rabs a <= 1e-5.
Proof.
  unfold math.isclose, math.rel_tol_default.
  replace (a - 0) with a by lra.
  rewrite Rabs_R0, Rleb_true.
  pose proof (Rabs_pos a) as Ha.
  rewrite (Rmax_left (Rabs a) 0) by exact Ha.
  unfold Rmax; destruct (Rle_dec (1e-9 * Rabs a) 1e-5); lra.
Qed.

Lemma is_facet_normal_to_vector_spec (facet : Mesh.Facet)
  (vector vector' : Base.Vector) (res : bool) :
  _is_facet_normal_to_vector facet vector = OK (res, vector') ->
  Base.normalize vector = OK vector'
  /\ (res = true <-> axis_normal facet vector).
Proof.
  unfold _is_facet_normal_to_vector, axis_normal.
  destruct (Mesh.Facet_Points facet) as [[p1 p2] p3].
  destruct (Base.normalize (Base.sub p2 p1)) as [e1 |]; [| discriminate].
  destruct (Base.normalize (Base.sub p3 p1)) as [e2 |]; [| discriminate].
  destruct (Base.normalize vector) as [a |]; [| discriminate].
  cbn [rbind]; intros H; inversion H; subst; clear H.
  split; [reflexivity |].
  rewrite andb_true_iff, !isclose_zero; split.
  - intros [H1 H2]; exists e1, e2, vector'; auto.
  - intros (e1' & e2' & a' & E1 & E2 & E3 & H1 & H2).
    inversion E1; inversion E2; inversion E3; subst; auto.
Qed.

Lemma normalize_z_axis : Base.normalize z_axis = OK z_axis.
Proof.
  unfold Base.normalize.
  rewrite (Length_eq z_axis 1) by (unfold Base.dot, z_axis; cbn; lra).
  rewrite (proj2 (Reqb_false 1 0)) by lra.
  unfold Base.div, z_axis; cbn; do 2 f_equal; lra.
Qed.

(** The splitting loop, from any accumulated state whose vector is already
    normalized. *)
Lemma split_loop (axis : Base.Vector) :
  Base.normalize axis = OK axis ->
  forall facets acc0 acc1 faces0 faces1 z_vector,
    foldM (fun '(faces0, faces1, z_vector) facet =>
             let* (res, z_vector) :=
               _is_facet_normal_to_vector facet z_vector in
             if res then OK (faces0, faces1 ++ [facet], z_vector)
             else OK (faces0 ++ [facet], faces1, z_vector))
          facets (acc0, acc1, axis)
    = OK (faces0, faces1, z_vector) ->
    z_vector = axis
    /\ exists r0 r1,
        faces0 = acc0 ++ r0 /\ faces1 = acc1 ++ r1
        /\ Permutation (r0 ++ r1) facets
        /\ Forall (fun facet => ~ axis_normal facet axis) r0
        /\ Forall (fun facet => axis_normal facet axis) r1.
Proof.
  intros Hax; induction facets as [| facet facets IH];
    intros acc0 acc1 faces0 faces1 z_vector; cbn [foldM].
  - intros H; inversion H; subst; split; [reflexivity |].
    exists [], []; rewrite !app_nil_r; auto.
  - destruct (_is_facet_normal_to_vector facet axis) as [[res v'] |] eqn:E;
      [| discriminate].
    apply is_facet_normal_to_vector_spec in E as [Hv Hres].
    rewrite Hax in Hv; inversion Hv; subst v'; clear Hv.
    cbn [rbind]; destruct res; intros H; apply IH in H;
      destruct H as (Hz & r0 & r1 & -> & -> & Hperm & H0 & H1);
      (split; [exact Hz |]).
    + exists r0, (facet :: r1); rewrite <- !app_assoc; repeat split; auto.
      * apply Permutation_sym, Permutation_cons_app, Permutation_sym, Hperm.
      * constructor; [tauto | exact H1].
    + exists (facet :: r0), r1; rewrite <- !app_assoc; repeat split; auto.
      * cbn; constructor; exact Hperm.
      * constructor; [| exact H0].
        intros Hn; apply Hres in Hn; discriminate.
Qed.

Lemma cylinder_run (self : RenderingMesh) (om : Mesh.Mesh)
  (pl : Base.Placement) :
  __originalmesh self = Some om ->
  __originalplacement self = Some pl ->
  _compute_uvmap_cylinder self
  = match split_z_normal (Mesh.Facets om) z_axis with
    | Raise e => (Raise e, self)
    | OK (faces0, faces1, _) =>
        if Reqb (INR (length (Mesh.Points (Mesh.Mesh_of faces0)))) 0
        then (Raise ZeroDivisionError, self)
        else (OK tt, mkRenderingMesh (cyl_mesh pl faces0 faces1) (Some om)
                       (Some pl) (Some (cyl_uvmap faces0 faces1)))
    end.
Proof.
  intros Hom Hpl.
  unfold _compute_uvmap_cylinder, bind at 1, get_originalmesh; rewrite Hom.
  fold z_axis; unfold bind at 1, lift at 1.
  destruct (split_z_normal (Mesh.Facets om) z_axis) as [[[f0 f1] zv] | e];
    [| reflexivity].
  cbv zeta; unfold bind at 1, lift, truediv.
  destruct (Reqb (INR (length (Mesh.Points (Mesh.Mesh_of f0)))) 0);
    [reflexivity |].
  unfold bind, get_originalplacement, set_mesh, set_uvmap.
  cbn [__mesh __originalmesh __originalplacement __uvmap].
  repeat progress (rewrite ?Hom, ?Hpl; cbv beta iota zeta;
                   cbn [__mesh __originalmesh __originalplacement __uvmap]).
  unfold cyl_mesh, cyl_uvmap, avg_radius.
  rewrite fold_left_Rplus, Rplus_0_l; reflexivity.
Qed.

(** ** Dispatch and failure *)

Lemma compute_uvmap_unsupported (projection : string)
  (self : RenderingMesh) :
  ~ supported projection ->
  compute_uvmap (Some projection) self = (Raise ValueError, self).
Proof.
  intros Hns; unfold compute_uvmap, supported in *.
  destruct (String.eqb projection "Cubic") eqn:E1;
    [apply String.eqb_eq in E1; tauto |].
  destruct (String.eqb projection "Spherical") eqn:E2;
    [apply String.eqb_eq in E2; tauto |].
  destruct (String.eqb projection "Cylindric") eqn:E3;
    [apply String.eqb_eq in E3; tauto |].
  reflexivity.
Qed.

(** C7.  An unset projection kind is the cubic one, and a kind other than
    "Cubic", "Spherical" and "Cylindric" raises [ValueError] (the spec's
    InvalidArgument) and leaves the object as it was: no strategy runs. *)
Theorem compute_uvmap_dispatch :
  (forall self, compute_uvmap None self = compute_uvmap (Some "Cubic"%string) self)
  /\ (forall self,
         compute_uvmap (Some "Cubic"%string) self = _compute_uvmap_cube self)
  /\ (forall projection self,
         ~ supported projection ->
         compute_uvmap (Some projection) self = (Raise ValueError, self)).
Proof.
  split; [reflexivity |]; split; [reflexivity |].
  exact compute_uvmap_unsupported.
Qed.

Lemma compute_uvmap_dispatch_witness :
  ~ supported "Planar"%string
  /\ forall self,
      compute_uvmap (Some "Planar"%string) self = (Raise ValueError, self).
Proof.
  assert (H : ~ supported "Planar"%string).
  { unfold supported; intros [H | [H | H]]; discriminate H. }
  split; [exact H |].
  intros self; exact (proj2 (proj2 compute_uvmap_dispatch) _ self H).
Defined.

(** C9.  When [compute_uvmap] raises, whatever the strategy, the object is
    left exactly as it was before the call: its mesh and its UV map (and its
    other attributes) are the pre-call values. *)
Theorem compute_uvmap_failure_keeps_object (projection : option string)
  (self self' : RenderingMesh) (e : exn) :
  compute_uvmap projection self = (Raise e, self') ->
  self' = self /\ __mesh self' = __mesh self /\ __uvmap self' = __uvmap self.
Proof.
  intros H; apply atomic_compute_uvmap in H; subst; auto.
Qed.

(** ** Evaluating the geometry on given coordinates *)

Ltac abs_lra :=
  repeat match goal with
         | |- context [Rabs ?a] =>
             let H := fresh "Habs" in
             destruct (Rabs_cases a) as [[? H] | [? H]]; rewrite H
         end;
  lra.

(** Decide the comparisons of the goal, each by linear arithmetic. *)
Ltac r_eval :=
  repeat match goal with
         | |- context [Rleb ?a ?b] =>
             first [ rewrite (proj2 (Rleb_true a b)) by abs_lra
                   | rewrite (proj2 (Rleb_false a b)) by abs_lra ]
         | |- context [Rgeb ?a ?b] =>
             first [ rewrite (proj2 (Rgeb_true a b)) by abs_lra
                   | rewrite (proj2 (Rgeb_false a b)) by abs_lra ]
         | |- context [Reqb ?a ?b] =>
             first [ rewrite (proj2 (Reqb_true a b)) by lra
                   | rewrite (proj2 (Reqb_false a b)) by lra ]
         end.

(** Decide the equalities of points of the goal. *)
Ltac vec_eval :=
  repeat match goal with
         | |- context [Base.Vector_eq_dec ?p ?q] =>
             let E := fresh "E" in
             destruct (Base.Vector_eq_dec p q) as [E | E];
             [ try (exfalso; injection E; intros; lra)
             | try (exfalso; apply E; f_equal; lra) ]
         end.

Lemma Placement_eqb_refl (pl : Base.Placement) : Base.Placement_eqb pl pl = true.
Proof.
  unfold Base.Placement_eqb; destruct (Base.Placement_eq_dec pl pl); congruence.
Qed.

Lemma multVec_Placement0 (p : Base.Vector) :
  Base.multVec (Base.Matrix_of Base.Placement0) p = p.
Proof. destruct p as [a b c]; cbv [Base.multVec Base.Matrix_of Base.Placement0
  Base.Row1 Base.Row2 Base.Row3 Base.Position Base.x Base.y Base.z Base.A11
  Base.A12 Base.A13 Base.A14 Base.A21 Base.A22 Base.A23 Base.A24 Base.A31
  Base.A32 Base.A33 Base.A34]; f_equal; lra.
Qed.

Lemma multVec_inverse_Placement0 (p : Base.Vector) :
  Base.multVec (Base.Matrix_of (Base.inverse Base.Placement0)) p = p.
Proof. destruct p as [a b c]; cbv [Base.multVec Base.Matrix_of Base.Placement0
  Base.inverse Base.dot
  Base.Row1 Base.Row2 Base.Row3 Base.Position Base.x Base.y Base.z Base.A11
  Base.A12 Base.A13 Base.A14 Base.A21 Base.A22 Base.A23 Base.A24 Base.A31
  Base.A32 Base.A33 Base.A34]; f_equal; lra.
Qed.

Lemma transform_Placement0 (m : Mesh.Mesh) :
  Mesh.transform (Base.Matrix_of Base.Placement0) m = m.
Proof.
  destruct m as [pts faces pl]; unfold Mesh.transform; cbn; f_equal.
  rewrite (map_ext _ (fun p => p)) by apply multVec_Placement0.
  apply map_id.
Qed.

Lemma transform_inverse_Placement0 (m : Mesh.Mesh) :
  Mesh.transform (Base.Matrix_of (Base.inverse Base.Placement0)) m = m.
Proof.
  destruct m as [pts faces pl]; unfold Mesh.transform; cbn; f_equal.
  rewrite (map_ext _ (fun p => p)) by apply multVec_inverse_Placement0.
  apply map_id.
Qed.

Lemma init_mesh (mesh : Mesh.Mesh) (uv : option (list Base.Vector2d))
  (pl : Base.Placement) :
  Mesh.Placement mesh = Base.Placement0 ->
  __init__ (Some mesh) uv pl
  = OK (mkRenderingMesh mesh
          (Some (Mesh.transform (Base.Matrix_of (Base.inverse pl)) mesh))
          (Some pl) uv).
Proof.
  intros H; unfold __init__; rewrite H, Placement_eqb_refl; reflexivity.
Qed.

Lemma init_inv (mesh : Mesh.Mesh) (uv : option (list Base.Vector2d))
  (pl : Base.Placement) (self : RenderingMesh) :
  __init__ (Some mesh) uv pl = OK self ->
  self = mkRenderingMesh mesh
           (Some (Mesh.transform (Base.Matrix_of (Base.inverse pl)) mesh))
           (Some pl) uv.
Proof.
  unfold __init__; destruct (Base.Placement_eqb _ _); [| discriminate].
  intros H; inversion H; reflexivity.
Qed.

(** The classifier does not depend on the length of the direction. *)
Lemma Rabs_div_pos (a l : R) : 0 < l -> Rabs (a / l) = Rabs a / l.
Proof.
  intros Hl; unfold Rdiv; rewrite Rabs_mult, (Rabs_right (/ l)); [reflexivity |].
  apply Rle_ge, Rlt_le, Rinv_0_lt_compat, Hl.
Qed.

Lemma Rgeb_div_pos (a b l : R) : 0 < l -> Rgeb (a / l) (b / l) = Rgeb a b.
Proof.
  intros Hl.
  assert (Hi : 0 < / l) by (apply Rinv_0_lt_compat, Hl).
  destruct (Rgeb a b) eqn:E.
  - apply Rgeb_true in E; apply Rgeb_true; unfold Rdiv; nra.
  - apply Rgeb_false in E; apply Rgeb_false; unfold Rdiv; nra.
Qed.

Lemma Rgeb_div_pos_0 (a l : R) : 0 < l -> Rgeb (a / l) 0 = Rgeb a 0.
Proof.
  intros Hl; rewrite <- (Rgeb_div_pos a 0 l Hl); f_equal; unfold Rdiv; lra.
Qed.

Lemma intersect_unitcube_face_div (d : Base.Vector) (l : R) :
  0 < l ->
  _intersect_unitcube_face (Base.div d l) = _intersect_unitcube_face d.
Proof.
  intros Hl; destruct d as [a b c].
  unfold _intersect_unitcube_face, Base.div; cbn [Base.x Base.y Base.z].
  rewrite !Rabs_div_pos, !Rgeb_div_pos, !Rgeb_div_pos_0 by exact Hl.
  reflexivity.
Qed.

Lemma intersect_Facet_Normal (facet : Mesh.Facet) :
  _intersect_unitcube_face (Mesh.Facet_Normal facet)
  = let '(p1, p2, p3) := Mesh.Facet_Points facet in
    _intersect_unitcube_face (Base.cross (Base.sub p2 p1) (Base.sub p3 p1)).
Proof.
  unfold Mesh.Facet_Normal; destruct (Mesh.Facet_Points facet) as [[p1 p2] p3].
  destruct (Reqb _ 0) eqn:E; [reflexivity |].
  apply Reqb_false in E; apply intersect_unitcube_face_div.
  pose proof (Length_nonneg (Base.cross (Base.sub p2 p1) (Base.sub p3 p1))).
  lra.
Qed.

Ltac mesh_step :=
  unfold Mesh.Mesh_of, Mesh.addFacet, Mesh.add_point;
  cbn [fold_left Mesh.Facet_Points Mesh.index_of Mesh.Points Mesh.Faces
       Mesh.Placement Mesh.Mesh0 length app].

Ltac mesh_eval := mesh_step; repeat (progress vec_eval; mesh_step).

Ltac classify_eval :=
  rewrite intersect_Facet_Normal;
  cbv [Mesh.Facet_Points _intersect_unitcube_face Base.cross Base.sub
       Base.x Base.y Base.z];
  r_eval; reflexivity.

Lemma corner_mesh_Facets :
  Mesh.Facets corner_mesh
  = [Mesh.mkFacet (Base.mkVector 0 0 0, Base.mkVector 1 0 0,
                   Base.mkVector 0 1 0);
     Mesh.mkFacet (Base.mkVector 0 0 0, Base.mkVector 1 0 0,
                   Base.mkVector 0 0 1)].
Proof. reflexivity. Qed.

Lemma corner_mesh_cap :
  _intersect_unitcube_face
    (Mesh.Facet_Normal
       (Mesh.mkFacet (Base.mkVector 0 0 0, Base.mkVector 1 0 0,
                      Base.mkVector 0 1 0))) = ZPLUS.
Proof. classify_eval. Qed.

Lemma corner_mesh_wall :
  _intersect_unitcube_face
    (Mesh.Facet_Normal
       (Mesh.mkFacet (Base.mkVector 0 0 0, Base.mkVector 1 0 0,
                      Base.mkVector 0 0 1))) = YMINUS.
Proof. classify_eval. Qed.

Lemma corner_mesh_cube_submesh (face : _UnitCubeFaceEnum) :
  cube_submesh corner_mesh face
  = match face with
    | YMINUS =>
        Mesh.mkMesh [Base.mkVector 0 0 0; Base.mkVector 1 0 0;
                     Base.mkVector 0 0 1] [(0, 1, 2)%nat] Base.Placement0
    | ZPLUS =>
        Mesh.mkMesh [Base.mkVector 0 0 0; Base.mkVector 1 0 0;
                     Base.mkVector 0 1 0] [(0, 1, 2)%nat] Base.Placement0
    | _ => Mesh.Mesh0
    end.
Proof.
  unfold cube_submesh, cube_facets; rewrite corner_mesh_Facets.
  cbn [filter]; rewrite corner_mesh_cap, corner_mesh_wall.
  destruct face; cbn [face_eqb]; try reflexivity; mesh_eval; reflexivity.
Qed.

Lemma unit_cube_classes :
  map (fun facet => _intersect_unitcube_face (Mesh.Facet_Normal facet))
      (Mesh.Facets unit_cube)
  = [XPLUS; XPLUS; XMINUS; XMINUS; YPLUS; YPLUS;
     YMINUS; YMINUS; ZPLUS; ZPLUS; ZMINUS; ZMINUS].
Proof.
  cbn [Mesh.Facets unit_cube map nth Mesh.Points Mesh.Faces].
  repeat (apply f_equal2; [classify_eval |]); reflexivity.
Qed.

Lemma filter_by_class {A B : Type} (cls : A -> B) (test : B -> bool)
  (l : list A) :
  filter (fun a => test (cls a)) l
  = map fst (filter (fun ac => test (snd ac)) (combine l (map cls l))).
Proof.
  induction l as [| a l IH]; [reflexivity |].
  cbn [map combine filter snd]; destruct (test (cls a)); cbn [map fst];
    now rewrite IH.
Qed.

Lemma unit_cube_submesh (face : _UnitCubeFaceEnum) :
  cube_submesh unit_cube face
  = Mesh.mkMesh
      match face with
      | XPLUS =>
          [Base.mkVector 500 (-500) (-500); Base.mkVector 500 500 (-500);
           Base.mkVector 500 500 500; Base.mkVector 500 (-500) 500]
      | XMINUS =>
          [Base.mkVector (-500) (-500) (-500); Base.mkVector (-500) (-500) 500;
           Base.mkVector (-500) 500 500; Base.mkVector (-500) 500 (-500)]
      | YPLUS =>
          [Base.mkVector (-500) 500 (-500); Base.mkVector (-500) 500 500;
           Base.mkVector 500 500 500; Base.mkVector 500 500 (-500)]
      | YMINUS =>
          [Base.mkVector (-500) (-500) (-500); Base.mkVector 500 (-500) (-500);
           Base.mkVector 500 (-500) 500; Base.mkVector (-500) (-500) 500]
      | ZPLUS =>
          [Base.mkVector (-500) (-500) 500; Base.mkVector 500 (-500) 500;
           Base.mkVector 500 500 500; Base.mkVector (-500) 500 500]
      | ZMINUS =>
          [Base.mkVector (-500) (-500) (-500); Base.mkVector (-500) 500 (-500);
           Base.mkVector 500 500 (-500); Base.mkVector 500 (-500) (-500)]
      end
      [(0, 1, 2); (0, 2, 3)]%nat Base.Placement0.
Proof.
  unfold cube_submesh, cube_facets.
  rewrite (filter_by_class
             (fun facet => _intersect_unitcube_face (Mesh.Facet_Normal facet))
             (fun c => face_eqb c face)).
  rewrite unit_cube_classes.
  cbn [Mesh.Facets unit_cube map nth Mesh.Points Mesh.Faces combine].
  destruct face; cbn [filter snd face_eqb map fst]; mesh_eval; reflexivity.
Qed.

(** ** The merged mesh of the cubic strategy *)

Lemma Points_cube_mesh (om : Mesh.Mesh) (pl : Base.Placement) :
  Mesh.Points (cube_mesh om pl)
  = concat (map (fun face =>
                   map (Base.multVec (Base.Matrix_of pl))
                       (Mesh.Points (cube_submesh om face)))
                _UnitCubeFaceEnum_members).
Proof.
  unfold cube_mesh; cbn [_UnitCubeFaceEnum_members fold_left map concat].
  rewrite !Points_addMesh, !Points_transform, app_nil_r, <- !app_assoc.
  reflexivity.
Qed.

Lemma length_concat_map {A B : Type} (f : A -> list B) (l : list A) :
  length (concat (map f l)) = list_sum (map (fun a => length (f a)) l).
Proof.
  induction l as [| a l IH]; [reflexivity |].
  cbn [map concat list_sum]; rewrite length_app, IH; reflexivity.
Qed.

Lemma unit_cube_cubic :
  exists self self' uv,
    __init__ (Some unit_cube) None Base.Placement0 = OK self
    /\ compute_uvmap (Some "Cubic"%string) self = (OK tt, self')
    /\ uvmap self' = Some uv
    /\ length (Points self') = 24%nat
    /\ length uv = 24%nat
    /\ nth_error (Points self') 18 = Some (Base.mkVector 500 500 500)
    /\ nth_error uv 18 = Some (Base.mkVector2d 0.5 0.5).
Proof.
  eexists; eexists; eexists.
  split; [apply init_mesh; reflexivity |].
  rewrite transform_inverse_Placement0.
  split; [apply (cube_run _ unit_cube Base.Placement0); reflexivity |].
  split; [reflexivity |].
  unfold Points; cbn [__mesh]; rewrite Points_cube_mesh; unfold cube_uvmap.
  cbn [_UnitCubeFaceEnum_members map]; rewrite !unit_cube_submesh.
  cbn [Mesh.Points map concat app length nth_error].
  repeat split; try reflexivity.
  - rewrite multVec_Placement0; reflexivity.
  - unfold cube_unfolding, Base.div; cbn [Base.x Base.y Base.z].
    do 2 f_equal; lra.
Qed.

(** ** Points of a mesh built from facets *)

Lemma add_point_In (pts : list Base.Vector) (q p : Base.Vector) :
  In p (fst (Mesh.add_point pts q)) -> In p pts \/ p = q.
Proof.
  unfold Mesh.add_point; destruct (Mesh.index_of q pts); cbn [fst].
  - auto.
  - rewrite in_app_iff; cbn; intuition.
Qed.

Lemma addFacet_In (m : Mesh.Mesh) (facet : Mesh.Facet) (p : Base.Vector) :
  In p (Mesh.Points (Mesh.addFacet m facet)) ->
  In p (Mesh.Points m) \/ facet_has_point facet p.
Proof.
  unfold Mesh.addFacet, facet_has_point.
  destruct (Mesh.Facet_Points facet) as [[p1 p2] p3].
  destruct (Mesh.add_point (Mesh.Points m) p1) as [pts1 i] eqn:E1.
  destruct (Mesh.add_point pts1 p2) as [pts2 j] eqn:E2.
  destruct (Mesh.add_point pts2 p3) as [pts3 k] eqn:E3.
  cbn [Mesh.Points]; intros H.
  pose proof (add_point_In pts2 p3 p) as H3; rewrite E3 in H3.
  pose proof (add_point_In pts1 p2 p) as H2; rewrite E2 in H2.
  pose proof (add_point_In (Mesh.Points m) p1 p) as H1; rewrite E1 in H1.
  cbn [fst] in *; intuition.
Qed.

Lemma fold_addFacet_In (facets : list Mesh.Facet) (m : Mesh.Mesh)
  (p : Base.Vector) :
  In p (Mesh.Points (fold_left Mesh.addFacet facets m)) ->
  In p (Mesh.Points m)
  \/ exists facet, In facet facets /\ facet_has_point facet p.
Proof.
  revert m; induction facets as [| facet facets IH]; intros m; cbn [fold_left].
  - auto.
  - intros H; apply IH in H as [H | (f & Hf & Hp)].
    + apply addFacet_In in H as [H | H]; [auto |].
      right; exists facet; split; [left; reflexivity | exact H].
    + right; exists f; split; [right; exact Hf | exact Hp].
Qed.

Lemma Mesh_of_In (facets : list Mesh.Facet) (p : Base.Vector) :
  In p (Mesh.Points (Mesh.Mesh_of facets)) ->
  exists facet, In facet facets /\ facet_has_point facet p.
Proof.
  intros H; apply fold_addFacet_In in H as [H | H]; [destruct H | exact H].
Qed.

(** ** Index by index *)

Lemma Forall2_map_same {A B C : Type} (P : B -> C -> Prop) (f : A -> B)
  (g : A -> C) (l : list A) :
  (forall a, In a l -> P (f a) (g a)) -> Forall2 P (map f l) (map g l).
Proof.
  induction l as [| a l IH]; intros H; cbn [map]; constructor.
  - apply H; left; reflexivity.
  - apply IH; intros b Hb; apply H; right; exact Hb.
Qed.

Lemma Forall2_concat_map {A B C : Type} (P : B -> C -> Prop)
  (f : A -> list B) (g : A -> list C) (l : list A) :
  (forall a, In a l -> Forall2 P (f a) (g a)) ->
  Forall2 P (concat (map f l)) (concat (map g l)).
Proof.
  induction l as [| a l IH]; intros H; cbn [map concat].
  - constructor.
  - apply Forall2_app.
    + apply H; left; reflexivity.
    + apply IH; intros b Hb; apply H; right; exact Hb.
Qed.

Lemma cube_aligned (om : Mesh.Mesh) (pl : Base.Placement) :
  Forall2 (cubic_uv_of om pl) (Mesh.Points (cube_mesh om pl)) (cube_uvmap om).
Proof.
  rewrite Points_cube_mesh; unfold cube_uvmap.
  apply Forall2_concat_map; intros face _.
  apply Forall2_map_same; intros p Hp.
  apply Mesh_of_In in Hp as (facet & Hf & Hp).
  unfold cube_facets in Hf; apply filter_In in Hf as [Hf Hc].
  apply face_eqb_eq in Hc; subst face.
  exists facet, p; auto.
Qed.

Lemma split_z_normal_spec (facets faces0 faces1 : list Mesh.Facet)
  (z_vector : Base.Vector) :
  split_z_normal facets z_axis = OK (faces0, faces1, z_vector) ->
  z_vector = z_axis
  /\ Permutation (faces0 ++ faces1) facets
  /\ Forall (fun facet => ~ axis_normal facet z_axis) faces0
  /\ Forall (fun facet => axis_normal facet z_axis) faces1.
Proof.
  intros H; apply (split_loop z_axis normalize_z_axis) in H.
  destruct H as (Hz & r0 & r1 & -> & -> & Hperm & H0 & H1); auto.
Qed.

Lemma cyl_aligned (om : Mesh.Mesh) (pl : Base.Placement)
  (faces0 faces1 : list Mesh.Facet) (z_vector : Base.Vector) :
  split_z_normal (Mesh.Facets om) z_axis = OK (faces0, faces1, z_vector) ->
  Forall2 (cylindric_uv_of om pl
             (avg_radius (Mesh.Points (Mesh.Mesh_of faces0))))
          (Mesh.Points (cyl_mesh pl faces0 faces1))
          (cyl_uvmap faces0 faces1).
Proof.
  intros H; apply split_z_normal_spec in H as (_ & Hperm & H0 & H1).
  unfold cyl_mesh, cyl_uvmap.
  rewrite !Points_addMesh, !Points_transform; cbn [Mesh.Points Mesh.Mesh0 app].
  rewrite Forall_forall in H0, H1.
  apply Forall2_app; apply Forall2_map_same; intros p Hp;
    apply Mesh_of_In in Hp as (facet & Hf & Hp); exists facet, p;
    (split; [apply (Permutation_in _ Hperm), in_or_app; auto |]); auto 6.
Qed.

Lemma sphere_aligned (mesh : Mesh.Mesh) (pl : Base.Placement) :
  let om := Mesh.transform (Base.Matrix_of (Base.inverse pl)) mesh in
  Forall2 (spherical_uv_of om pl) (Mesh.Points mesh)
          (map (sphere_uv (_compute_barycenter (Mesh.Points om)))
               (Mesh.Points om)).
Proof.
  intros om; unfold om at 3; rewrite Points_transform, map_map.
  rewrite <- (map_id (Mesh.Points mesh)) at 1.
  apply Forall2_map_same; intros P _; reflexivity.
Qed.


(** C3.  The cubic strategy succeeds on every object built from a mesh; the
    UV map lists, for the faces +X, -X, +Y, -Y, +Z, -Z in this order, the
    points of the face's sub-mesh, each divided by 1000 and unfolded by the
    table +X -> (y, z), -X -> (-y, z), +Y -> (-x, z), -Y -> (x, z),
    +Z -> (x, y), -Z -> (x, -y); the merged mesh lists the same points in
    the same order, each moved by the placement, so that the point count is
    the sum of the six sub-mesh counts (nothing is shared between faces).
    On the cube of edge 1000 the result has 24 points, and the corner
    (500, 500, 500) of the +Z face receives the UV (0.5, 0.5). *)
Theorem cubic_strategy_spec :
  (forall (self : RenderingMesh) (om : Mesh.Mesh) (pl : Base.Placement),
      __originalmesh self = Some om ->
      __originalplacement self = Some pl ->
      let faces := [XPLUS; XMINUS; YPLUS; YMINUS; ZPLUS; ZMINUS] in
      exists self',
        compute_uvmap (Some "Cubic"%string) self = (OK tt, self')
        /\ uvmap self'
           = Some (concat
                     (map (fun face =>
                             map (fun p =>
                                    cube_unfolding face (Base.div p 1000))
                                 (Mesh.Points (cube_submesh om face)))
                          faces))
        /\ Points self'
           = concat (map (fun face =>
                            map (Base.multVec (Base.Matrix_of pl))
                                (Mesh.Points (cube_submesh om face)))
                         faces)
        /\ length (Points self')
           = list_sum (map (fun face =>
                              length (Mesh.Points (cube_submesh om face)))
                           faces))
  /\ (forall p face,
         _compute_uv_from_unitcube p face = cube_unfolding face p)
  /\ _compute_uv_from_unitcube
       (Base.div (Base.mkVector 500 500 500) 1000) ZPLUS
     = Base.mkVector2d 0.5 0.5
  /\ (exists self self' uv,
         __init__ (Some unit_cube) None Base.Placement0 = OK self
         /\ compute_uvmap (Some "Cubic"%string) self = (OK tt, self')
         /\ uvmap self' = Some uv
         /\ length (Points self') = 24%nat
         /\ length uv = 24%nat
         /\ nth_error (Points self') 18 = Some (Base.mkVector 500 500 500)
         /\ nth_error uv 18 = Some (Base.mkVector2d 0.5 0.5)).
Proof.
  split; [| split; [exact compute_uv_from_unitcube_table | split]].
  - intros self om pl Hom Hpl faces; eexists.
    split; [apply (cube_run self om pl Hom Hpl) |].
    split; [reflexivity |].
    unfold Points; cbn [__mesh]; rewrite Points_cube_mesh.
    split; [reflexivity |].
    rewrite length_concat_map; apply f_equal, map_ext; intros face.
    apply length_map.
  - unfold _compute_uv_from_unitcube, Base.div; cbn; f_equal; lra.
  - exact unit_cube_cubic.
Qed.

Lemma cubic_strategy_spec_witness :
  exists self',
    compute_uvmap (Some "Cubic"%string)
      (mkRenderingMesh corner_mesh (Some corner_mesh)
                       (Some Base.Placement0) None)
    = (OK tt, self')
    /\ length (Points self') = 6%nat.
Proof.
  destruct (proj1 cubic_strategy_spec
              (mkRenderingMesh corner_mesh (Some corner_mesh)
                               (Some Base.Placement0) None)
              corner_mesh Base.Placement0 eq_refl eq_refl)
    as (self' & Hrun & _ & _ & Hlen).
  exists self'; split; [exact Hrun |].
  rewrite Hlen; cbn [map]; rewrite !corner_mesh_cube_submesh; reflexivity.
Defined.

(** ** Evaluating the cylindric split *)

Lemma isclose_zero_b (a : R) :
  math.isclose a 0 math.rel_tol_default 1e-5 = Rleb (Rabs a) 1e-5.
Proof.
  destruct (Rleb (Rabs a) 1e-5) eqn:E.
  - apply isclose_zero, Rleb_true, E.
  - destruct (math.isclose a 0 math.rel_tol_default 1e-5) eqn:E'; [| reflexivity].
    apply isclose_zero, Rleb_true in E'; congruence.
Qed.

Lemma normalize_eval (v : Base.Vector) (l : R) :
  0 < l -> l * l = Base.dot v v -> Base.normalize v = OK (Base.div v l).
Proof.
  intros Hl Hsq; unfold Base.normalize.
  rewrite (Length_eq v l) by lra.
  rewrite (proj2 (Reqb_false l 0)) by lra; reflexivity.
Qed.

Lemma dot_div_z_axis (v : Base.Vector) (l : R) :
  Base.dot (Base.div v l) z_axis = Base.z v / l.
Proof.
  unfold Base.dot, Base.div, z_axis; cbn [Base.x Base.y Base.z]; lra.
Qed.

Lemma is_facet_normal_z (p1 p2 p3 : Base.Vector) (l1 l2 : R) :
  0 < l1 -> l1 * l1 = Base.dot (Base.sub p2 p1) (Base.sub p2 p1) ->
  0 < l2 -> l2 * l2 = Base.dot (Base.sub p3 p1) (Base.sub p3 p1) ->
  _is_facet_normal_to_vector (Mesh.mkFacet (p1, p2, p3)) z_axis
  = OK (Rleb (Rabs (Base.z (Base.sub p2 p1) / l1)) 1e-5
        && Rleb (Rabs (Base.z (Base.sub p3 p1) / l2)) 1e-5, z_axis).
Proof.
  intros Hl1 Hs1 Hl2 Hs2; unfold _is_facet_normal_to_vector.
  cbn [Mesh.Facet_Points].
  rewrite (normalize_eval _ l1 Hl1 Hs1), (normalize_eval _ l2 Hl2 Hs2).
  rewrite normalize_z_axis; cbn [rbind].
  rewrite !isclose_zero_b, !dot_div_z_axis; reflexivity.
Qed.

Lemma corner_mesh_split :
  split_z_normal (Mesh.Facets corner_mesh) z_axis
  = OK ([Mesh.mkFacet (Base.mkVector 0 0 0, Base.mkVector 1 0 0,
                       Base.mkVector 0 0 1)],
        [Mesh.mkFacet (Base.mkVector 0 0 0, Base.mkVector 1 0 0,
                       Base.mkVector 0 1 0)],
        z_axis).
Proof.
  rewrite corner_mesh_Facets; unfold split_z_normal; cbn [foldM].
  rewrite (is_facet_normal_z _ _ _ 1 1)
    by (unfold Base.dot, Base.sub; cbn [Base.x Base.y Base.z]; lra).
  cbn [Base.sub Base.x Base.y Base.z]; r_eval; cbn [andb rbind].
  rewrite (is_facet_normal_z _ _ _ 1 1)
    by (unfold Base.dot, Base.sub; cbn [Base.x Base.y Base.z]; lra).
  cbn [Base.sub Base.x Base.y Base.z]; r_eval; cbn [andb rbind app].
  reflexivity.
Qed.

(** ** The split never fails on proper facets *)

Lemma Length_zero (v : Base.Vector) :
  Base.Length v = 0 -> v = Base.mkVector 0 0 0.
Proof.
  intros H; pose proof (Length_sqr v) as Hsq; rewrite H in Hsq.
  destruct v as [a b c]; unfold Base.dot in Hsq; cbn in Hsq.
  f_equal; nra.
Qed.

Lemma normalize_sub_ok (p q : Base.Vector) :
  p <> q -> exists e, Base.normalize (Base.sub p q) = OK e.
Proof.
  intros Hne; unfold Base.normalize.
  destruct (Reqb (Base.Length (Base.sub p q)) 0) eqn:E; [| eauto].
  apply Reqb_true, Length_zero in E; exfalso; apply Hne.
  destruct p, q; unfold Base.sub in E; cbn in E; inversion E; f_equal; lra.
Qed.

Lemma is_facet_normal_total (facet : Mesh.Facet) :
  proper_facet facet ->
  exists res, _is_facet_normal_to_vector facet z_axis = OK (res, z_axis).
Proof.
  unfold proper_facet, _is_facet_normal_to_vector.
  destruct (Mesh.Facet_Points facet) as [[p1 p2] p3]; intros [H2 H3].
  destruct (normalize_sub_ok p2 p1 H2) as [e1 ->].
  destruct (normalize_sub_ok p3 p1 H3) as [e2 ->].
  rewrite normalize_z_axis; cbn [rbind]; eauto.
Qed.

Lemma split_total (facets acc0 acc1 : list Mesh.Facet) :
  Forall proper_facet facets ->
  exists faces0 faces1,
    foldM (fun '(faces0, faces1, z_vector) facet =>
             let* (res, z_vector) :=
               _is_facet_normal_to_vector facet z_vector in
             if res then OK (faces0, faces1 ++ [facet], z_vector)
             else OK (faces0 ++ [facet], faces1, z_vector))
          facets (acc0, acc1, z_axis)
    = OK (faces0, faces1, z_axis).
Proof.
  intros H; revert acc0 acc1; induction H as [| facet facets Hf _ IH];
    intros acc0 acc1; cbn [foldM].
  - eauto.
  - destruct (is_facet_normal_total facet Hf) as [res ->]; cbn [rbind].
    destruct res; apply IH.
Qed.

(** C5.  The splitting loop of the cylindric strategy puts every facet in
    exactly one of the two lists: together the lists are a rearrangement of
    the facets (so their sizes add up to the facet count), the second list
    holds exactly the facets that are normal to the Z axis and the first
    exactly those that are not.  A facet is normal to an axis exactly when,
    with the edge vectors p2 - p1 and p3 - p1 and the axis normalized, both
    dot products are within 1e-5 of zero.  The loop ends normally whenever
    no facet has a null edge vector. *)
Theorem cylinder_partition_spec :
  (forall facets faces0 faces1 z_vector,
      split_z_normal facets (Base.mkVector 0 0 1)
      = OK (faces0, faces1, z_vector) ->
      (length faces0 + length faces1 = length facets)%nat
      /\ Permutation (faces0 ++ faces1) facets
      /\ (forall facet,
             In facet facets ->
             (In facet faces1 <-> axis_normal facet (Base.mkVector 0 0 1))
             /\ (In facet faces0 <->
                 ~ axis_normal facet (Base.mkVector 0 0 1))))
  /\ (forall facet vector vector' res,
         _is_facet_normal_to_vector facet vector = OK (res, vector') ->
         (res = true <-> axis_normal facet vector))
  /\ (forall facets,
         Forall proper_facet facets ->
         exists faces0 faces1 z_vector,
           split_z_normal facets (Base.mkVector 0 0 1)
           = OK (faces0, faces1, z_vector)).
Proof.
  fold z_axis; split; [| split].
  - intros facets f0 f1 zv H.
    apply split_z_normal_spec in H as (_ & Hperm & H0 & H1).
    rewrite Forall_forall in H0, H1.
    split; [rewrite <- length_app; apply Permutation_length, Hperm |].
    split; [exact Hperm |].
    intros facet Hin.
    apply (Permutation_in _ (Permutation_sym Hperm)), in_app_or in Hin.
    split; split; intros H; auto.
    + destruct Hin as [Hin | Hin]; [| exact Hin].
      exfalso; exact (H0 _ Hin H).
    + destruct Hin as [Hin | Hin]; [exact Hin |].
      exfalso; exact (H (H1 _ Hin)).
  - intros facet v v' res H.
    apply (is_facet_normal_to_vector_spec facet v v' res H).
  - intros facets H.
    destruct (split_total facets [] [] H) as (f0 & f1 & Hs); eauto.
Qed.

Lemma cylinder_partition_spec_witness :
  split_z_normal (Mesh.Facets corner_mesh) (Base.mkVector 0 0 1)
  = OK ([Mesh.mkFacet (Base.mkVector 0 0 0, Base.mkVector 1 0 0,
                       Base.mkVector 0 0 1)],
        [Mesh.mkFacet (Base.mkVector 0 0 0, Base.mkVector 1 0 0,
                       Base.mkVector 0 1 0)],
        Base.mkVector 0 0 1)
  /\ (1 + 1 = length (Mesh.Facets corner_mesh))%nat.
Proof.
  split; [exact corner_mesh_split |].
  exact (proj1 (proj1 cylinder_partition_spec _ _ _ _ corner_mesh_split)).
Defined.

(** C4.  In the cylindric strategy, with [avgRadius] the arithmetic mean of
    [hypot (x, y)] over the points of the regular sub-mesh (the facets that
    are not normal to the Z axis), every regular point receives the UV
    [(atan2 (x, y) * avgRadius, z) * 0.001] and every point of the
    axis-normal sub-mesh the UV [(x / 1000, y / 1000)]; both sub-meshes are
    moved by the original placement and merged, the regular one first.
    The call returns exactly when the split succeeds and the regular
    sub-mesh has a point. *)
Theorem cylindric_strategy_spec (self : RenderingMesh) (om : Mesh.Mesh)
  (pl : Base.Placement) :
  __originalmesh self = Some om ->
  __originalplacement self = Some pl ->
  let result := fun (faces0 faces1 : list Mesh.Facet) self' =>
    let regular := Mesh.Points (Mesh.Mesh_of faces0) in
    let caps := Mesh.Points (Mesh.Mesh_of faces1) in
    let avgRadius :=
      Rsum (map (fun p => math.hypot (Base.x p) (Base.y p)) regular)
      / INR (length regular) in
    uvmap self'
    = Some (map (fun p =>
                   Base.mkVector2d
                     (math.atan2 (Base.x p) (Base.y p) * avgRadius * 0.001)
                     (Base.z p * 0.001))
                regular
            ++ map (fun p =>
                      Base.mkVector2d (Base.x p / 1000) (Base.y p / 1000))
                   caps)
    /\ Points self'
       = map (Base.multVec (Base.Matrix_of pl)) regular
         ++ map (Base.multVec (Base.Matrix_of pl)) caps
    /\ __mesh self'
       = Mesh.addMesh
           (Mesh.addMesh Mesh.Mesh0
              (Mesh.transform (Base.Matrix_of pl) (Mesh.Mesh_of faces0)))
           (Mesh.transform (Base.Matrix_of pl) (Mesh.Mesh_of faces1))
    /\ Forall (fun facet => ~ axis_normal facet (Base.mkVector 0 0 1)) faces0
    /\ Forall (fun facet => axis_normal facet (Base.mkVector 0 0 1)) faces1 in
  (forall faces0 faces1 z_vector,
      split_z_normal (Mesh.Facets om) (Base.mkVector 0 0 1)
      = OK (faces0, faces1, z_vector) ->
      Mesh.Points (Mesh.Mesh_of faces0) <> [] ->
      exists self',
        compute_uvmap (Some "Cylindric"%string) self = (OK tt, self')
        /\ result faces0 faces1 self')
  /\ (forall self',
         compute_uvmap (Some "Cylindric"%string) self = (OK tt, self') ->
         exists faces0 faces1 z_vector,
           split_z_normal (Mesh.Facets om) (Base.mkVector 0 0 1)
           = OK (faces0, faces1, z_vector)
           /\ Mesh.Points (Mesh.Mesh_of faces0) <> []
           /\ result faces0 faces1 self').
Proof.
  fold z_axis; intros Hom Hpl result.
  assert (Hres : forall faces0 faces1 z_vector,
             split_z_normal (Mesh.Facets om) z_axis
             = OK (faces0, faces1, z_vector) ->
             result faces0 faces1
               (mkRenderingMesh (cyl_mesh pl faces0 faces1) (Some om)
                                (Some pl) (Some (cyl_uvmap faces0 faces1)))).
  { intros f0 f1 zv Hsplit.
    apply split_z_normal_spec in Hsplit as (_ & _ & H0 & H1).
    unfold result; repeat split; auto. }
  change (compute_uvmap (Some "Cylindric"%string) self)
    with (_compute_uvmap_cylinder self).
  rewrite (cylinder_run self om pl Hom Hpl); split.
  - intros f0 f1 zv Hsplit Hne; rewrite Hsplit.
    rewrite (proj2 (Reqb_false _ 0)); [eauto |].
    apply not_0_INR; destruct (Mesh.Points (Mesh.Mesh_of f0));
      [congruence | discriminate].
  - intros self'.
    destruct (split_z_normal (Mesh.Facets om) z_axis)
      as [[[f0 f1] zv] |] eqn:Hsplit; [| discriminate].
    destruct (Reqb _ 0) eqn:E; [discriminate |].
    intros H; inversion H; subst self'; exists f0, f1, zv.
    split; [reflexivity |]; split; [| eauto].
    intros Hnil; rewrite Hnil in E; cbn in E.
    apply Reqb_false in E; auto.
Qed.

Lemma corner_mesh_regular :
  Mesh.Mesh_of [Mesh.mkFacet (Base.mkVector 0 0 0, Base.mkVector 1 0 0,
                              Base.mkVector 0 0 1)]
  = Mesh.mkMesh [Base.mkVector 0 0 0; Base.mkVector 1 0 0;
                 Base.mkVector 0 0 1] [(0, 1, 2)%nat] Base.Placement0.
Proof. mesh_eval; reflexivity. Qed.

Lemma cylindric_strategy_spec_witness :
  exists self',
    compute_uvmap (Some "Cylindric"%string)
      (mkRenderingMesh corner_mesh (Some corner_mesh)
                       (Some Base.Placement0) None)
    = (OK tt, self')
    /\ length (Points self') = 6%nat.
Proof.
  assert (Hne : Mesh.Points
                  (Mesh.Mesh_of
                     [Mesh.mkFacet (Base.mkVector 0 0 0, Base.mkVector 1 0 0,
                                    Base.mkVector 0 0 1)]) <> [])
    by (rewrite corner_mesh_regular; discriminate).
  destruct (proj1 (cylindric_strategy_spec
                     (mkRenderingMesh corner_mesh (Some corner_mesh)
                                      (Some Base.Placement0) None)
                     corner_mesh Base.Placement0 eq_refl eq_refl)
              _ _ _ corner_mesh_split Hne)
    as (self' & Hrun & _ & Hpts & _).
  exists self'; split; [exact Hrun |].
  rewrite Hpts, corner_mesh_regular; mesh_eval; reflexivity.
Defined.

(** C6.  In the spherical strategy, when every point [p] of the unplaced
    mesh is at a distance [|v| > 0] of the barycenter ([v = p - barycenter]),
    the call succeeds and the UV of [p] is
    [(0.5 + atan2 (v.x, v.y) / (2 pi), 0.5 + asin (v.z / |v|) / pi)], both
    components multiplied by [(|v| / 1000) * pi]; a call that returns has
    found every point so.  The barycenter is the arithmetic mean of the
    points, and the origin when there is none. *)
Theorem spherical_strategy_spec :
  (forall (self : RenderingMesh) (om : Mesh.Mesh),
      __originalmesh self = Some om ->
      let barycenter := _compute_barycenter (Mesh.Points om) in
      let uv_of := fun p =>
        let v := Base.sub p barycenter in
        Base.mkVector2d
          ((0.5 + math.atan2 (Base.x v) (Base.y v) / (2 * PI))
           * (Base.Length v / 1000 * PI))
          ((0.5 + Ratan.asin (Base.z v / Base.Length v) / PI)
           * (Base.Length v / 1000 * PI)) in
      ((forall p, In p (Mesh.Points om) ->
                  Base.Length (Base.sub p barycenter) > 0) ->
       exists self',
         compute_uvmap (Some "Spherical"%string) self = (OK tt, self')
         /\ uvmap self' = Some (map uv_of (Mesh.Points om)))
      /\ (forall self',
             compute_uvmap (Some "Spherical"%string) self = (OK tt, self') ->
             uvmap self' = Some (map uv_of (Mesh.Points om))
             /\ forall p, In p (Mesh.Points om) ->
                          Base.Length (Base.sub p barycenter) > 0))
  /\ _compute_barycenter [] = Base.mkVector 0 0 0
  /\ (forall points,
         points <> [] ->
         _compute_barycenter points
         = Base.mkVector
             (Rsum (map Base.x points) / INR (length points))
             (Rsum (map Base.y points) / INR (length points))
             (Rsum (map Base.z points) / INR (length points))).
Proof.
  split; [| split; [reflexivity | exact compute_barycenter_mean]].
  intros self om Hom barycenter uv_of.
  change (compute_uvmap (Some "Spherical"%string) self)
    with (_compute_uvmap_sphere self).
  rewrite (sphere_run self om Hom); fold barycenter; split.
  - intros Hpos; rewrite (proj2 (forallb_forall _ _)); [eauto |].
    intros p Hp; apply negb_true_iff, Reqb_false.
    specialize (Hpos p Hp); lra.
  - intros self'; destruct (forallb _ _) eqn:E; [| discriminate].
    intros H; inversion H; subst self'; split; [reflexivity |].
    intros p Hp; rewrite forallb_forall in E; specialize (E p Hp).
    apply negb_true_iff, Reqb_false in E.
    pose proof (Length_nonneg (Base.sub p barycenter)); lra.
Qed.

Lemma Length_pos (v : Base.Vector) : 0 < Base.dot v v -> Base.Length v > 0.
Proof. intros H; apply Rlt_gt, sqrt_lt_R0, H. Qed.

Lemma corner_mesh_barycenter :
  _compute_barycenter (Mesh.Points corner_mesh)
  = Base.mkVector (1 / 4) (1 / 4) (1 / 4).
Proof.
  rewrite compute_barycenter_mean by discriminate.
  unfold mean_position, Rsum; cbn; f_equal; lra.
Qed.

Lemma spherical_strategy_spec_witness :
  exists self',
    compute_uvmap (Some "Spherical"%string)
      (mkRenderingMesh corner_mesh (Some corner_mesh)
                       (Some Base.Placement0) None)
    = (OK tt, self')
    /\ has_uvmap self' = true.
Proof.
  assert (Hpos : forall p,
             In p (Mesh.Points corner_mesh) ->
             Base.Length
               (Base.sub p (_compute_barycenter (Mesh.Points corner_mesh)))
             > 0).
  { rewrite corner_mesh_barycenter; intros p Hp; apply Length_pos.
    cbn in Hp; decompose [or] Hp; subst; try contradiction;
      unfold Base.dot, Base.sub; cbn; lra. }
  destruct (proj1 (proj1 spherical_strategy_spec
                     (mkRenderingMesh corner_mesh (Some corner_mesh)
                                      (Some Base.Placement0) None)
                     corner_mesh eq_refl) Hpos)
    as (self' & Hrun & Huv).
  exists self'; split; [exact Hrun |].
  unfold has_uvmap; unfold uvmap in Huv; rewrite Huv; reflexivity.
Defined.

(** ** What the strategies do to the mesh *)

Lemma sphere_frame (self self' : RenderingMesh) (r : result unit) :
  _compute_uvmap_sphere self = (r, self') ->
  __mesh self' = __mesh self
  /\ __originalmesh self' = __originalmesh self
  /\ __originalplacement self' = __originalplacement self.
Proof.
  destruct (__originalmesh self) as [om |] eqn:Hom.
  - rewrite (sphere_run self om Hom).
    destruct (forallb _ _); intros H; inversion H; subst; cbn; auto.
  - unfold _compute_uvmap_sphere, bind, get_originalmesh; rewrite Hom.
    intros H; inversion H; subst; auto.
Qed.

(** C8.  The spherical strategy leaves the mesh of the object as it is, same
    points and same topology, whether it succeeds or raises: it writes the
    UV map only, and the placement is not applied.  The cubic and the
    cylindric strategies replace the mesh by the merge of their sub-meshes,
    each moved by the original placement. *)
Theorem spherical_keeps_mesh :
  (forall self r self',
      compute_uvmap (Some "Spherical"%string) self = (r, self') ->
      __mesh self' = __mesh self
      /\ Points self' = Points self
      /\ Topology self' = Topology self
      /\ __originalmesh self' = __originalmesh self
      /\ __originalplacement self' = __originalplacement self)
  /\ (forall self om pl self',
         __originalmesh self = Some om ->
         __originalplacement self = Some pl ->
         compute_uvmap (Some "Cubic"%string) self = (OK tt, self') ->
         __mesh self' = cube_mesh om pl)
  /\ (forall self om pl self',
         __originalmesh self = Some om ->
         __originalplacement self = Some pl ->
         compute_uvmap (Some "Cylindric"%string) self = (OK tt, self') ->
         exists faces0 faces1, __mesh self' = cyl_mesh pl faces0 faces1).
Proof.
  split; [| split].
  - intros self r self' H.
    change (compute_uvmap (Some "Spherical"%string) self)
      with (_compute_uvmap_sphere self) in H.
    apply sphere_frame in H as (Hm & Ho & Hp).
    unfold Points, Topology; rewrite Hm; auto.
  - intros self om pl self' Hom Hpl H.
    change (compute_uvmap (Some "Cubic"%string) self)
      with (_compute_uvmap_cube self) in H.
    rewrite (cube_run self om pl Hom Hpl) in H; inversion H; reflexivity.
  - intros self om pl self' Hom Hpl H.
    change (compute_uvmap (Some "Cylindric"%string) self)
      with (_compute_uvmap_cylinder self) in H.
    rewrite (cylinder_run self om pl Hom Hpl) in H.
    destruct (split_z_normal _ _) as [[[f0 f1] zv] |]; [| discriminate].
    destruct (Reqb _ 0); [discriminate |].
    inversion H; exists f0, f1; reflexivity.
Qed.

Lemma spherical_keeps_mesh_witness :
  let self := mkRenderingMesh corner_mesh (Some corner_mesh)
                (Some Base.Placement0) None in
  __mesh (snd (compute_uvmap (Some "Spherical"%string) self))
  = corner_mesh.
Proof.
  intros self.
  exact (proj1 (proj1 spherical_keeps_mesh self _ _
                  (surjective_pairing
                     (compute_uvmap (Some "Spherical"%string) self)))).
Defined.

(** ** Failing calls *)

Lemma cap_mesh_cylindric :
  compute_uvmap (Some "Cylindric"%string)
    (mkRenderingMesh cap_mesh (Some cap_mesh) (Some Base.Placement0) None)
  = (Raise ZeroDivisionError,
     mkRenderingMesh cap_mesh (Some cap_mesh) (Some Base.Placement0) None).
Proof.
  change (compute_uvmap (Some "Cylindric"%string))
    with _compute_uvmap_cylinder.
  rewrite (cylinder_run _ cap_mesh Base.Placement0) by reflexivity.
  unfold split_z_normal;
    cbn [cap_mesh Mesh.Facets Mesh.Faces Mesh.Points map nth foldM].
  rewrite (is_facet_normal_z _ _ _ 1 1)
    by (unfold Base.dot, Base.sub; cbn [Base.x Base.y Base.z]; lra).
  cbn [Base.sub Base.x Base.y Base.z]; r_eval; cbn [andb rbind app].
  cbn [Mesh.Mesh_of fold_left Mesh.Mesh0 Mesh.Points length INR].
  r_eval; reflexivity.
Qed.

Lemma collapsed_mesh_spherical :
  compute_uvmap (Some "Spherical"%string)
    (mkRenderingMesh collapsed_mesh (Some collapsed_mesh)
                     (Some Base.Placement0) None)
  = (Raise ZeroDivisionError,
     mkRenderingMesh collapsed_mesh (Some collapsed_mesh)
                     (Some Base.Placement0) None).
Proof.
  change (compute_uvmap (Some "Spherical"%string))
    with _compute_uvmap_sphere.
  rewrite (sphere_run _ collapsed_mesh) by reflexivity.
  cbn [collapsed_mesh Mesh.Points forallb].
  rewrite (Length_eq _ 0); [r_eval; reflexivity | lra |].
  unfold _compute_barycenter, Base.dot, Base.sub, Base.div, Base.add;
    cbn; lra.
Qed.

Lemma compute_uvmap_failure_keeps_object_witness :
  let cap := mkRenderingMesh cap_mesh (Some cap_mesh)
               (Some Base.Placement0) None in
  let collapsed := mkRenderingMesh collapsed_mesh (Some collapsed_mesh)
                     (Some Base.Placement0) None in
  (compute_uvmap (Some "Cylindric"%string) cap
   = (Raise ZeroDivisionError, cap)
   /\ __mesh cap = cap_mesh)
  /\ (compute_uvmap (Some "Spherical"%string) collapsed
      = (Raise ZeroDivisionError, collapsed)
      /\ __uvmap collapsed = None).
Proof.
  intros cap collapsed; split; split.
  - exact cap_mesh_cylindric.
  - exact (proj1 (proj2 (compute_uvmap_failure_keeps_object _ _ _ _
                           cap_mesh_cylindric))).
  - exact collapsed_mesh_spherical.
  - exact (proj2 (proj2 (compute_uvmap_failure_keeps_object _ _ _ _
                           collapsed_mesh_spherical))).
Defined.

(** ** Copies *)

Lemma init_Placement0 (mesh : Mesh.Mesh) (uv : option (list Base.Vector2d)) :
  Mesh.Placement mesh = Base.Placement0 ->
  __init__ (Some mesh) uv Base.Placement0
  = OK (mkRenderingMesh mesh (Some mesh) (Some Base.Placement0) uv).
Proof.
  intros H; rewrite (init_mesh mesh uv _ H), transform_inverse_Placement0.
  reflexivity.
Qed.

Lemma init_Placement (mesh : option Mesh.Mesh)
  (uv : option (list Base.Vector2d)) (pl : Base.Placement)
  (self : RenderingMesh) :
  __init__ mesh uv pl = OK self ->
  Mesh.Placement (__mesh self) = Base.Placement0 /\ __uvmap self = uv.
Proof.
  unfold __init__; destruct mesh as [m |].
  - unfold Base.Placement_eqb.
    destruct (Base.Placement_eq_dec _ _) as [E | E]; [| discriminate].
    intros H; inversion H; auto.
  - intros H; inversion H; auto.
Qed.

Lemma copy_spec (mesh : option Mesh.Mesh) (uv : option (list Base.Vector2d))
  (pl : Base.Placement) (self : RenderingMesh) :
  __init__ mesh uv pl = OK self ->
  copy self
  = OK (mkRenderingMesh (__mesh self) (Some (__mesh self))
                        (Some Base.Placement0) (__uvmap self)).
Proof.
  intros H; apply init_Placement in H as [H _]; unfold copy, Mesh.copy.
  apply init_Placement0, H.
Qed.

Ltac placed_eq :=
  cbv [Mesh.transform Mesh.addMesh Mesh.Points Mesh.Faces Mesh.Placement
       Mesh.Mesh0 map app length Nat.add Base.multVec Base.Matrix_of
       Base.inverse Base.dot Base.Position Base.Row1 Base.Row2 Base.Row3
       Base.x Base.y Base.z Base.A11 Base.A12 Base.A13 Base.A14 Base.A21
       Base.A22 Base.A23 Base.A24 Base.A31 Base.A32 Base.A33 Base.A34
       lift_z turn_x raised_cap cap_mesh corner_mesh turned_corner
       Base.Placement0];
  repeat (f_equal; try lra).

Lemma raised_cap_unplaced :
  Mesh.transform (Base.Matrix_of (Base.inverse lift_z)) raised_cap = cap_mesh.
Proof. placed_eq. Qed.

Lemma turned_corner_unplaced :
  Mesh.transform (Base.Matrix_of (Base.inverse turn_x)) turned_corner
  = corner_mesh.
Proof. placed_eq. Qed.

(** ** A copy and its original under [compute_uvmap] *)

Lemma cap_mesh_cube_submesh (face : _UnitCubeFaceEnum) :
  cube_submesh cap_mesh face
  = match face with
    | ZPLUS => cap_mesh
    | _ => Mesh.Mesh0
    end.
Proof.
  unfold cube_submesh, cube_facets.
  cbn [cap_mesh Mesh.Facets Mesh.Faces Mesh.Points map nth filter].
  replace (_intersect_unitcube_face _) with ZPLUS by (symmetry; classify_eval).
  destruct face; cbn [face_eqb]; try reflexivity; mesh_eval; reflexivity.
Qed.

Lemma raised_cap_cube_submesh (face : _UnitCubeFaceEnum) :
  cube_submesh raised_cap face
  = match face with
    | ZPLUS => raised_cap
    | _ => Mesh.Mesh0
    end.
Proof.
  unfold cube_submesh, cube_facets.
  cbn [raised_cap Mesh.Facets Mesh.Faces Mesh.Points map nth filter].
  replace (_intersect_unitcube_face _) with ZPLUS by (symmetry; classify_eval).
  destruct face; cbn [face_eqb]; try reflexivity; mesh_eval; reflexivity.
Qed.

Lemma turned_corner_cube_submesh (face : _UnitCubeFaceEnum) :
  cube_submesh turned_corner face
  = match face with
    | YMINUS =>
        Mesh.mkMesh [Base.mkVector 1000 0 0; Base.mkVector 1001 0 0;
                     Base.mkVector 1000 0 1] [(0, 1, 2)%nat] Base.Placement0
    | ZMINUS =>
        Mesh.mkMesh [Base.mkVector 1000 0 0; Base.mkVector 1001 0 0;
                     Base.mkVector 1000 (-1) 0] [(0, 1, 2)%nat] Base.Placement0
    | _ => Mesh.Mesh0
    end.
Proof.
  unfold cube_submesh, cube_facets.
  cbn [turned_corner Mesh.Facets Mesh.Faces Mesh.Points map nth filter].
  replace (_intersect_unitcube_face
             (Mesh.Facet_Normal
                (Mesh.mkFacet (Base.mkVector 1000 0 0, Base.mkVector 1001 0 0,
                               Base.mkVector 1000 0 1))))
    with YMINUS by (symmetry; classify_eval).
  replace (_intersect_unitcube_face _) with ZMINUS by (symmetry; classify_eval).
  destruct face; cbn [face_eqb]; try reflexivity; mesh_eval; reflexivity.
Qed.

Lemma lift_z_not_Placement0 : lift_z <> Base.Placement0.
Proof. intros H; injection H; intros; lra. Qed.

Lemma turn_x_not_Placement0 : turn_x <> Base.Placement0.
Proof. intros H; injection H; intros; lra. Qed.

(** C10, as it is written, fails: a cap translated along its own normal
    gets the same mesh and the same UV map from the cubic strategy whether
    the strategy runs on the object or on its copy. *)
Lemma copy_cubic_same_result :
  lift_z <> Base.Placement0
  /\ exists self c r r',
      __init__ (Some raised_cap) None lift_z = OK self
      /\ copy self = OK c
      /\ compute_uvmap (Some "Cubic"%string) self = (OK tt, r)
      /\ compute_uvmap (Some "Cubic"%string) c = (OK tt, r')
      /\ __mesh r' = __mesh r
      /\ __uvmap r' = __uvmap r.
Proof.
  split; [exact lift_z_not_Placement0 |].
  assert (Hinit : __init__ (Some raised_cap) None lift_z
                  = OK (mkRenderingMesh raised_cap (Some cap_mesh)
                                        (Some lift_z) None)).
  { rewrite init_mesh by reflexivity; rewrite raised_cap_unplaced.
    reflexivity. }
  eexists; eexists; eexists; eexists.
  split; [exact Hinit |].
  split; [apply (copy_spec _ _ _ _ Hinit) |].
  split; [apply (cube_run _ cap_mesh lift_z); reflexivity |].
  split; [apply (cube_run _ raised_cap Base.Placement0); reflexivity |].
  cbn [__mesh __uvmap]; unfold cube_mesh, cube_uvmap.
  cbn [_UnitCubeFaceEnum_members map fold_left concat].
  rewrite !cap_mesh_cube_submesh, !raised_cap_cube_submesh.
  split; [placed_eq | reflexivity].
Qed.

Lemma turned_corner_init :
  __init__ (Some turned_corner) None turn_x
  = OK (mkRenderingMesh turned_corner (Some corner_mesh) (Some turn_x) None).
Proof.
  rewrite init_mesh by reflexivity; rewrite turned_corner_unplaced.
  reflexivity.
Qed.

Lemma nth_error_differ {A : Type} (l l' : list A) (n : nat) :
  nth_error l n <> nth_error l' n -> l <> l'.
Proof. intros H E; apply H; rewrite E; reflexivity. Qed.

(** The cubic strategy on [turned_corner] and on its copy. *)
Lemma copy_cubic_differs :
  exists self c r r',
    __init__ (Some turned_corner) None turn_x = OK self
    /\ copy self = OK c
    /\ compute_uvmap (Some "Cubic"%string) self = (OK tt, r)
    /\ compute_uvmap (Some "Cubic"%string) c = (OK tt, r')
    /\ Points r' <> Points r
    /\ uvmap r' <> uvmap r.
Proof.
  eexists; eexists; eexists; eexists.
  split; [exact turned_corner_init |].
  split; [apply (copy_spec _ _ _ _ turned_corner_init) |].
  split; [apply (cube_run _ corner_mesh turn_x); reflexivity |].
  split; [apply (cube_run _ turned_corner Base.Placement0); reflexivity |].
  unfold Points, uvmap; cbn [__mesh __uvmap]; unfold cube_mesh, cube_uvmap.
  cbn [_UnitCubeFaceEnum_members map fold_left concat].
  rewrite !corner_mesh_cube_submesh, !turned_corner_cube_submesh.
  split.
  - apply (nth_error_differ _ _ 2).
    cbv [Mesh.transform Mesh.addMesh Mesh.Points Mesh.Mesh0 map app
         nth_error Base.multVec Base.Matrix_of turn_x Base.Placement0
         Base.Position Base.Row1 Base.Row2 Base.Row3
         Base.x Base.y Base.z Base.A11 Base.A12 Base.A13 Base.A14 Base.A21
         Base.A22 Base.A23 Base.A24 Base.A31 Base.A32 Base.A33 Base.A34].
    intros H; injection H; intros; lra.
  - cbv [Mesh.Points Mesh.Mesh0 map app cube_unfolding Base.div
         Base.x Base.y Base.z].
    intros H; injection H; intros; lra.
Qed.

Lemma turned_corner_split :
  split_z_normal (Mesh.Facets turned_corner) z_axis
  = OK ([Mesh.mkFacet (Base.mkVector 1000 0 0, Base.mkVector 1001 0 0,
                       Base.mkVector 1000 0 1)],
        [Mesh.mkFacet (Base.mkVector 1000 0 0, Base.mkVector 1001 0 0,
                       Base.mkVector 1000 (-1) 0)],
        z_axis).
Proof.
  unfold split_z_normal;
    cbn [turned_corner Mesh.Facets Mesh.Faces Mesh.Points map nth foldM].
  rewrite (is_facet_normal_z _ _ _ 1 1)
    by (unfold Base.dot, Base.sub; cbn [Base.x Base.y Base.z]; lra).
  cbn [Base.sub Base.x Base.y Base.z]; r_eval; cbn [andb rbind].
  rewrite (is_facet_normal_z _ _ _ 1 1)
    by (unfold Base.dot, Base.sub; cbn [Base.x Base.y Base.z]; lra).
  cbn [Base.sub Base.x Base.y Base.z]; r_eval; cbn [andb rbind app].
  reflexivity.
Qed.

Lemma cylinder_run_ok (self : RenderingMesh) (om : Mesh.Mesh)
  (pl : Base.Placement) (faces0 faces1 : list Mesh.Facet)
  (z_vector : Base.Vector) :
  __originalmesh self = Some om ->
  __originalplacement self = Some pl ->
  split_z_normal (Mesh.Facets om) z_axis = OK (faces0, faces1, z_vector) ->
  Mesh.Points (Mesh.Mesh_of faces0) <> [] ->
  compute_uvmap (Some "Cylindric"%string) self
  = (OK tt, mkRenderingMesh (cyl_mesh pl faces0 faces1) (Some om) (Some pl)
                            (Some (cyl_uvmap faces0 faces1))).
Proof.
  intros Hom Hpl Hsplit Hne.
  change (compute_uvmap (Some "Cylindric"%string) self)
    with (_compute_uvmap_cylinder self).
  rewrite (cylinder_run self om pl Hom Hpl), Hsplit.
  rewrite (proj2 (Reqb_false _ 0)); [reflexivity |].
  apply not_0_INR; destruct (Mesh.Points (Mesh.Mesh_of faces0));
    [congruence | discriminate].
Qed.

(** The cylindric strategy on [turned_corner] and on its copy. *)
Lemma copy_cylindric_differs :
  exists self c r r',
    __init__ (Some turned_corner) None turn_x = OK self
    /\ copy self = OK c
    /\ compute_uvmap (Some "Cylindric"%string) self = (OK tt, r)
    /\ compute_uvmap (Some "Cylindric"%string) c = (OK tt, r')
    /\ Points r' <> Points r
    /\ uvmap r' <> uvmap r.
Proof.
  eexists; eexists; eexists; eexists.
  split; [exact turned_corner_init |].
  split; [apply (copy_spec _ _ _ _ turned_corner_init) |].
  split.
  { eapply cylinder_run_ok;
      [reflexivity | reflexivity | exact corner_mesh_split |].
    rewrite corner_mesh_regular; discriminate. }
  split.
  { eapply cylinder_run_ok;
      [reflexivity | reflexivity | exact turned_corner_split |].
    mesh_eval; discriminate. }
  unfold Points, uvmap; cbn [__mesh __uvmap]; unfold cyl_mesh, cyl_uvmap.
  split.
  - apply (nth_error_differ _ _ 2).
    rewrite !Points_addMesh, !Points_transform; mesh_eval.
    cbv [map app nth_error Base.multVec Base.Matrix_of turn_x
         Base.Placement0 Base.Position Base.Row1 Base.Row2 Base.Row3
         Base.x Base.y Base.z Base.A11 Base.A12 Base.A13 Base.A14 Base.A21
         Base.A22 Base.A23 Base.A24 Base.A31 Base.A32 Base.A33 Base.A34].
    intros H; injection H; intros; lra.
  - mesh_eval; cbv [map app cyl_cap_uv Base.x Base.y].
    intros H; injection H; intros; lra.
Qed.

(** C10, amended.  The copy of an object built by the constructor, whatever
    the placement it was built with, has the identity as original placement
    and the current mesh as original (unplaced) mesh, the placement not
    being passed on.  Consequently [compute_uvmap] on the copy, with the
    cubic or the cylindric strategy, can produce points and a UV map that
    differ from those produced on the original: it does for the corner
    turned a quarter about X and moved along X. *)
Theorem copy_drops_placement :
  (forall mesh uv pl self,
      __init__ mesh uv pl = OK self ->
      exists c,
        copy self = OK c
        /\ __originalplacement c = Some Base.Placement0
        /\ __originalmesh c = Some (__mesh self)
        /\ __mesh c = __mesh self
        /\ __uvmap c = __uvmap self)
  /\ (exists self c r r',
         turn_x <> Base.Placement0
         /\ __init__ (Some turned_corner) None turn_x = OK self
         /\ copy self = OK c
         /\ compute_uvmap (Some "Cubic"%string) self = (OK tt, r)
         /\ compute_uvmap (Some "Cubic"%string) c = (OK tt, r')
         /\ Points r' <> Points r
         /\ uvmap r' <> uvmap r)
  /\ (exists self c r r',
         turn_x <> Base.Placement0
         /\ __init__ (Some turned_corner) None turn_x = OK self
         /\ copy self = OK c
         /\ compute_uvmap (Some "Cylindric"%string) self = (OK tt, r)
         /\ compute_uvmap (Some "Cylindric"%string) c = (OK tt, r')
         /\ Points r' <> Points r
         /\ uvmap r' <> uvmap r).
Proof.
  split; [| split].
  - intros mesh uv pl self H; eexists.
    split; [apply (copy_spec _ _ _ _ H) |]; cbn; auto.
  - destruct copy_cubic_differs as (self & c & r & r' & H).
    exists self, c, r, r'; split; [exact turn_x_not_Placement0 | exact H].
  - destruct copy_cylindric_differs as (self & c & r & r' & H).
    exists self, c, r, r'; split; [exact turn_x_not_Placement0 | exact H].
Qed.

Lemma copy_drops_placement_witness :
  exists self c,
    __init__ (Some turned_corner) None turn_x = OK self
    /\ copy self = OK c
    /\ __originalplacement c = Some Base.Placement0
    /\ __originalmesh c = Some turned_corner.
Proof.
  destruct (proj1 copy_drops_placement _ _ _ _ turned_corner_init)
    as (c & Hc & Hpl & Hom & _).
  eexists; exists c; split; [exact turned_corner_init |]; auto.
Defined.

(** Alignment after one call, from any state in which the spherical
    strategy would find the points of the mesh and of the original mesh in
    correspondence. *)
Lemma alignment_from (self : RenderingMesh) (om : Mesh.Mesh)
  (pl : Base.Placement) (projection : option string)
  (self' : RenderingMesh) :
  __originalmesh self = Some om ->
  __originalplacement self = Some pl ->
  (kind_of projection = Some Spherical ->
   Forall2 (spherical_uv_of om pl) (Points self)
           (map (sphere_uv (_compute_barycenter (Mesh.Points om)))
                (Mesh.Points om))) ->
  compute_uvmap projection self = (OK tt, self') ->
  exists uv,
    uvmap self' = Some uv
    /\ has_uvmap self' = true
    /\ length uv = length (Points self')
    /\ aligned projection om pl (Points self') uv.
Proof.
  intros Hom Hpl Hsph Hrun.
  assert (Hgoal : forall uv,
             __uvmap self' = Some uv ->
             aligned projection om pl (Points self') uv ->
             length uv = length (Points self') ->
             exists uv1,
               uvmap self' = Some uv1 /\ has_uvmap self' = true
               /\ length uv1 = length (Points self')
               /\ aligned projection om pl (Points self') uv1).
  { intros uv Huv Hal Hlen; exists uv; unfold uvmap, has_uvmap.
    rewrite Huv; auto. }
  unfold compute_uvmap in Hrun.
  assert (Hcube : _compute_uvmap_cube self = (OK tt, self') ->
                  Forall2 (cubic_uv_of om pl) (Points self') (cube_uvmap om)
                  /\ __uvmap self' = Some (cube_uvmap om)).
  { rewrite (cube_run _ om pl Hom Hpl).
    intros H; inversion H; subst self'; split; [| reflexivity].
    apply cube_aligned. }
  destruct projection as [p |].
  2:{ apply Hcube in Hrun as [Hal Huv].
      apply (Hgoal _ Huv Hal); symmetry; apply (Forall2_length Hal). }
  destruct (String.eqb p "Cubic") eqn:E1.
  { apply Hcube in Hrun as [Hal Huv].
    apply (Hgoal _ Huv); [| symmetry; apply (Forall2_length Hal)].
    unfold aligned, kind_of; rewrite E1; exact Hal. }
  destruct (String.eqb p "Spherical") eqn:E2.
  { assert (Hal := Hsph); unfold kind_of in Hal; rewrite E1, E2 in Hal.
    specialize (Hal eq_refl).
    rewrite (sphere_run _ om Hom) in Hrun.
    destruct (forallb _ _); [| discriminate].
    inversion Hrun; subst self'; clear Hrun.
    apply (Hgoal _ eq_refl); [| symmetry; apply (Forall2_length Hal)].
    unfold aligned, kind_of; rewrite E1, E2; exact Hal. }
  destruct (String.eqb p "Cylindric") eqn:E3; [| discriminate].
  rewrite (cylinder_run _ om pl Hom Hpl) in Hrun.
  destruct (split_z_normal (Mesh.Facets om) z_axis)
    as [[[f0 f1] zv] |] eqn:Hsplit; [| discriminate].
  destruct (Reqb _ 0); [discriminate |].
  inversion Hrun; subst self'; clear Hrun.
  pose proof (cyl_aligned om pl f0 f1 zv Hsplit) as Hal.
  apply (Hgoal _ eq_refl); [| symmetry; apply (Forall2_length Hal)].
  unfold aligned, kind_of; rewrite E1, E2, E3; eexists; exact Hal.
Qed.

(** ** Index by index, exactly *)

Lemma separated_unique (P : Mesh.Facet -> Prop)
  (l l0 l1 l0' l1' : list Mesh.Facet) :
  separated P l l0 l1 -> separated P l l0' l1' -> l0 = l0' /\ l1 = l1'.
Proof.
  intros H; revert l0' l1';
    induction H as [| a l l0 l1 Ha _ IH | a l l0 l1 Ha _ IH];
    intros l0' l1' H'; inversion H'; subst; try contradiction; auto;
    match goal with
    | Hs : separated P l _ _ |- _ => destruct (IH _ _ Hs) as [-> ->]; auto
    end.
Qed.

Lemma sources_of_unique (k : projection_kind) (om : Mesh.Mesh)
  (srcs srcs' : list source) :
  sources_of k om srcs -> sources_of k om srcs' -> srcs = srcs'.
Proof.
  destruct k; cbn [sources_of]; try congruence.
  intros (f0 & f1 & Hs & ->) (f0' & f1' & Hs' & ->).
  destruct (separated_unique _ _ _ _ _ _ Hs Hs') as [-> ->]; reflexivity.
Qed.

(** The splitting loop keeps the order of the facets in both lists. *)
Lemma split_loop_separated (axis : Base.Vector) :
  Base.normalize axis = OK axis ->
  forall facets acc0 acc1 faces0 faces1 z_vector,
    foldM (fun '(faces0, faces1, z_vector) facet =>
             let* (res, z_vector) :=
               _is_facet_normal_to_vector facet z_vector in
             if res then OK (faces0, faces1 ++ [facet], z_vector)
             else OK (faces0 ++ [facet], faces1, z_vector))
          facets (acc0, acc1, axis)
    = OK (faces0, faces1, z_vector) ->
    exists r0 r1,
      faces0 = acc0 ++ r0 /\ faces1 = acc1 ++ r1
      /\ separated (fun facet => axis_normal facet axis) facets r0 r1.
Proof.
  intros Hax; induction facets as [| facet facets IH];
    intros acc0 acc1 faces0 faces1 z_vector; cbn [foldM].
  - intros H; inversion H; subst.
    exists [], []; rewrite !app_nil_r; repeat split; constructor.
  - destruct (_is_facet_normal_to_vector facet axis) as [[res v'] |] eqn:E;
      [| discriminate].
    apply is_facet_normal_to_vector_spec in E as [Hv Hres].
    rewrite Hax in Hv; inversion Hv; subst v'; clear Hv.
    cbn [rbind]; destruct res; intros H; apply IH in H;
      destruct H as (r0 & r1 & -> & -> & Hsep).
    + exists r0, (facet :: r1); rewrite <- !app_assoc; repeat split.
      apply separated_in; [tauto | exact Hsep].
    + exists (facet :: r0), r1; rewrite <- !app_assoc; repeat split.
      apply separated_out; [| exact Hsep].
      intros Hn; apply Hres in Hn; discriminate.
Qed.

Lemma split_z_normal_separated (facets faces0 faces1 : list Mesh.Facet)
  (z_vector : Base.Vector) :
  split_z_normal facets z_axis = OK (faces0, faces1, z_vector) ->
  separated (fun facet => axis_normal facet z_axis) facets faces0 faces1.
Proof.
  intros H; apply (split_loop_separated z_axis normalize_z_axis) in H.
  destruct H as (r0 & r1 & -> & -> & H); exact H.
Qed.

Lemma Forall2_map_both {A B C : Type} (R : B -> C -> Prop) (f : A -> B)
  (g : A -> C) (l : list A) :
  (forall a, R (f a) (g a)) -> Forall2 R (map f l) (map g l).
Proof. intros H; induction l; cbn [map]; constructor; auto. Qed.

Lemma regular_points_split (pts0 pts1 : list Base.Vector) :
  regular_points (map (mkSource RegularSubmesh) pts0
                  ++ map (mkSource AxisNormalSubmesh) pts1)
  = pts0.
Proof.
  unfold regular_points; rewrite filter_app, map_app.
  replace (filter is_regular (map (mkSource AxisNormalSubmesh) pts1))
    with (@nil source) by (induction pts1; cbn; auto).
  replace (filter is_regular (map (mkSource RegularSubmesh) pts0))
    with (map (mkSource RegularSubmesh) pts0)
    by (induction pts0; cbn; congruence).
  cbn [map]; rewrite app_nil_r, map_map; apply map_id.
Qed.

(** The cubic result, entry by entry. *)
Lemma cube_exact (om : Mesh.Mesh) (pl : Base.Placement) :
  exists srcs,
    sources_of Cubic om srcs
    /\ Forall2 (placed_source Cubic pl) (Mesh.Points (cube_mesh om pl)) srcs
    /\ cube_uvmap om = map (projected_uv om srcs) srcs.
Proof.
  eexists; split; [reflexivity | split].
  - rewrite Points_cube_mesh.
    cbn [_UnitCubeFaceEnum_members map concat].
    repeat (apply Forall2_app;
            [apply Forall2_map_both; reflexivity |]).
    constructor.
  - unfold cube_uvmap; rewrite concat_map, map_map.
    f_equal; apply map_ext; intros face; rewrite map_map; reflexivity.
Qed.

(** The cylindric result, entry by entry. *)
Lemma cyl_exact (om : Mesh.Mesh) (pl : Base.Placement)
  (faces0 faces1 : list Mesh.Facet) (z_vector : Base.Vector) :
  split_z_normal (Mesh.Facets om) z_axis = OK (faces0, faces1, z_vector) ->
  exists srcs,
    sources_of Cylindric om srcs
    /\ Forall2 (placed_source Cylindric pl)
         (Mesh.Points (cyl_mesh pl faces0 faces1)) srcs
    /\ cyl_uvmap faces0 faces1 = map (projected_uv om srcs) srcs.
Proof.
  intros Hs; apply split_z_normal_separated in Hs.
  eexists; split; [exists faces0, faces1; split; [exact Hs | reflexivity] |].
  split.
  - unfold cyl_mesh; rewrite !Points_addMesh, !Points_transform.
    cbn [Mesh.Points Mesh.Mesh0 app].
    apply Forall2_app; apply Forall2_map_both; reflexivity.
  - unfold cyl_uvmap; rewrite map_app, !map_map.
    unfold projected_uv; cbn [source_submesh source_point].
    rewrite regular_points_split; reflexivity.
Qed.

(** The spherical result on the object that the constructor builds. *)
Lemma sphere_exact (mesh : Mesh.Mesh) (pl : Base.Placement) :
  let om := Mesh.transform (Base.Matrix_of (Base.inverse pl)) mesh in
  exists srcs,
    sources_of Spherical om srcs
    /\ Forall2 (placed_source Spherical pl) (Mesh.Points mesh) srcs
    /\ map (sphere_uv (_compute_barycenter (Mesh.Points om))) (Mesh.Points om)
       = map (projected_uv om srcs) srcs.
Proof.
  intros om.
  eexists; split; [reflexivity | split].
  - unfold om; rewrite Points_transform, map_map.
    rewrite <- (map_id (Mesh.Points mesh)) at 1.
    apply Forall2_map_both; reflexivity.
  - rewrite map_map; reflexivity.
Qed.

(** Exact alignment after one call, from any state in which the spherical
    strategy would find the points of the mesh and of the original mesh in
    correspondence. *)
Lemma exact_alignment_from (self : RenderingMesh) (om : Mesh.Mesh)
  (pl : Base.Placement) (projection : option string)
  (self' : RenderingMesh) :
  __originalmesh self = Some om ->
  __originalplacement self = Some pl ->
  (kind_of projection = Some Spherical ->
   exists srcs,
     sources_of Spherical om srcs
     /\ Forall2 (placed_source Spherical pl) (Points self) srcs
     /\ map (sphere_uv (_compute_barycenter (Mesh.Points om)))
            (Mesh.Points om)
        = map (projected_uv om srcs) srcs) ->
  compute_uvmap projection self = (OK tt, self') ->
  exists uv,
    uvmap self' = Some uv
    /\ exactly_aligned projection om pl (Points self') uv.
Proof.
  intros Hom Hpl Hsph Hrun.
  assert (Hnone : compute_uvmap None self = _compute_uvmap_cube self)
    by reflexivity.
  assert (Hcube : _compute_uvmap_cube self = (OK tt, self') ->
                  exists uv,
                    uvmap self' = Some uv
                    /\ exists srcs,
                         sources_of Cubic om srcs
                         /\ Forall2 (placed_source Cubic pl) (Points self')
                                    srcs
                         /\ uv = map (projected_uv om srcs) srcs).
  { rewrite (cube_run _ om pl Hom Hpl).
    intros H; inversion H; subst self'.
    exists (cube_uvmap om); split; [reflexivity | apply cube_exact]. }
  unfold exactly_aligned.
  destruct projection as [p |];
    [| rewrite Hnone in Hrun; cbn [kind_of]; auto].
  unfold compute_uvmap in Hrun; cbv zeta in Hrun.
  unfold kind_of in *.
  destruct (String.eqb p "Cubic"); [auto |].
  destruct (String.eqb p "Spherical").
  { specialize (Hsph eq_refl).
    rewrite (sphere_run _ om Hom) in Hrun.
    destruct (forallb _ _); [| discriminate].
    inversion Hrun; subst self'; clear Hrun.
    eexists; split; [reflexivity | exact Hsph]. }
  destruct (String.eqb p "Cylindric"); [| discriminate].
  rewrite (cylinder_run _ om pl Hom Hpl) in Hrun.
  destruct (split_z_normal (Mesh.Facets om) z_axis)
    as [[[f0 f1] zv] |] eqn:Hsplit; [| discriminate].
  destruct (Reqb _ 0); [discriminate |].
  inversion Hrun; subst self'; clear Hrun.
  eexists; split; [reflexivity | apply (cyl_exact om pl f0 f1 zv Hsplit)].
Qed.

Lemma exactly_aligned_unique (projection : option string) (om : Mesh.Mesh)
  (pl : Base.Placement) (points : list Base.Vector)
  (uv uv' : list Base.Vector2d) :
  exactly_aligned projection om pl points uv ->
  exactly_aligned projection om pl points uv' ->
  uv = uv'.
Proof.
  unfold exactly_aligned; destruct (kind_of projection) as [k |]; [| tauto].
  intros (srcs & Hs & _ & ->) (srcs' & Hs' & _ & ->).
  rewrite (sources_of_unique k om srcs srcs' Hs Hs'); reflexivity.
Qed.

(** C1, amended.  For every mesh, placement and supported projection kind,
    once [compute_uvmap] has returned on the object that the constructor
    builds from them, the UV map is present, has as many entries as the
    (possibly replaced) mesh has points, and its entry at each index is the
    projected coordinate of the mesh point at that index: the points of the
    mesh are, in order, the points of the sub-meshes one after the other
    (the sources), and the UV map is the list of the projected coordinates
    of these sources, each computed for the sub-mesh of its source.  The
    cubic and the cylindric strategies give this from any state of an object
    built from a mesh, since they rebuild the mesh from the original one.
    The alignment determines the UV map: two UV maps aligned with the same
    projection of the same mesh are equal. *)
Theorem compute_uvmap_index_alignment :
  (forall mesh uv0 pl self projection self',
      __init__ (Some mesh) uv0 pl = OK self ->
      compute_uvmap projection self = (OK tt, self') ->
      exists uv om,
        uvmap self' = Some uv
        /\ has_uvmap self' = true
        /\ __originalmesh self = Some om
        /\ length uv = length (Points self')
        /\ aligned projection om pl (Points self') uv
        /\ exactly_aligned projection om pl (Points self') uv)
  /\ (forall self om pl projection self',
         __originalmesh self = Some om ->
         __originalplacement self = Some pl ->
         kind_of projection <> Some Spherical ->
         compute_uvmap projection self = (OK tt, self') ->
         exists uv,
           uvmap self' = Some uv
           /\ has_uvmap self' = true
           /\ length uv = length (Points self')
           /\ aligned projection om pl (Points self') uv
           /\ exactly_aligned projection om pl (Points self') uv)
  /\ (forall projection om pl points uv uv',
         exactly_aligned projection om pl points uv ->
         exactly_aligned projection om pl points uv' ->
         uv = uv').
Proof.
  split; [| split].
  - intros mesh uv0 pl self projection self' Hinit Hrun.
    apply init_inv in Hinit; subst self.
    destruct (alignment_from
                (mkRenderingMesh mesh
                   (Some (Mesh.transform (Base.Matrix_of (Base.inverse pl))
                                         mesh))
                   (Some pl) uv0)
                _ pl projection self' eq_refl eq_refl
                (fun _ => sphere_aligned mesh pl) Hrun)
      as (uv & H1 & H2 & H3 & H4).
    destruct (exact_alignment_from
                (mkRenderingMesh mesh
                   (Some (Mesh.transform (Base.Matrix_of (Base.inverse pl))
                                         mesh))
                   (Some pl) uv0)
                _ pl projection self' eq_refl eq_refl
                (fun _ => sphere_exact mesh pl) Hrun)
      as (uv' & H1' & H5).
    rewrite H1 in H1'; inversion H1'; subst uv'.
    exists uv; eexists; cbn [__originalmesh]; eauto 7.
  - intros self om pl projection self' Hom Hpl Hk Hrun.
    destruct (alignment_from self om pl projection self' Hom Hpl
                (fun H => False_ind _ (Hk H)) Hrun)
      as (uv & H1 & H2 & H3 & H4).
    destruct (exact_alignment_from self om pl projection self' Hom Hpl
                (fun H => False_ind _ (Hk H)) Hrun)
      as (uv' & H1' & H5).
    rewrite H1 in H1'; inversion H1'; subst uv'.
    exists uv; auto.
  - apply exactly_aligned_unique.
Qed.

Lemma compute_uvmap_index_alignment_witness :
  exists self self',
    __init__ (Some unit_cube) None Base.Placement0 = OK self
    /\ compute_uvmap (Some "Cubic"%string) self = (OK tt, self')
    /\ exists uv om,
        uvmap self' = Some uv
        /\ has_uvmap self' = true
        /\ __originalmesh self = Some om
        /\ length uv = length (Points self')
        /\ aligned (Some "Cubic"%string) om Base.Placement0 (Points self') uv
        /\ exactly_aligned (Some "Cubic"%string) om Base.Placement0
             (Points self') uv.
Proof.
  eexists; eexists.
  assert (Hinit : __init__ (Some unit_cube) None Base.Placement0
                  = OK (mkRenderingMesh unit_cube
                          (Some (Mesh.transform
                                   (Base.Matrix_of
                                      (Base.inverse Base.Placement0))
                                   unit_cube))
                          (Some Base.Placement0) None))
    by (apply init_mesh; reflexivity).
  split; [exact Hinit |].
  assert (Hrun : compute_uvmap (Some "Cubic"%string)
                   (mkRenderingMesh unit_cube
                          (Some (Mesh.transform
                                   (Base.Matrix_of
                                      (Base.inverse Base.Placement0))
                                   unit_cube))
                          (Some Base.Placement0) None)
                 = (OK tt, _))
    by (apply cube_run; reflexivity).
  split; [exact Hrun |].
  exact (proj1 compute_uvmap_index_alignment unit_cube None Base.Placement0
           _ (Some "Cubic"%string) _ Hinit Hrun).
Defined.

Lemma corner_mesh_positive :
  forallb (fun p =>
             negb (Reqb (Base.Length
                           (Base.sub p (_compute_barycenter
                                          (Mesh.Points corner_mesh)))) 0))
          (Mesh.Points corner_mesh)
  = true.
Proof.
  apply forallb_forall; intros p Hp; apply negb_true_iff, Reqb_false.
  rewrite corner_mesh_barycenter.
  assert (H : Base.Length (Base.sub p (Base.mkVector (1 / 4) (1 / 4) (1 / 4)))
              > 0); [| lra].
  apply Length_pos.
  cbn in Hp; decompose [or] Hp; subst; try contradiction;
    unfold Base.dot, Base.sub; cbn; lra.
Qed.

(** C1, as it is written, fails: on an object whose mesh a cubic projection
    has replaced, the spherical projection returns with a UV map of the four
    points of the original mesh, while the mesh has six points. *)
Lemma spherical_after_cubic_misaligned :
  exists self s1 s2 uv,
    __init__ (Some corner_mesh) None Base.Placement0 = OK self
    /\ compute_uvmap (Some "Cubic"%string) self = (OK tt, s1)
    /\ compute_uvmap (Some "Spherical"%string) s1 = (OK tt, s2)
    /\ uvmap s2 = Some uv
    /\ length uv = 4%nat
    /\ length (Points s2) = 6%nat.
Proof.
  eexists; eexists; eexists; eexists.
  split; [apply init_Placement0; reflexivity |].
  split; [apply (cube_run _ corner_mesh Base.Placement0); reflexivity |].
  split.
  { change (compute_uvmap (Some "Spherical"%string))
      with _compute_uvmap_sphere.
    rewrite (sphere_run _ corner_mesh) by reflexivity.
    rewrite corner_mesh_positive; reflexivity. }
  split; [reflexivity |].
  split; [reflexivity |].
  unfold Points; cbn [__mesh]; rewrite Points_cube_mesh.
  cbn [_UnitCubeFaceEnum_members map]; rewrite !corner_mesh_cube_submesh.
  reflexivity.
Qed.

(** * Further properties *)

(** ** What [compute_uvmap] keeps *)

Lemma keeps_original_readonly {A : Type} (c : M A) :
  readonly c -> keeps_original c.
Proof. intros H self; rewrite H; auto. Qed.

Lemma keeps_original_bind {A B : Type} (c : M A) (k : A -> M B) :
  keeps_original c -> (forall a, keeps_original (k a)) ->
  keeps_original (bind c k).
Proof.
  intros Hc Hk self; unfold bind; specialize (Hc self).
  destruct (c self) as [[a | e] s]; cbn [snd] in *; [| exact Hc].
  destruct (Hk a s) as [H1 H2]; destruct Hc as [H3 H4].
  rewrite H1, H2; auto.
Qed.

Lemma keeps_original_set_mesh (m : Mesh.Mesh) : keeps_original (set_mesh m).
Proof. intros self; cbn; auto. Qed.

Lemma keeps_original_set_uvmap (uv : option (list Base.Vector2d)) :
  keeps_original (set_uvmap uv).
Proof. intros self; cbn; auto. Qed.

Lemma leaves_uvmap_bind {A B : Type} (c : M A) (k : A -> M B) :
  (forall a, leaves_uvmap (k a)) -> leaves_uvmap (bind c k).
Proof.
  intros Hk self b self'; unfold bind.
  destruct (c self) as [[a | e] s]; [apply Hk | discriminate].
Qed.

Lemma leaves_uvmap_set_uvmap (uv : list Base.Vector2d) :
  leaves_uvmap (set_uvmap (Some uv)).
Proof. intros self a self' H; inversion H; reflexivity. Qed.

Lemma leaves_uvmap_raise {A : Type} (e : exn) :
  leaves_uvmap (lift (@Raise A e)).
Proof. intros self a self' H; discriminate H. Qed.

Create HintDb frame.

#[local] Hint Resolve keeps_original_bind keeps_original_set_mesh
  keeps_original_set_uvmap leaves_uvmap_bind leaves_uvmap_set_uvmap
  leaves_uvmap_raise readonly_ret readonly_lift readonly_get_originalmesh
  readonly_get_originalplacement readonly_bind readonly_for_ : frame.

Ltac frame_step :=
  first [ apply keeps_original_set_mesh
        | apply keeps_original_set_uvmap
        | apply keeps_original_readonly; solve [auto 10 with frame]
        | apply keeps_original_bind; [| intros ?] ].

Lemma keeps_original_compute_uvmap (projection : option string) :
  keeps_original (compute_uvmap projection).
Proof.
  unfold compute_uvmap.
  repeat match goal with
         | |- context [String.eqb ?a ?b] => destruct (String.eqb a b)
         end.
  - unfold _compute_uvmap_cube.
    apply keeps_original_bind; [frame_step | intros om].
    apply keeps_original_bind; [| intros [mesh uv]; repeat frame_step].
    apply keeps_original_readonly, readonly_for_.
    intros [mesh uv] [face facets]; auto with frame.
  - unfold _compute_uvmap_sphere; repeat frame_step.
  - unfold _compute_uvmap_cylinder.
    apply keeps_original_bind; [frame_step | intros om].
    apply keeps_original_bind; [frame_step | intros [[f0 f1] zv]; cbv zeta].
    repeat frame_step.
  - apply keeps_original_readonly; auto with frame.
Qed.

Lemma leaves_uvmap_compute_uvmap (projection : option string) :
  leaves_uvmap (compute_uvmap projection).
Proof.
  unfold compute_uvmap.
  repeat match goal with
         | |- context [String.eqb ?a ?b] => destruct (String.eqb a b)
         end.
  - unfold _compute_uvmap_cube.
    apply leaves_uvmap_bind; intros om.
    apply leaves_uvmap_bind; intros [mesh uv]; auto with frame.
  - unfold _compute_uvmap_sphere.
    repeat (apply leaves_uvmap_bind; intros ?); auto with frame.
  - unfold _compute_uvmap_cylinder.
    apply leaves_uvmap_bind; intros om.
    apply leaves_uvmap_bind; intros [[f0 f1] zv]; cbv zeta.
    repeat (apply leaves_uvmap_bind; intros ?); auto with frame.
  - apply leaves_uvmap_raise.
Qed.

(** X1.  Whatever the projection kind and the outcome, [compute_uvmap] never
    touches the original mesh and the original placement of the object; and
    when it returns, the object has a UV map, whatever state it started
    from. *)
Theorem compute_uvmap_keeps_original (projection : option string)
  (self self' : RenderingMesh) (r : result unit) :
  compute_uvmap projection self = (r, self') ->
  __originalmesh self' = __originalmesh self
  /\ __originalplacement self' = __originalplacement self
  /\ (r = OK tt -> has_uvmap self' = true).
Proof.
  intros H; pose proof (keeps_original_compute_uvmap projection self) as Hk.
  rewrite H in Hk; cbn [snd] in Hk; destruct Hk as [H1 H2].
  repeat split; auto.
  intros ->; exact (leaves_uvmap_compute_uvmap projection self tt self' H).
Qed.

Lemma compute_uvmap_keeps_original_witness :
  exists self',
    compute_uvmap (Some "Cubic"%string)
      (mkRenderingMesh corner_mesh (Some corner_mesh)
                       (Some Base.Placement0) None)
    = (OK tt, self')
    /\ __originalmesh self' = Some corner_mesh
    /\ has_uvmap self' = true.
Proof.
  eexists.
  assert (Hrun : compute_uvmap (Some "Cubic"%string)
                   (mkRenderingMesh corner_mesh (Some corner_mesh)
                                    (Some Base.Placement0) None)
                 = (OK tt, _))
    by (apply (cube_run _ corner_mesh Base.Placement0); reflexivity).
  split; [exact Hrun |].
  destruct (compute_uvmap_keeps_original _ _ _ _ Hrun) as (H1 & _ & H3).
  split; [exact H1 | exact (H3 eq_refl)].
Defined.

(** ** Objects built without a mesh *)

Lemma no_mesh_run (projection : option string) (self : RenderingMesh) :
  __originalmesh self = None ->
  kind_of projection <> None ->
  compute_uvmap projection self = (Raise AttributeError, self).
Proof.
  intros Hom Hk; unfold compute_uvmap; unfold kind_of in Hk.
  assert (Hc : _compute_uvmap_cube self = (Raise AttributeError, self))
    by (unfold _compute_uvmap_cube, bind, get_originalmesh; now rewrite Hom).
  destruct projection as [p |]; [| exact Hc].
  destruct (String.eqb p "Cubic"); [exact Hc |].
  destruct (String.eqb p "Spherical").
  { unfold _compute_uvmap_sphere, bind, get_originalmesh; now rewrite Hom. }
  destruct (String.eqb p "Cylindric"); [| congruence].
  unfold _compute_uvmap_cylinder, bind, get_originalmesh; now rewrite Hom.
Qed.

(** X2.  An object built without a mesh holds the empty mesh and no original
    mesh: every supported projection kind then raises [AttributeError] and
    leaves the object as it is (an unsupported kind still raises
    [ValueError]). *)
Theorem compute_uvmap_without_mesh (uv : option (list Base.Vector2d))
  (pl : Base.Placement) :
  exists self,
    __init__ None uv pl = OK self
    /\ Points self = []
    /\ uvmap self = uv
    /\ (forall projection,
           kind_of projection <> None ->
           compute_uvmap projection self = (Raise AttributeError, self))
    /\ (forall projection,
           kind_of projection = None ->
           compute_uvmap projection self = (Raise ValueError, self)).
Proof.
  eexists; split; [reflexivity |].
  split; [reflexivity |]; split; [reflexivity |]; split.
  - intros projection Hk; apply no_mesh_run; [reflexivity | exact Hk].
  - intros [p |] Hk; [| discriminate Hk].
    apply compute_uvmap_unsupported; unfold supported.
    unfold kind_of in Hk; intros [-> | [-> | ->]]; discriminate Hk.
Qed.

Lemma compute_uvmap_without_mesh_witness :
  exists self,
    __init__ None None Base.Placement0 = OK self
    /\ compute_uvmap (Some "Spherical"%string) self
       = (Raise AttributeError, self).
Proof.
  destruct (compute_uvmap_without_mesh None Base.Placement0)
    as (self & Hinit & _ & _ & Hsup & _).
  exists self; split; [exact Hinit |].
  apply Hsup; discriminate.
Defined.

(** ** The projections read the original mesh only *)

Lemma depends_on_original (projection : option string)
  (self other : RenderingMesh) (om : Mesh.Mesh) (pl : Base.Placement) :
  __originalmesh self = Some om -> __originalplacement self = Some pl ->
  __originalmesh other = Some om -> __originalplacement other = Some pl ->
  fst (compute_uvmap projection self) = fst (compute_uvmap projection other)
  /\ (fst (compute_uvmap projection self) = OK tt ->
      uvmap (snd (compute_uvmap projection self))
      = uvmap (snd (compute_uvmap projection other))
      /\ (kind_of projection <> Some Spherical ->
          snd (compute_uvmap projection self)
          = snd (compute_uvmap projection other))).
Proof.
  intros Hom Hpl Hom' Hpl'; unfold compute_uvmap, kind_of.
  assert (Hc : fst (_compute_uvmap_cube self) = fst (_compute_uvmap_cube other)
               /\ (fst (_compute_uvmap_cube self) = OK tt ->
                   uvmap (snd (_compute_uvmap_cube self))
                   = uvmap (snd (_compute_uvmap_cube other))
                   /\ snd (_compute_uvmap_cube self)
                      = snd (_compute_uvmap_cube other))).
  { rewrite (cube_run self om pl Hom Hpl), (cube_run other om pl Hom' Hpl').
    auto. }
  destruct projection as [p |]; [| intuition].
  destruct (String.eqb p "Cubic"); [intuition |].
  destruct (String.eqb p "Spherical").
  { rewrite (sphere_run self om Hom), (sphere_run other om Hom').
    destruct (forallb _ _); cbn; intuition congruence. }
  destruct (String.eqb p "Cylindric"); [| cbn; intuition discriminate].
  rewrite (cylinder_run self om pl Hom Hpl),
    (cylinder_run other om pl Hom' Hpl').
  destruct (split_z_normal _ _) as [[[f0 f1] zv] | e];
    [| cbn; intuition discriminate].
  destruct (Reqb _ 0); cbn; intuition discriminate.
Qed.

(** X3.  The outcome and the UV map of [compute_uvmap] depend on the original
    mesh and the original placement only, not on the current mesh nor on the
    current UV map; with the cubic and the cylindric strategies so does the
    whole resulting object.  Hence projecting again with one of these two
    kinds, after any projection that returned, gives what projecting once
    gives. *)
Theorem compute_uvmap_reads_original_only :
  (forall projection self other om pl,
      __originalmesh self = Some om -> __originalplacement self = Some pl ->
      __originalmesh other = Some om -> __originalplacement other = Some pl ->
      fst (compute_uvmap projection self)
      = fst (compute_uvmap projection other)
      /\ (fst (compute_uvmap projection self) = OK tt ->
          uvmap (snd (compute_uvmap projection self))
          = uvmap (snd (compute_uvmap projection other))
          /\ (kind_of projection <> Some Spherical ->
              snd (compute_uvmap projection self)
              = snd (compute_uvmap projection other))))
  /\ (forall first again self s1 s2 om pl,
         __originalmesh self = Some om -> __originalplacement self = Some pl ->
         compute_uvmap first self = (OK tt, s1) ->
         kind_of again <> Some Spherical ->
         compute_uvmap again self = (OK tt, s2) ->
         compute_uvmap again s1 = (OK tt, s2)).
Proof.
  split; [exact depends_on_original |].
  intros first again self s1 s2 om pl Hom Hpl H1 Hk H2.
  destruct (keeps_original_compute_uvmap first self) as [Ho Hp].
  rewrite H1 in Ho, Hp; cbn [snd] in Ho, Hp; rewrite Hom in Ho; rewrite Hpl in Hp.
  destruct (depends_on_original again s1 self om pl Ho Hp Hom Hpl)
    as [Hf Hs].
  rewrite H2 in Hf, Hs; cbn [fst snd] in Hf, Hs.
  destruct (Hs Hf) as [_ Hs']; specialize (Hs' Hk).
  rewrite (surjective_pairing (compute_uvmap again s1)), Hf, Hs'.
  reflexivity.
Qed.

Lemma corner_mesh_spherical :
  compute_uvmap (Some "Spherical"%string)
    (mkRenderingMesh corner_mesh (Some corner_mesh)
                     (Some Base.Placement0) None)
  = (OK tt,
     mkRenderingMesh corner_mesh (Some corner_mesh) (Some Base.Placement0)
       (Some (map (sphere_uv (_compute_barycenter (Mesh.Points corner_mesh)))
                  (Mesh.Points corner_mesh)))).
Proof.
  change (compute_uvmap (Some "Spherical"%string))
    with _compute_uvmap_sphere.
  rewrite (sphere_run _ corner_mesh) by reflexivity.
  rewrite corner_mesh_positive; reflexivity.
Qed.

Lemma corner_mesh_cubic :
  compute_uvmap (Some "Cubic"%string)
    (mkRenderingMesh corner_mesh (Some corner_mesh)
                     (Some Base.Placement0) None)
  = (OK tt,
     mkRenderingMesh (cube_mesh corner_mesh Base.Placement0)
       (Some corner_mesh) (Some Base.Placement0)
       (Some (cube_uvmap corner_mesh))).
Proof. apply (cube_run _ corner_mesh Base.Placement0); reflexivity. Qed.

Lemma compute_uvmap_reads_original_only_witness :
  exists s1 s2,
    compute_uvmap (Some "Spherical"%string)
      (mkRenderingMesh corner_mesh (Some corner_mesh)
                       (Some Base.Placement0) None)
    = (OK tt, s1)
    /\ compute_uvmap (Some "Cubic"%string)
         (mkRenderingMesh corner_mesh (Some corner_mesh)
                          (Some Base.Placement0) None)
       = (OK tt, s2)
    /\ compute_uvmap (Some "Cubic"%string) s1 = (OK tt, s2).
Proof.
  eexists; eexists.
  split; [exact corner_mesh_spherical |].
  split; [exact corner_mesh_cubic |].
  apply (proj2 compute_uvmap_reads_original_only
           (Some "Spherical"%string) (Some "Cubic"%string)
           (mkRenderingMesh corner_mesh (Some corner_mesh)
                            (Some Base.Placement0) None)
           _ _ corner_mesh Base.Placement0 eq_refl eq_refl
           corner_mesh_spherical);
    [discriminate | exact corner_mesh_cubic].
Defined.

(** ** The methods that change the mesh *)

(** X4.  [transform] and [addFacet] change the current mesh only, so a
    projection that follows does not see them: it ends as it would without
    them, with the same UV map, and with the cubic and the cylindric
    strategies with the same object, the transformation or the added facet
    being lost. *)
Theorem projection_ignores_mesh_changes (matrix : Base.Matrix)
  (facet : Mesh.Facet) (projection : option string) (self : RenderingMesh)
  (om : Mesh.Mesh) (pl : Base.Placement) :
  __originalmesh self = Some om ->
  __originalplacement self = Some pl ->
  let direct := compute_uvmap projection self in
  forall changed,
    changed = (transform matrix ;;; compute_uvmap projection) self
    \/ changed = (addFacet facet ;;; compute_uvmap projection) self ->
    fst changed = fst direct
    /\ (fst direct = OK tt ->
        uvmap (snd changed) = uvmap (snd direct)
        /\ (kind_of projection <> Some Spherical ->
            snd changed = snd direct)).
Proof.
  intros Hom Hpl direct changed Hc.
  assert (H : exists other,
             changed = compute_uvmap projection other
             /\ __originalmesh other = Some om
             /\ __originalplacement other = Some pl).
  { destruct Hc as [-> | ->]; eexists; (split; [reflexivity |]); cbn; auto. }
  destruct H as (other & -> & Hom' & Hpl').
  destruct (depends_on_original projection other self om pl Hom' Hpl' Hom Hpl)
    as [Hf Hs].
  split; [exact Hf |].
  intros Hd; apply Hs; rewrite Hf; exact Hd.
Qed.

Lemma projection_ignores_mesh_changes_witness :
  let self := mkRenderingMesh corner_mesh (Some corner_mesh)
                (Some Base.Placement0) None in
  snd ((transform (Base.Matrix_of turn_x)
        ;;; compute_uvmap (Some "Cubic"%string)) self)
  = snd (compute_uvmap (Some "Cubic"%string) self).
Proof.
  intros self.
  destruct (projection_ignores_mesh_changes (Base.Matrix_of turn_x)
              (Mesh.mkFacet (Base.mkVector 0 0 0, Base.mkVector 0 0 0,
                             Base.mkVector 0 0 0))
              (Some "Cubic"%string) self corner_mesh Base.Placement0
              eq_refl eq_refl _ (or_introl eq_refl))
    as [_ Hs].
  apply Hs; [| discriminate].
  change (compute_uvmap (Some "Cubic"%string) self)
    with (_compute_uvmap_cube self).
  rewrite (cube_run self corner_mesh Base.Placement0); reflexivity.
Defined.

(** ** Objects that can be copied *)

Lemma built_init (mesh : option Mesh.Mesh) (uv : option (list Base.Vector2d))
  (pl : Base.Placement) (self : RenderingMesh) :
  __init__ mesh uv pl = OK self -> built self.
Proof.
  intros H; split; [apply (init_Placement _ _ _ _ H) |].
  destruct mesh as [m |].
  - right; apply init_inv in H; subst.
    eexists; eexists; split; reflexivity.
  - left; inversion H; auto.
Qed.

Lemma built_set_mesh (m : Mesh.Mesh) (self : RenderingMesh) :
  Mesh.Placement m = Base.Placement0 -> built self ->
  built (snd (set_mesh m self)).
Proof. intros Hm [_ H]; split; [exact Hm | exact H]. Qed.

Lemma built_compute_uvmap (projection : option string)
  (self : RenderingMesh) :
  built self -> built (snd (compute_uvmap projection self)).
Proof.
  intros [Hp Ho].
  destruct (compute_uvmap projection self) as [[[] | e] self'] eqn:Hrun;
    cbn [snd].
  2:{ apply atomic_compute_uvmap in Hrun; subst; split; auto. }
  destruct (keeps_original_compute_uvmap projection self) as [H1 H2].
  rewrite Hrun in H1, H2; cbn [snd] in H1, H2.
  split; [| rewrite H1, H2; exact Ho].
  destruct Ho as [[Hom _] | (om & pl & Hom & Hpl)].
  { destruct (kind_of projection) eqn:Hk.
    - rewrite no_mesh_run in Hrun by congruence; discriminate.
    - destruct projection as [p |]; [| discriminate].
      rewrite compute_uvmap_unsupported in Hrun; [discriminate |].
      unfold kind_of in Hk; intros [-> | [-> | ->]]; discriminate. }
  unfold compute_uvmap in Hrun.
  assert (Hc : _compute_uvmap_cube self = (OK tt, self') ->
               Placement self' = Base.Placement0).
  { rewrite (cube_run self om pl Hom Hpl); intros H; inversion H.
    reflexivity. }
  destruct projection as [p |]; [| auto].
  destruct (String.eqb p "Cubic"); [auto |].
  destruct (String.eqb p "Spherical").
  { rewrite (sphere_run self om Hom) in Hrun.
    destruct (forallb _ _); inversion Hrun; exact Hp. }
  destruct (String.eqb p "Cylindric"); [| discriminate].
  rewrite (cylinder_run self om pl Hom Hpl) in Hrun.
  destruct (split_z_normal _ _) as [[[f0 f1] zv] | e]; [| discriminate].
  destruct (Reqb _ 0); inversion Hrun; reflexivity.
Qed.

Lemma addFacet_Placement (m : Mesh.Mesh) (facet : Mesh.Facet) :
  Mesh.Placement (Mesh.addFacet m facet) = Mesh.Placement m.
Proof.
  unfold Mesh.addFacet.
  destruct (Mesh.Facet_Points facet) as [[p1 p2] p3].
  destruct (Mesh.add_point _ p1); destruct (Mesh.add_point _ p2);
    destruct (Mesh.add_point _ p3); reflexivity.
Qed.

(** X5.  The constructor leaves an object whose mesh has the identity
    placement, and [compute_uvmap] (whatever its outcome), [transform] and
    [addFacet] keep it so; on such an object [copy] never trips over the
    assertion of the constructor, and the copy shows the same points, the
    same topology and the same UV map. *)
Theorem copy_never_fails :
  (forall mesh uv pl self, __init__ mesh uv pl = OK self -> built self)
  /\ (forall projection self,
         built self -> built (snd (compute_uvmap projection self)))
  /\ (forall matrix self, built self -> built (snd (transform matrix self)))
  /\ (forall facet self, built self -> built (snd (addFacet facet self)))
  /\ (forall self,
         built self ->
         exists c,
           copy self = OK c /\ built c
           /\ Points c = Points self /\ Topology c = Topology self
           /\ uvmap c = uvmap self).
Proof.
  split; [exact built_init |]; split; [exact built_compute_uvmap |].
  split; [| split].
  - intros matrix self [Hp Ho]; split; [exact Hp | exact Ho].
  - intros facet self [Hp Ho]; split; [| exact Ho].
    unfold Placement, addFacet; cbn; rewrite addFacet_Placement; exact Hp.
  - intros self [Hp _]; eexists.
    assert (Hc : copy self = OK _) by (apply init_Placement0; exact Hp).
    split; [exact Hc |].
    split; [exact (built_init _ _ _ _ Hc) |]; cbn; auto.
Qed.

Lemma copy_never_fails_witness :
  let self := mkRenderingMesh corner_mesh (Some corner_mesh)
                (Some Base.Placement0) None in
  exists c,
    copy (snd (compute_uvmap (Some "Cubic"%string) self)) = OK c
    /\ Points c = Points (snd (compute_uvmap (Some "Cubic"%string) self)).
Proof.
  intros self.
  assert (Hb : built self).
  { apply (proj1 copy_never_fails (Some corner_mesh) None Base.Placement0).
    apply init_Placement0; reflexivity. }
  apply (proj1 (proj2 copy_never_fails) (Some "Cubic"%string)) in Hb.
  destruct (proj2 (proj2 (proj2 (proj2 copy_never_fails))) _ Hb)
    as (c & Hc & _ & Hpts & _).
  exists c; auto.
Defined.

(** ** Meshes without facets, copies of objects without mesh *)

Lemma faceless_cube_submesh (om : Mesh.Mesh) (face : _UnitCubeFaceEnum) :
  Mesh.Faces om = [] -> cube_submesh om face = Mesh.Mesh0.
Proof.
  intros H; unfold cube_submesh, cube_facets, Mesh.Facets; rewrite H.
  reflexivity.
Qed.

Lemma faceless_cubic (self : RenderingMesh) (om : Mesh.Mesh)
  (pl : Base.Placement) :
  __originalmesh self = Some om -> __originalplacement self = Some pl ->
  Mesh.Faces om = [] ->
  compute_uvmap None self
  = (OK tt, mkRenderingMesh Mesh.Mesh0 (Some om) (Some pl) (Some [])).
Proof.
  intros Hom Hpl Hf.
  change (compute_uvmap None self) with (_compute_uvmap_cube self).
  rewrite (cube_run self om pl Hom Hpl); unfold cube_mesh, cube_uvmap.
  cbn [_UnitCubeFaceEnum_members map fold_left concat].
  rewrite !(faceless_cube_submesh om _ Hf); reflexivity.
Qed.

Lemma faceless_cylindric (self : RenderingMesh) (om : Mesh.Mesh)
  (pl : Base.Placement) :
  __originalmesh self = Some om -> __originalplacement self = Some pl ->
  Mesh.Faces om = [] ->
  compute_uvmap (Some "Cylindric"%string) self
  = (Raise ZeroDivisionError, self).
Proof.
  intros Hom Hpl Hf.
  change (compute_uvmap (Some "Cylindric"%string) self)
    with (_compute_uvmap_cylinder self).
  rewrite (cylinder_run self om pl Hom Hpl); unfold Mesh.Facets; rewrite Hf.
  cbn [map split_z_normal foldM Mesh.Mesh_of fold_left Mesh.Mesh0 Mesh.Points
       length INR].
  rewrite (proj2 (Reqb_true 0 0) eq_refl); reflexivity.
Qed.

(** X6.  On the object built from a mesh without facets (the empty mesh, or
    points that no facet uses), whatever the placement, the cubic strategy
    returns with the empty mesh and an empty UV map, the points being
    dropped, and the cylindric strategy raises [ZeroDivisionError]. *)
Theorem faceless_mesh_projections (mesh : Mesh.Mesh)
  (uv : option (list Base.Vector2d)) (pl : Base.Placement)
  (self : RenderingMesh) :
  Mesh.Faces mesh = [] ->
  __init__ (Some mesh) uv pl = OK self ->
  (exists self',
      compute_uvmap (Some "Cubic"%string) self = (OK tt, self')
      /\ Points self' = [] /\ uvmap self' = Some [])
  /\ compute_uvmap (Some "Cylindric"%string) self
     = (Raise ZeroDivisionError, self).
Proof.
  intros Hf Hinit; apply init_inv in Hinit; subst self.
  set (om := Mesh.transform (Base.Matrix_of (Base.inverse pl)) mesh).
  split.
  - exists (mkRenderingMesh Mesh.Mesh0 (Some om) (Some pl) (Some [])).
    split; [| split; reflexivity].
    change (compute_uvmap (Some "Cubic"%string)) with (compute_uvmap None).
    apply (faceless_cubic _ om pl); [reflexivity | reflexivity | exact Hf].
  - apply (faceless_cylindric _ om pl); [reflexivity | reflexivity | exact Hf].
Qed.

Lemma faceless_mesh_projections_witness :
  exists self,
    __init__ (Some stray_point_mesh) None turn_x = OK self
    /\ compute_uvmap (Some "Cylindric"%string) self
       = (Raise ZeroDivisionError, self).
Proof.
  eexists.
  assert (H : __init__ (Some stray_point_mesh) None turn_x
              = OK (mkRenderingMesh stray_point_mesh
                      (Some (Mesh.transform
                               (Base.Matrix_of (Base.inverse turn_x))
                               stray_point_mesh))
                      (Some turn_x) None))
    by (apply init_mesh; reflexivity).
  split; [exact H |].
  exact (proj2 (faceless_mesh_projections stray_point_mesh None turn_x _
                  eq_refl H)).
Defined.

(** X7.  The copy of an object built without a mesh is an object built from
    the empty mesh: it has an original mesh, so that the cubic projection,
    which raises [AttributeError] on the object itself, returns on its copy,
    with an empty UV map. *)
Theorem copy_without_mesh (uv : option (list Base.Vector2d))
  (pl : Base.Placement) (self : RenderingMesh) :
  __init__ None uv pl = OK self ->
  compute_uvmap None self = (Raise AttributeError, self)
  /\ exists c self',
      copy self = OK c
      /\ __originalmesh c = Some Mesh.Mesh0
      /\ compute_uvmap None c = (OK tt, self')
      /\ Points self' = [] /\ uvmap self' = Some [].
Proof.
  intros H; inversion H; subst self; clear H; split.
  - apply no_mesh_run; [reflexivity | discriminate].
  - eexists; eexists.
    split; [apply init_Placement0; reflexivity |].
    split; [reflexivity |].
    split; [apply faceless_cubic; reflexivity |].
    split; reflexivity.
Qed.

Lemma copy_without_mesh_witness :
  exists self c,
    __init__ None None Base.Placement0 = OK self
    /\ copy self = OK c
    /\ __originalmesh c = Some Mesh.Mesh0.
Proof.
  eexists.
  destruct (copy_without_mesh None Base.Placement0 _ eq_refl)
    as (_ & c & self' & Hc & Hom & _).
  exists c; split; [reflexivity |]; auto.
Defined.

(** ** How the strategies fail *)

Lemma is_facet_normal_raises (facet : Mesh.Facet) (vector : Base.Vector)
  (e : exn) :
  _is_facet_normal_to_vector facet vector = Raise e -> e = FreeCADError.
Proof.
  unfold _is_facet_normal_to_vector, Base.normalize.
  destruct (Mesh.Facet_Points facet) as [[p1 p2] p3].
  repeat match goal with
         | |- context [Reqb ?a 0] => destruct (Reqb a 0); cbn [rbind]
         end;
    intros H; inversion H; reflexivity.
Qed.

Lemma split_loop_raises (facets acc0 acc1 : list Mesh.Facet)
  (vector : Base.Vector) (e : exn) :
  foldM (fun '(faces0, faces1, z_vector) facet =>
           let* (res, z_vector) :=
             _is_facet_normal_to_vector facet z_vector in
           if res then OK (faces0, faces1 ++ [facet], z_vector)
           else OK (faces0 ++ [facet], faces1, z_vector))
        facets (acc0, acc1, vector)
  = Raise e ->
  e = FreeCADError.
Proof.
  revert acc0 acc1 vector.
  induction facets as [| facet facets IH]; intros acc0 acc1 vector;
    cbn [foldM]; [discriminate |].
  destruct (_is_facet_normal_to_vector facet vector) as [[res v] | e'] eqn:E;
    cbn [rbind].
  - destruct res; apply IH.
  - intros H; inversion H; subst; exact (is_facet_normal_raises _ _ _ E).
Qed.

Lemma split_raises (facets : list Mesh.Facet) (vector : Base.Vector)
  (e : exn) :
  split_z_normal facets vector = Raise e -> e = FreeCADError.
Proof. apply split_loop_raises. Qed.

(** X8.  On an object as the constructor and the methods leave it,
    [compute_uvmap] never raises [AssertionError]; it raises [ValueError]
    exactly for an unsupported kind and [AttributeError] exactly for a
    supported kind on an object built without a mesh; [FreeCADError] can
    only come from the cylindric strategy, [ZeroDivisionError] from the
    spherical and the cylindric ones.  So the cubic strategy cannot fail on
    an object built from a mesh. *)
Theorem compute_uvmap_exceptions (projection : option string)
  (self self' : RenderingMesh) (e : exn) :
  built self ->
  compute_uvmap projection self = (Raise e, self') ->
  e <> AssertionError
  /\ (e = ValueError <-> kind_of projection = None)
  /\ (e = AttributeError <->
      kind_of projection <> None /\ __originalmesh self = None)
  /\ (e = FreeCADError -> kind_of projection = Some Cylindric)
  /\ (e = ZeroDivisionError ->
      kind_of projection = Some Spherical
      \/ kind_of projection = Some Cylindric).
Proof.
  intros [_ Ho].
  assert (Hnone : compute_uvmap None self = _compute_uvmap_cube self)
    by reflexivity.
  destruct projection as [p |]; [| rewrite Hnone];
    unfold compute_uvmap, kind_of; cbv zeta;
    (destruct Ho as [[Hom _] | (om & pl & Hom & Hpl)];
     [ assert (Hc : _compute_uvmap_cube self = (Raise AttributeError, self))
         by (unfold _compute_uvmap_cube, bind, get_originalmesh;
             now rewrite Hom);
       assert (Hs : _compute_uvmap_sphere self = (Raise AttributeError, self))
         by (unfold _compute_uvmap_sphere, bind, get_originalmesh;
             now rewrite Hom);
       assert (Hy : _compute_uvmap_cylinder self
                    = (Raise AttributeError, self))
         by (unfold _compute_uvmap_cylinder, bind, get_originalmesh;
             now rewrite Hom);
       repeat match goal with
              | |- context [String.eqb ?a ?b] => destruct (String.eqb a b)
              end;
       rewrite ?Hc, ?Hs, ?Hy; intros H; inversion H; subst;
       intuition congruence
     | assert (Hsome : __originalmesh self <> None) by congruence;
       repeat match goal with
              | |- context [String.eqb ?a ?b] => destruct (String.eqb a b)
              end;
       rewrite ?(cube_run self om pl Hom Hpl), ?(sphere_run self om Hom),
         ?(cylinder_run self om pl Hom Hpl);
       try (destruct (split_z_normal (Mesh.Facets om) z_axis)
              as [[[f0 f1] zv] | e'] eqn:Hsplit;
            [| apply split_raises in Hsplit; subst e']);
       repeat match goal with
              | |- context [if ?b then _ else _] => destruct b
              end;
       intros H; inversion H; subst; intuition congruence ]).
Qed.

Lemma compute_uvmap_exceptions_witness :
  compute_uvmap (Some "Cylindric"%string)
    (mkRenderingMesh cap_mesh (Some cap_mesh) (Some Base.Placement0) None)
  = (Raise ZeroDivisionError,
     mkRenderingMesh cap_mesh (Some cap_mesh) (Some Base.Placement0) None)
  /\ ZeroDivisionError <> AssertionError.
Proof.
  split; [exact cap_mesh_cylindric |].
  assert (Hb : built (mkRenderingMesh cap_mesh (Some cap_mesh)
                                      (Some Base.Placement0) None)).
  { apply (built_init (Some cap_mesh) None Base.Placement0).
    apply init_Placement0; reflexivity. }
  exact (proj1 (compute_uvmap_exceptions _ _ _ _ Hb cap_mesh_cylindric)).
Defined.

(** ** The helpers of the cubic strategy *)

Lemma facet_cross_shifted (t : Base.Vector) (facet : Mesh.Facet) :
  facet_cross (shifted t facet) = facet_cross facet.
Proof.
  unfold facet_cross, shifted.
  destruct (Mesh.Facet_Points facet) as [[p1 p2] p3]; cbn [Mesh.Facet_Points].
  unfold Base.cross, Base.sub, Base.add; cbn [Base.x Base.y Base.z].
  f_equal; ring.
Qed.

Lemma intersect_facet_cross (facet : Mesh.Facet) :
  _intersect_unitcube_face (Mesh.Facet_Normal facet)
  = _intersect_unitcube_face (facet_cross facet).
Proof.
  rewrite intersect_Facet_Normal; unfold facet_cross.
  now destruct (Mesh.Facet_Points facet) as [[p1 p2] p3].
Qed.

(** X9.  The classifier reads a direction only: it gives back the face of
    each normal of the table, the normal of the face it returns is the one
    of the table closest to the direction (greatest dot product), dividing
    the direction by a positive number changes nothing, and the face of a
    facet is the face of the cross product of its edges, so it does not
    change when the facet is moved. *)
Theorem intersect_unitcube_face_direction (d : Base.Vector) (k : R)
  (facet : Mesh.Facet) (t : Base.Vector) :
  0 < k ->
  (forall f, _intersect_unitcube_face (_UNIT_CUBE_FACES_NORMALS f) = f)
  /\ (forall f,
        Base.dot d (_UNIT_CUBE_FACES_NORMALS f)
        <= Base.dot d (_UNIT_CUBE_FACES_NORMALS (_intersect_unitcube_face d)))
  /\ _intersect_unitcube_face (Base.div d k) = _intersect_unitcube_face d
  /\ _intersect_unitcube_face (Mesh.Facet_Normal facet)
     = _intersect_unitcube_face (facet_cross facet)
  /\ _intersect_unitcube_face (Mesh.Facet_Normal (shifted t facet))
     = _intersect_unitcube_face (Mesh.Facet_Normal facet).
Proof.
  intros Hk; repeat split.
  - intros f; destruct f;
      cbv [_UNIT_CUBE_FACES_NORMALS _intersect_unitcube_face
           Base.x Base.y Base.z];
      r_eval; reflexivity.
  - intros f; destruct d as [a b c].
    unfold _intersect_unitcube_face; cbn [Base.x Base.y Base.z].
    destruct (Rabs_cases a) as [[? Ha] | [? Ha]];
      destruct (Rabs_cases b) as [[? Hb] | [? Hb]];
      destruct (Rabs_cases c) as [[? Hc] | [? Hc]];
      rewrite Ha, Hb, Hc;
      repeat match goal with
             | |- context [Rgeb ?u ?v] =>
                 let E := fresh "E" in
                 destruct (Rgeb u v) eqn:E;
                 [apply Rgeb_true in E | apply Rgeb_false in E]
             end;
      cbn [andb]; destruct f;
      cbv [_UNIT_CUBE_FACES_NORMALS Base.dot Base.x Base.y Base.z]; lra.
  - apply intersect_unitcube_face_div, Hk.
  - apply intersect_facet_cross.
  - now rewrite !intersect_facet_cross, facet_cross_shifted.
Qed.

Lemma intersect_unitcube_face_direction_witness :
  0 < 2
  /\ _intersect_unitcube_face (Base.div (Base.mkVector 1 (-3) 2) 2)
     = _intersect_unitcube_face (Base.mkVector 1 (-3) 2).
Proof.
  split; [lra |].
  apply (intersect_unitcube_face_direction (Base.mkVector 1 (-3) 2) 2
           (Mesh.mkFacet (Mesh.origin, Mesh.origin, Mesh.origin))
           Mesh.origin).
  lra.
Defined.

Lemma facet_cross_reversed (facet : Mesh.Facet) :
  facet_cross (reversed facet)
  = Base.sub Mesh.origin (facet_cross facet).
Proof.
  unfold facet_cross, reversed.
  destruct (Mesh.Facet_Points facet) as [[p1 p2] p3]; cbn [Mesh.Facet_Points].
  unfold Base.cross, Base.sub, Mesh.origin; cbn [Base.x Base.y Base.z].
  f_equal; ring.
Qed.

Lemma intersect_opposite (d : Base.Vector) :
  d <> Mesh.origin ->
  _intersect_unitcube_face (Base.sub Mesh.origin d)
  = opposite (_intersect_unitcube_face d).
Proof.
  destruct d as [a b c]; intros Hd.
  assert (Hnz : a <> 0 \/ b <> 0 \/ c <> 0).
  { destruct (Req_dec_T a 0) as [-> |]; [| tauto].
    destruct (Req_dec_T b 0) as [-> |]; [| tauto].
    destruct (Req_dec_T c 0) as [-> |]; [| tauto].
    exfalso; apply Hd; reflexivity. }
  unfold _intersect_unitcube_face, Base.sub, Mesh.origin;
    cbn [Base.x Base.y Base.z].
  replace (0 - a) with (- a) by ring; replace (0 - b) with (- b) by ring;
    replace (0 - c) with (- c) by ring.
  rewrite !Rabs_Ropp.
  destruct (Rabs_cases a) as [[? Ha] | [? Ha]];
    destruct (Rabs_cases b) as [[? Hb] | [? Hb]];
    destruct (Rabs_cases c) as [[? Hc] | [? Hc]];
    rewrite Ha, Hb, Hc;
    repeat match goal with
           | |- context [Rgeb ?u ?v] =>
               let E := fresh "E" in
               destruct (Rgeb u v) eqn:E;
               [apply Rgeb_true in E | apply Rgeb_false in E]
           end;
    cbn [andb opposite]; try reflexivity; exfalso; lra.
Qed.

(** X10.  Reversing the winding of a facet that has an area sends it to the
    opposite face of the cube; a facet without area (null cross product) is
    sent to +X whatever its winding. *)
Theorem reversed_facet_face (facet : Mesh.Facet) :
  _intersect_unitcube_face (Mesh.Facet_Normal (reversed facet))
  = if Base.Vector_eq_dec (facet_cross facet) Mesh.origin then XPLUS
    else opposite (_intersect_unitcube_face (Mesh.Facet_Normal facet)).
Proof.
  rewrite !intersect_facet_cross, facet_cross_reversed.
  destruct (Base.Vector_eq_dec (facet_cross facet) Mesh.origin) as [E | E].
  - rewrite E; cbv [_intersect_unitcube_face Base.sub Mesh.origin
                    Base.x Base.y Base.z].
    r_eval; reflexivity.
  - apply intersect_opposite, E.
Qed.

(** X11.  [_compute_uv_from_unitcube] is, for each face, the orthogonal
    projection along the axis of the face: moving the point along the normal
    of the face does not change its UV coordinate, and the square of the
    distance between the UV coordinates of two points is the square of their
    distance less the square of their difference along the axis. *)
Theorem compute_uv_from_unitcube_projection (face : _UnitCubeFaceEnum)
  (p q : Base.Vector) (h : R) :
  dist2d_sqr (_compute_uv_from_unitcube p face)
             (_compute_uv_from_unitcube q face)
  = Base.dot (Base.sub p q) (Base.sub p q)
    - component (face_axis face) (Base.sub p q)
      * component (face_axis face) (Base.sub p q)
  /\ _compute_uv_from_unitcube
       (Base.add p (scaled h (_UNIT_CUBE_FACES_NORMALS face))) face
     = _compute_uv_from_unitcube p face.
Proof.
  split.
  - destruct p, q, face;
      cbv [dist2d_sqr _compute_uv_from_unitcube face_eqb Base.x2d Base.y2d
           Base.dot Base.sub component face_axis Base.x Base.y Base.z];
      ring.
  - destruct p, face;
      cbv [_compute_uv_from_unitcube face_eqb Base.add scaled
           _UNIT_CUBE_FACES_NORMALS Base.x Base.y Base.z];
      f_equal; ring.
Qed.

(** ** The barycenter and the spherical strategy *)

Lemma Rsum_shift (proj : Base.Vector -> R) (t : Base.Vector)
  (points : list Base.Vector) :
  (forall p, proj (Base.add p t) = proj p + proj t) ->
  Rsum (map proj (map (fun p => Base.add p t) points))
  = Rsum (map proj points) + INR (length points) * proj t.
Proof.
  intros Hproj; unfold Rsum; induction points as [| p points IH].
  - cbn; ring.
  - change (length (p :: points)) with (S (length points)); rewrite S_INR.
    cbn [map fold_right]; rewrite IH, Hproj; ring.
Qed.

Lemma compute_barycenter_shift (t : Base.Vector) (points : list Base.Vector) :
  points <> [] ->
  _compute_barycenter (map (fun p => Base.add p t) points)
  = Base.add (_compute_barycenter points) t.
Proof.
  intros Hne.
  assert (Hn : INR (length points) <> 0).
  { destruct points; [congruence |].
    apply not_0_INR; cbn [length]; lia. }
  rewrite !compute_barycenter_mean;
    [| exact Hne | destruct points; [congruence | discriminate]].
  unfold mean_position; rewrite length_map.
  rewrite !Rsum_shift by (intros []; reflexivity).
  destruct t as [a b c]; unfold Base.add; cbn [Base.x Base.y Base.z].
  f_equal; field; exact Hn.
Qed.

Lemma Rsum_bounds (l : list R) (lo hi : R) :
  Forall (fun a => lo <= a <= hi) l ->
  INR (length l) * lo <= Rsum l <= INR (length l) * hi.
Proof.
  unfold Rsum; induction 1 as [| a l Ha Hl IH].
  - cbn; lra.
  - change (length (a :: l)) with (S (length l)); rewrite S_INR.
    cbn [fold_right]; lra.
Qed.

(** X12.  The barycenter of points that are there moves with the points,
    and each of its coordinates lies between the least and the greatest of
    the points' (over real numbers). *)
Theorem compute_barycenter_inside (points : list Base.Vector)
  (t : Base.Vector) (a : axis) (lo hi : R) :
  points <> [] ->
  Forall (fun p => lo <= component a p <= hi) points ->
  _compute_barycenter (map (fun p => Base.add p t) points)
  = Base.add (_compute_barycenter points) t
  /\ lo <= component a (_compute_barycenter points) <= hi.
Proof.
  intros Hne Hb; split; [apply compute_barycenter_shift, Hne |].
  assert (Hn : 0 < INR (length points)).
  { destruct points; [congruence |].
    apply lt_0_INR; cbn [length]; lia. }
  rewrite compute_barycenter_mean by exact Hne.
  assert (Hi : 0 < / INR (length points)) by (apply Rinv_0_lt_compat, Hn).
  assert (Hone : INR (length points) * / INR (length points) = 1)
    by (apply Rinv_r; lra).
  assert (Hs : forall proj : Base.Vector -> R,
             Forall (fun p => lo <= proj p <= hi) points ->
             lo <= Rsum (map proj points) / INR (length points) <= hi).
  { intros proj Hp.
    assert (Hs : INR (length points) * lo <= Rsum (map proj points)
                 <= INR (length points) * hi).
    { rewrite <- (length_map proj points).
      apply Rsum_bounds, Forall_map, Hp. }
    split; apply Rmult_le_reg_r with (INR (length points)); try exact Hn;
      replace (Rsum (map proj points) / INR (length points)
               * INR (length points))
        with (Rsum (map proj points)) by (field; lra);
      lra. }
  unfold mean_position; destruct a; cbn [component Base.x Base.y Base.z];
    apply Hs, Hb.
Qed.

Lemma compute_barycenter_inside_witness :
  Mesh.Points corner_mesh <> []
  /\ 0 <= component AxisX (_compute_barycenter (Mesh.Points corner_mesh)) <= 1.
Proof.
  split; [discriminate |].
  apply (compute_barycenter_inside (Mesh.Points corner_mesh) Mesh.origin
           AxisX 0 1); [discriminate |].
  cbn [corner_mesh Mesh.Points]; repeat constructor; cbn; lra.
Defined.

Lemma sub_shift (p o d : Base.Vector) :
  Base.sub (Base.add p d) (Base.add o d) = Base.sub p o.
Proof.
  destruct p, o, d; unfold Base.sub, Base.add; cbn [Base.x Base.y Base.z].
  f_equal; ring.
Qed.

Lemma sphere_uv_shift (o p d : Base.Vector) :
  sphere_uv (Base.add o d) (Base.add p d) = sphere_uv o p.
Proof. unfold sphere_uv; rewrite sub_shift; reflexivity. Qed.

(** The spherical computation on points all moved by the same vector. *)
Lemma sphere_points_shift (d : Base.Vector) (points : list Base.Vector) :
  let shift := fun p => Base.add p d in
  forallb (fun p => negb (Reqb (Base.Length
             (Base.sub p (_compute_barycenter (map shift points)))) 0))
          (map shift points)
  = forallb (fun p => negb (Reqb (Base.Length
               (Base.sub p (_compute_barycenter points))) 0))
            points
  /\ map (sphere_uv (_compute_barycenter (map shift points)))
         (map shift points)
     = map (sphere_uv (_compute_barycenter points)) points.
Proof.
  intros shift; destruct points as [| q points]; [split; reflexivity |].
  unfold shift; rewrite compute_barycenter_shift by discriminate.
  generalize (_compute_barycenter (q :: points)); intros o.
  generalize (q :: points); intros l; split.
  - induction l as [| p l IH]; [reflexivity |].
    cbn [map forallb]; rewrite IH, sub_shift; reflexivity.
  - rewrite map_map; apply map_ext; intros p; apply sphere_uv_shift.
Qed.

Lemma inverse_moved_to (t : Base.Vector) (pl : Base.Placement)
  (p : Base.Vector) :
  Base.multVec (Base.Matrix_of (Base.inverse (moved_to t pl))) p
  = Base.add (Base.multVec (Base.Matrix_of (Base.inverse pl)) p)
      (Base.sub (Base.Position (Base.inverse (moved_to t pl)))
                (Base.Position (Base.inverse pl))).
Proof.
  destruct pl as [pos r1 r2 r3], p, t.
  cbv [Base.multVec Base.Matrix_of Base.inverse moved_to Base.add Base.sub
       Base.dot Base.Position Base.Row1 Base.Row2 Base.Row3
       Base.x Base.y Base.z Base.A11 Base.A12 Base.A13 Base.A14 Base.A21
       Base.A22 Base.A23 Base.A24 Base.A31 Base.A32 Base.A33 Base.A34].
  f_equal; ring.
Qed.

(** X13.  The spherical strategy does not depend on the position of the
    placement given to the constructor: two objects built from the same mesh
    with placements that differ by their position only get the same outcome
    and the same UV map (over real numbers). *)
Theorem spherical_ignores_position (mesh : Mesh.Mesh)
  (uv : option (list Base.Vector2d)) (pl : Base.Placement) (t : Base.Vector)
  (self1 self2 : RenderingMesh) :
  __init__ (Some mesh) uv pl = OK self1 ->
  __init__ (Some mesh) uv (moved_to t pl) = OK self2 ->
  fst (compute_uvmap (Some "Spherical"%string) self1)
  = fst (compute_uvmap (Some "Spherical"%string) self2)
  /\ uvmap (snd (compute_uvmap (Some "Spherical"%string) self1))
     = uvmap (snd (compute_uvmap (Some "Spherical"%string) self2)).
Proof.
  intros H1 H2; apply init_inv in H1, H2; subst self1 self2.
  change (compute_uvmap (Some "Spherical"%string)) with _compute_uvmap_sphere.
  set (om1 := Mesh.transform (Base.Matrix_of (Base.inverse pl)) mesh).
  set (om2 := Mesh.transform
                (Base.Matrix_of (Base.inverse (moved_to t pl))) mesh).
  rewrite (sphere_run (mkRenderingMesh mesh (Some om1) (Some pl) uv) om1
             eq_refl),
    (sphere_run (mkRenderingMesh mesh (Some om2) (Some (moved_to t pl)) uv)
       om2 eq_refl).
  cbv zeta; unfold om1, om2; rewrite !Points_transform.
  rewrite (map_ext _ _ (inverse_moved_to t pl)).
  rewrite <- (map_map (Base.multVec (Base.Matrix_of (Base.inverse pl)))
                (fun p => Base.add p _)).
  match goal with
  | |- context [map (fun p => Base.add p ?d) ?l] =>
      destruct (sphere_points_shift d l) as [Hb Hm]
  end.
  cbv zeta in Hb, Hm; rewrite Hb, Hm; clear Hb Hm.
  match goal with |- context [forallb ?f ?l] => destruct (forallb f l) end;
    split; reflexivity.
Qed.

Lemma spherical_ignores_position_witness :
  exists self1 self2,
    __init__ (Some corner_mesh) None Base.Placement0 = OK self1
    /\ __init__ (Some corner_mesh) None
         (moved_to (Base.mkVector 10 20 30) Base.Placement0) = OK self2
    /\ fst (compute_uvmap (Some "Spherical"%string) self1)
       = fst (compute_uvmap (Some "Spherical"%string) self2).
Proof.
  eexists; eexists; split; [| split].
  - apply init_mesh; reflexivity.
  - apply init_mesh; reflexivity.
  - apply (spherical_ignores_position corner_mesh None Base.Placement0
             (Base.mkVector 10 20 30));
      apply init_mesh; reflexivity.
Defined.

Lemma Length_sub_zero (p o : Base.Vector) :
  Base.Length (Base.sub p o) = 0 <-> p = o.
Proof.
  split.
  - intros H; apply Length_zero in H.
    destruct p, o; unfold Base.sub in H; cbn in H; inversion H; f_equal; lra.
  - intros ->; apply Length_eq; [lra |].
    destruct o; unfold Base.dot, Base.sub; cbn; ring.
Qed.

Lemma forallb_away (o : Base.Vector) (points : list Base.Vector) :
  forallb (fun p => negb (Reqb (Base.Length (Base.sub p o)) 0)) points = false
  <-> In o points.
Proof.
  induction points as [| p points IH]; cbn [forallb In].
  - split; [discriminate | tauto].
  - destruct (Reqb (Base.Length (Base.sub p o)) 0) eqn:E; cbn [negb andb].
    + apply Reqb_true, Length_sub_zero in E; tauto.
    + apply Reqb_false in E; rewrite IH; split; [tauto |].
      intros [-> | H]; [| exact H].
      exfalso; apply E, Length_sub_zero; reflexivity.
Qed.

(** X14.  Over real numbers (the barycenter being the exact mean of the
    points), on an object that has an original mesh, the spherical strategy
    raises [ZeroDivisionError] exactly when the barycenter of the points is
    one of the points, and returns otherwise. *)
Theorem spherical_fails_at_barycenter (self : RenderingMesh) (om : Mesh.Mesh) :
  __originalmesh self = Some om ->
  (compute_uvmap (Some "Spherical"%string) self
   = (Raise ZeroDivisionError, self)
   <-> In (_compute_barycenter (Mesh.Points om)) (Mesh.Points om))
  /\ ((exists self',
         compute_uvmap (Some "Spherical"%string) self = (OK tt, self'))
      <-> ~ In (_compute_barycenter (Mesh.Points om)) (Mesh.Points om)).
Proof.
  intros Hom.
  change (compute_uvmap (Some "Spherical"%string)) with _compute_uvmap_sphere.
  rewrite (sphere_run self om Hom); cbv zeta.
  rewrite <- forallb_away.
  destruct (forallb _ (Mesh.Points om)); split; split;
    try discriminate; try congruence; eauto.
  - intros [self' H]; discriminate.
Qed.

Lemma spherical_fails_at_barycenter_witness :
  In (_compute_barycenter (Mesh.Points collapsed_mesh))
     (Mesh.Points collapsed_mesh).
Proof.
  apply (spherical_fails_at_barycenter
           (mkRenderingMesh collapsed_mesh (Some collapsed_mesh)
              (Some Base.Placement0) None)
           collapsed_mesh eq_refl).
  apply collapsed_mesh_spherical.
Defined.

(** ** The helper and the outcome of the cylindric strategy *)

Lemma Length_sub_pos (p q : Base.Vector) :
  p <> q -> 0 < Base.Length (Base.sub p q).
Proof.
  intros Hne; pose proof (Length_nonneg (Base.sub p q)) as H.
  destruct (Req_dec_T (Base.Length (Base.sub p q)) 0) as [E | E]; [| lra].
  apply Length_sub_zero in E; contradiction.
Qed.

Lemma Rleb_slope (a l : R) :
  0 < l -> (Rleb (Rabs (a / l)) 1e-5 = true <-> Rabs a <= 1e-5 * l).
Proof.
  intros Hl; rewrite Rleb_true, Rabs_div_pos by exact Hl.
  assert (Hi : 0 < / l) by (apply Rinv_0_lt_compat, Hl).
  assert (Hone : l * / l = 1) by (apply Rinv_r; lra).
  unfold Rdiv; split; intros H.
  - apply Rmult_le_reg_r with (/ l); [exact Hi |].
    rewrite Rmult_assoc, Hone; lra.
  - apply Rmult_le_compat_r with (r := / l) in H; [| lra].
    rewrite Rmult_assoc, Hone in H; lra.
Qed.

(** X15.  Against the Z axis, the test of [_is_facet_normal_to_vector] on a
    facet whose two edges from its first point have a direction returns, and
    reads the heights only: it holds exactly when the rise of each of these
    two edges is within 1e-5 of its length.  A facet with its three points
    at the same height passes it, a facet whose first edge is vertical does
    not. *)
Theorem is_facet_normal_to_z_coordinates (p1 p2 p3 : Base.Vector) :
  p2 <> p1 -> p3 <> p1 ->
  exists res,
    _is_facet_normal_to_vector (Mesh.mkFacet (p1, p2, p3)) z_axis
    = OK (res, z_axis)
    /\ (res = true <->
        Rabs (Base.z p2 - Base.z p1) <= 1e-5 * Base.Length (Base.sub p2 p1)
        /\ Rabs (Base.z p3 - Base.z p1)
           <= 1e-5 * Base.Length (Base.sub p3 p1))
    /\ (level_facet (Mesh.mkFacet (p1, p2, p3)) -> res = true)
    /\ (Base.x p2 = Base.x p1 /\ Base.y p2 = Base.y p1 -> res = false).
Proof.
  intros H2 H3.
  pose proof (Length_sub_pos p2 p1 H2) as Hl1.
  pose proof (Length_sub_pos p3 p1 H3) as Hl2.
  eexists; split; [| split; [| split]].
  - apply (is_facet_normal_z p1 p2 p3 _ _ Hl1 (Length_sqr _) Hl2
             (Length_sqr _)).
  - rewrite andb_true_iff, !Rleb_slope by assumption.
    destruct p1, p2, p3; cbn [Base.sub Base.z]; reflexivity.
  - unfold level_facet; cbn [Mesh.Facet_Points]; intros [E2 E3].
    rewrite andb_true_iff, !Rleb_slope by assumption.
    destruct p1, p2, p3; cbn [Base.sub Base.z] in *; subst.
    rewrite !Rminus_diag, Rabs_R0; lra.
  - intros [Ex Ey]; apply andb_false_iff; left.
    destruct (Rleb _ _) eqn:E; [| reflexivity].
    apply Rleb_slope in E; [| exact Hl1]; exfalso.
    pose proof (Length_sqr (Base.sub p2 p1)) as Hsq.
    revert Hl1 E Hsq; generalize (Base.Length (Base.sub p2 p1)); intros l.
    destruct p1, p2; unfold Base.dot, Base.sub;
      cbn [Base.x Base.y Base.z] in *; subst.
    intros Hl1 E Hsq.
    match type of E with
    | Rabs ?a <= _ => destruct (Rabs_cases a) as [[? Ha] | [? Ha]];
                      rewrite Ha in E
    end; nra.
Qed.

Lemma is_facet_normal_to_z_coordinates_witness :
  exists res,
    _is_facet_normal_to_vector
      (Mesh.mkFacet (Base.mkVector 0 0 0, Base.mkVector 1 0 0,
                     Base.mkVector 0 1 0)) z_axis
    = OK (res, z_axis).
Proof.
  destruct (is_facet_normal_to_z_coordinates
              (Base.mkVector 0 0 0) (Base.mkVector 1 0 0)
              (Base.mkVector 0 1 0)) as [res [H _]].
  - intros E; injection E; intros; lra.
  - intros E; injection E; intros; lra.
  - exists res; exact H.
Defined.

Lemma proper_facet_dec (facet : Mesh.Facet) :
  {proper_facet facet} + {~ proper_facet facet}.
Proof.
  unfold proper_facet; destruct (Mesh.Facet_Points facet) as [[p1 p2] p3].
  destruct (Base.Vector_eq_dec p2 p1); [right; tauto |].
  destruct (Base.Vector_eq_dec p3 p1); [right; tauto | left; tauto].
Qed.

Lemma normalize_ok_nonzero (p q e : Base.Vector) :
  Base.normalize (Base.sub p q) = OK e -> p <> q.
Proof.
  unfold Base.normalize.
  destruct (Reqb (Base.Length (Base.sub p q)) 0) eqn:E; [discriminate |].
  intros _ ->; apply Reqb_false in E; apply E, Length_sub_zero; reflexivity.
Qed.

Lemma is_facet_normal_ok_proper (facet : Mesh.Facet) (vector : Base.Vector)
  (r : bool * Base.Vector) :
  _is_facet_normal_to_vector facet vector = OK r -> proper_facet facet.
Proof.
  unfold _is_facet_normal_to_vector, proper_facet.
  destruct (Mesh.Facet_Points facet) as [[p1 p2] p3].
  destruct (Base.normalize (Base.sub p2 p1)) as [e1 |] eqn:E1;
    [| discriminate].
  destruct (Base.normalize (Base.sub p3 p1)) as [e2 |] eqn:E2;
    [| discriminate].
  intros _; split; eapply normalize_ok_nonzero; eassumption.
Qed.

Lemma axis_normal_proper (facet : Mesh.Facet) (axis : Base.Vector) :
  axis_normal facet axis -> proper_facet facet.
Proof.
  unfold axis_normal, proper_facet.
  destruct (Mesh.Facet_Points facet) as [[p1 p2] p3].
  intros (e1 & e2 & a & E1 & E2 & _).
  split; eapply normalize_ok_nonzero; eassumption.
Qed.

Lemma split_loop_proper (facets acc0 acc1 : list Mesh.Facet)
  (vector : Base.Vector)
  (r : list Mesh.Facet * list Mesh.Facet * Base.Vector) :
  foldM (fun '(faces0, faces1, z_vector) facet =>
           let* (res, z_vector) :=
             _is_facet_normal_to_vector facet z_vector in
           if res then OK (faces0, faces1 ++ [facet], z_vector)
           else OK (faces0 ++ [facet], faces1, z_vector))
        facets (acc0, acc1, vector)
  = OK r ->
  Forall proper_facet facets.
Proof.
  revert acc0 acc1 vector; induction facets as [| facet facets IH];
    intros acc0 acc1 vector; cbn [foldM]; [constructor |].
  destruct (_is_facet_normal_to_vector facet vector) as [[res v'] |] eqn:E;
    [| discriminate].
  apply is_facet_normal_ok_proper in E.
  cbn [rbind]; destruct res; intros H; apply IH in H; constructor; assumption.
Qed.

Lemma split_z_normal_proper (facets : list Mesh.Facet)
  (r : list Mesh.Facet * list Mesh.Facet * Base.Vector) :
  split_z_normal facets z_axis = OK r -> Forall proper_facet facets.
Proof. apply split_loop_proper. Qed.

Lemma add_point_nonempty (pts : list Base.Vector) (q : Base.Vector) :
  fst (Mesh.add_point pts q) <> [].
Proof.
  unfold Mesh.add_point; destruct (Mesh.index_of q pts) eqn:E; cbn [fst].
  - destruct pts; [discriminate | discriminate].
  - destruct pts; discriminate.
Qed.

Lemma addFacet_nonempty (m : Mesh.Mesh) (facet : Mesh.Facet) :
  Mesh.Points (Mesh.addFacet m facet) <> [].
Proof.
  unfold Mesh.addFacet.
  destruct (Mesh.Facet_Points facet) as [[p1 p2] p3].
  destruct (Mesh.add_point (Mesh.Points m) p1) as [pts1 i].
  destruct (Mesh.add_point pts1 p2) as [pts2 j].
  pose proof (add_point_nonempty pts2 p3) as H.
  destruct (Mesh.add_point pts2 p3) as [pts3 k]; exact H.
Qed.

Lemma fold_addFacet_nonempty (facets : list Mesh.Facet) (m : Mesh.Mesh) :
  Mesh.Points m <> [] ->
  Mesh.Points (fold_left Mesh.addFacet facets m) <> [].
Proof.
  revert m; induction facets as [| facet facets IH]; intros m Hm;
    cbn [fold_left]; [exact Hm |].
  apply IH, addFacet_nonempty.
Qed.

Lemma Mesh_of_nonempty (facets : list Mesh.Facet) :
  Mesh.Points (Mesh.Mesh_of facets) = [] <-> facets = [].
Proof.
  split; [| intros ->; reflexivity].
  destruct facets as [| facet facets]; [reflexivity |].
  unfold Mesh.Mesh_of; cbn [fold_left]; intros H; exfalso; revert H.
  apply fold_addFacet_nonempty, addFacet_nonempty.
Qed.

Lemma Reqb_INR_length {A : Type} (l : list A) :
  Reqb (INR (length l)) 0 = true <-> l = [].
Proof.
  rewrite Reqb_true; split; [| intros ->; reflexivity].
  destruct l; [reflexivity |].
  intros H; exfalso; revert H; apply not_0_INR; discriminate.
Qed.

Ltac outcome_case :=
  repeat match goal with
         | H : exists _, _ |- _ => destruct H
         | H : _ /\ _ |- _ => destruct H
         end;
  try discriminate; try tauto; eauto.

(** X16.  The outcome of the cylindric strategy, read off the facets of the
    original mesh: it raises the host's error exactly when a facet has a
    null edge from its first point, it raises [ZeroDivisionError] exactly
    when every facet is normal to the Z axis (in particular when there is no
    facet), and it returns exactly when every facet has its two edges and
    one of them is not normal to the Z axis.  In both failures the object is
    left as it was. *)
Theorem cylindric_outcome (self : RenderingMesh) (om : Mesh.Mesh)
  (pl : Base.Placement) :
  __originalmesh self = Some om ->
  __originalplacement self = Some pl ->
  (compute_uvmap (Some "Cylindric"%string) self = (Raise FreeCADError, self)
   <-> Exists (fun facet => ~ proper_facet facet) (Mesh.Facets om))
  /\ (compute_uvmap (Some "Cylindric"%string) self
      = (Raise ZeroDivisionError, self)
      <-> Forall (fun facet => axis_normal facet z_axis) (Mesh.Facets om))
  /\ ((exists self',
         compute_uvmap (Some "Cylindric"%string) self = (OK tt, self'))
      <-> Forall proper_facet (Mesh.Facets om)
          /\ Exists (fun facet => ~ axis_normal facet z_axis)
                    (Mesh.Facets om)).
Proof.
  intros Hom Hpl.
  change (compute_uvmap (Some "Cylindric"%string))
    with _compute_uvmap_cylinder.
  rewrite (cylinder_run self om pl Hom Hpl).
  rewrite (Exists_Forall_neg proper_facet)
    by (intros f; destruct (proper_facet_dec f); tauto).
  destruct (split_z_normal (Mesh.Facets om) z_axis)
    as [[[f0 f1] zv] | e] eqn:Hs.
  - pose proof (split_z_normal_proper _ _ Hs) as Hproper.
    apply split_z_normal_spec in Hs as (_ & Hperm & H0 & H1).
    assert (Hiff : f0 = []
                   <-> Forall (fun facet => axis_normal facet z_axis)
                              (Mesh.Facets om)).
    { split.
      - intros ->; cbn [app] in Hperm.
        rewrite Forall_forall in *; intros f Hf; apply H1.
        eapply Permutation_in; [apply Permutation_sym, Hperm | exact Hf].
      - intros Hall; destruct f0 as [| f f0]; [reflexivity |].
        exfalso; inversion H0 as [| ? ? Hn _]; subst; apply Hn.
        rewrite Forall_forall in Hall; apply Hall.
        eapply Permutation_in; [exact Hperm | left; reflexivity]. }
    assert (Hex : f0 <> []
                  <-> Exists (fun facet => ~ axis_normal facet z_axis)
                             (Mesh.Facets om)).
    { rewrite Hiff; split.
      - intros Hn; destruct f0 as [| f f0]; [tauto |].
        apply Exists_exists; exists f; split.
        + eapply Permutation_in; [exact Hperm | left; reflexivity].
        + inversion H0; assumption.
      - intros Hx Hall; apply Exists_exists in Hx as (f & Hf & Hn).
        rewrite Forall_forall in Hall; auto. }
    destruct (Reqb (INR (length (Mesh.Points (Mesh.Mesh_of f0)))) 0) eqn:E.
    + apply Reqb_INR_length, Mesh_of_nonempty in E.
      repeat split; intros; outcome_case.
    + assert (Hne : f0 <> []).
      { intros ->; rewrite (proj2 (Reqb_INR_length _)) in E by reflexivity.
        discriminate. }
      repeat split; intros; outcome_case.
  - pose proof (split_raises _ _ _ Hs) as He; subst e.
    assert (Hn : ~ Forall proper_facet (Mesh.Facets om)).
    { intros Hall; destruct (split_total _ [] [] Hall) as (f0 & f1 & H).
      unfold split_z_normal in Hs; rewrite H in Hs; discriminate. }
    assert (Hn' : ~ Forall (fun facet => axis_normal facet z_axis)
                      (Mesh.Facets om)).
    { intros Hall; apply Hn.
      eapply Forall_impl; [| exact Hall]; intros f; apply axis_normal_proper. }
    repeat split; intros; outcome_case.
Qed.

Lemma cylindric_outcome_witness :
  Forall (fun facet => axis_normal facet z_axis) (Mesh.Facets cap_mesh).
Proof.
  apply (cylindric_outcome
           (mkRenderingMesh cap_mesh (Some cap_mesh) (Some Base.Placement0)
              None)
           cap_mesh Base.Placement0 eq_refl eq_refl).
  apply cap_mesh_cylindric.
Defined.

(** ** The facets of the recomputed mesh *)

Lemma index_of_nth (p : Base.Vector) (pts : list Base.Vector) (i : nat) :
  Mesh.index_of p pts = Some i ->
  (i < length pts)%nat /\ nth i pts Mesh.origin = p.
Proof.
  revert i; induction pts as [| q pts IH]; intros i; cbn [Mesh.index_of];
    [discriminate |].
  destruct (Base.Vector_eq_dec p q) as [-> | Hne].
  - intros H; inversion H; subst; cbn; split; [lia | reflexivity].
  - destruct (Mesh.index_of p pts) as [j |]; [| discriminate].
    intros H; inversion H; subst; destruct (IH j eq_refl) as [Hl Hn].
    cbn [length nth]; split; [lia | exact Hn].
Qed.

Lemma add_point_spec (pts : list Base.Vector) (q : Base.Vector) :
  exists ext,
    fst (Mesh.add_point pts q) = pts ++ ext
    /\ (snd (Mesh.add_point pts q) < length (pts ++ ext))%nat
    /\ nth (snd (Mesh.add_point pts q)) (pts ++ ext) Mesh.origin = q.
Proof.
  unfold Mesh.add_point; destruct (Mesh.index_of q pts) as [i |] eqn:E;
    cbn [fst snd].
  - exists []; rewrite app_nil_r; split; [reflexivity |].
    apply index_of_nth, E.
  - exists [q]; split; [reflexivity |]; rewrite length_app; cbn [length].
    split; [lia |].
    rewrite app_nth2, Nat.sub_diag by lia; reflexivity.
Qed.

Lemma nth_app_left (pts ext : list Base.Vector) (i : nat) :
  (i < length pts)%nat ->
  nth i (pts ++ ext) Mesh.origin = nth i pts Mesh.origin.
Proof. intros H; apply app_nth1, H. Qed.

Lemma Facets_extend (pts ext : list Base.Vector)
  (faces : list (nat * nat * nat)) (pl pl' : Base.Placement) :
  indexed (Mesh.mkMesh pts faces pl) ->
  Mesh.Facets (Mesh.mkMesh (pts ++ ext) faces pl')
  = Mesh.Facets (Mesh.mkMesh pts faces pl).
Proof.
  unfold indexed, Mesh.Facets; cbn [Mesh.Points Mesh.Faces].
  induction 1 as [| [[i j] k] faces (Hi & Hj & Hk) _ IH]; [reflexivity |].
  cbn [map]; rewrite IH, !nth_app_left by assumption; reflexivity.
Qed.

Lemma indexed_extend (pts ext : list Base.Vector)
  (faces : list (nat * nat * nat)) (pl pl' : Base.Placement) :
  indexed (Mesh.mkMesh pts faces pl) ->
  indexed (Mesh.mkMesh (pts ++ ext) faces pl').
Proof.
  unfold indexed; cbn [Mesh.Points Mesh.Faces]; intros H.
  eapply Forall_impl; [| exact H]; intros [[i j] k]; rewrite length_app; lia.
Qed.

(** One facet more: the facet objects of the mesh are those it had, then
    the new one. *)
Lemma addFacet_Facets (m : Mesh.Mesh) (facet : Mesh.Facet) :
  indexed m ->
  indexed (Mesh.addFacet m facet)
  /\ Mesh.Facets (Mesh.addFacet m facet) = Mesh.Facets m ++ [facet].
Proof.
  destruct m as [pts faces pl], facet as [[[p1 p2] p3]]; intros Hm.
  unfold Mesh.addFacet; cbn [Mesh.Facet_Points Mesh.Points Mesh.Faces
                             Mesh.Placement].
  destruct (add_point_spec pts p1) as (e1 & E1 & L1 & N1).
  destruct (Mesh.add_point pts p1) as [pts1 i]; cbn [fst snd] in *; subst pts1.
  destruct (add_point_spec (pts ++ e1) p2) as (e2 & E2 & L2 & N2).
  destruct (Mesh.add_point (pts ++ e1) p2) as [pts2 j]; cbn [fst snd] in *;
    subst pts2.
  destruct (add_point_spec ((pts ++ e1) ++ e2) p3) as (e3 & E3 & L3 & N3).
  destruct (Mesh.add_point ((pts ++ e1) ++ e2) p3) as [pts3 k];
    cbn [fst snd] in *; subst pts3.
  assert (Hold : indexed (Mesh.mkMesh (((pts ++ e1) ++ e2) ++ e3) faces pl)).
  { rewrite <- !app_assoc; apply (indexed_extend _ _ _ pl), Hm. }
  split.
  - unfold indexed in *; cbn [Mesh.Points Mesh.Faces] in *.
    apply Forall_app; split; [exact Hold |].
    constructor; [| constructor].
    rewrite !length_app in *; lia.
  - unfold Mesh.Facets at 1; cbn [Mesh.Points Mesh.Faces].
    rewrite map_app; cbn [map]; f_equal.
    + rewrite <- !app_assoc.
      apply (Facets_extend pts (e1 ++ e2 ++ e3) faces pl pl Hm).
    + rewrite N3.
      rewrite (nth_app_left _ e3 j) by exact L2; rewrite N2.
      rewrite (nth_app_left _ e3 i), (nth_app_left _ e2 i), N1;
        [reflexivity | exact L1 | rewrite length_app; lia].
Qed.

Lemma fold_addFacet_Facets (facets : list Mesh.Facet) (m : Mesh.Mesh) :
  indexed m ->
  indexed (fold_left Mesh.addFacet facets m)
  /\ Mesh.Facets (fold_left Mesh.addFacet facets m) = Mesh.Facets m ++ facets.
Proof.
  revert m; induction facets as [| facet facets IH]; intros m Hm;
    cbn [fold_left].
  - rewrite app_nil_r; auto.
  - destruct (addFacet_Facets m facet Hm) as [Hi Hf].
    destruct (IH _ Hi) as [Hi' Hf']; split; [exact Hi' |].
    rewrite Hf', Hf, <- app_assoc; reflexivity.
Qed.

(** [Mesh.Mesh (facets)] has the facets it was built from. *)
Lemma Mesh_of_Facets (facets : list Mesh.Facet) :
  indexed (Mesh.Mesh_of facets) /\ Mesh.Facets (Mesh.Mesh_of facets) = facets.
Proof. apply (fold_addFacet_Facets facets Mesh.Mesh0); constructor. Qed.

Lemma transform_Facets (mat : Base.Matrix) (m : Mesh.Mesh) :
  indexed m ->
  indexed (Mesh.transform mat m)
  /\ Mesh.Facets (Mesh.transform mat m) = map (placed mat) (Mesh.Facets m).
Proof.
  destruct m as [pts faces pl]; unfold indexed, Mesh.transform, Mesh.Facets;
    cbn [Mesh.Points Mesh.Faces]; intros Hm; split.
  - rewrite length_map; exact Hm.
  - rewrite map_map; apply map_ext_Forall.
    eapply Forall_impl; [| exact Hm]; intros [[i j] k] (Hi & Hj & Hk).
    unfold placed; cbn [Mesh.Facet_Points].
    rewrite !(nth_indep (map _ pts) Mesh.origin
                (Base.multVec mat Mesh.origin)), !map_nth
      by (rewrite length_map; assumption).
    reflexivity.
Qed.

Lemma addMesh_Facets (m other : Mesh.Mesh) :
  indexed m -> indexed other ->
  indexed (Mesh.addMesh m other)
  /\ Mesh.Facets (Mesh.addMesh m other) = Mesh.Facets m ++ Mesh.Facets other.
Proof.
  destruct m as [pts faces pl], other as [pts' faces' pl'].
  unfold indexed, Mesh.addMesh, Mesh.Facets; cbn [Mesh.Points Mesh.Faces].
  intros Hm Ho; split.
  - apply Forall_app; split.
    + eapply Forall_impl; [| exact Hm]; intros [[i j] k]; rewrite length_app.
      lia.
    + apply Forall_map; eapply Forall_impl; [| exact Ho].
      intros [[i j] k]; rewrite length_app; lia.
  - rewrite map_app, map_map; f_equal.
    + apply map_ext_Forall; eapply Forall_impl; [| exact Hm].
      intros [[i j] k] (Hi & Hj & Hk); rewrite !nth_app_left by assumption.
      reflexivity.
    + apply map_ext_Forall; eapply Forall_impl; [| exact Ho].
      intros [[i j] k] _; rewrite !app_nth2_plus; reflexivity.
Qed.

Lemma placed_submesh (mat : Base.Matrix) (facets : list Mesh.Facet)
  (m : Mesh.Mesh) :
  indexed m ->
  let m' := Mesh.addMesh m (Mesh.transform mat (Mesh.Mesh_of facets)) in
  indexed m' /\ Mesh.Facets m' = Mesh.Facets m ++ map (placed mat) facets.
Proof.
  intros Hm m'; destruct (Mesh_of_Facets facets) as [Hi Hf].
  destruct (transform_Facets mat _ Hi) as [Hi' Hf'].
  destruct (addMesh_Facets m _ Hm Hi') as [Hi'' Hf''].
  split; [exact Hi'' |]; unfold m'; rewrite Hf'', Hf', Hf; reflexivity.
Qed.

Lemma cube_mesh_Facets (om : Mesh.Mesh) (pl : Base.Placement) :
  indexed (cube_mesh om pl)
  /\ Mesh.Facets (cube_mesh om pl)
     = map (placed (Base.Matrix_of pl))
           (concat (map (cube_facets om) _UnitCubeFaceEnum_members)).
Proof.
  unfold cube_mesh, cube_submesh.
  assert (H0 : indexed Mesh.Mesh0) by constructor.
  cbn [_UnitCubeFaceEnum_members fold_left map concat].
  destruct (placed_submesh (Base.Matrix_of pl) (cube_facets om XPLUS) _ H0)
    as [H1 F1]; cbv zeta in H1, F1.
  destruct (placed_submesh (Base.Matrix_of pl) (cube_facets om XMINUS) _ H1)
    as [H2 F2]; cbv zeta in H2, F2.
  destruct (placed_submesh (Base.Matrix_of pl) (cube_facets om YPLUS) _ H2)
    as [H3 F3]; cbv zeta in H3, F3.
  destruct (placed_submesh (Base.Matrix_of pl) (cube_facets om YMINUS) _ H3)
    as [H4 F4]; cbv zeta in H4, F4.
  destruct (placed_submesh (Base.Matrix_of pl) (cube_facets om ZPLUS) _ H4)
    as [H5 F5]; cbv zeta in H5, F5.
  destruct (placed_submesh (Base.Matrix_of pl) (cube_facets om ZMINUS) _ H5)
    as [H6 F6]; cbv zeta in H6, F6.
  split; [exact H6 |].
  rewrite F6, F5, F4, F3, F2, F1, !map_app, <- !app_assoc.
  cbn [map Mesh.Facets Mesh.Faces Mesh.Mesh0 app]; rewrite app_nil_r.
  reflexivity.
Qed.

(** The six lists of the classification are the facets, regrouped. *)
Lemma classes_Permutation {A : Type} (cls : A -> _UnitCubeFaceEnum)
  (l : list A) :
  Permutation
    (concat (map (fun face => filter (fun a => face_eqb (cls a) face) l)
                 _UnitCubeFaceEnum_members))
    l.
Proof.
  cbn [_UnitCubeFaceEnum_members map concat]; rewrite app_nil_r.
  induction l as [| a l IH]; [reflexivity |].
  cbn [filter]; destruct (cls a); cbn [face_eqb];
    rewrite <- ?app_comm_cons; apply Permutation_sym;
    rewrite ?app_assoc;
    first [ apply perm_skip | apply Permutation_cons_app ];
    rewrite <- ?app_assoc; apply Permutation_sym, IH.
Qed.

Lemma cyl_mesh_Facets (pl : Base.Placement) (faces0 faces1 : list Mesh.Facet) :
  indexed (cyl_mesh pl faces0 faces1)
  /\ Mesh.Facets (cyl_mesh pl faces0 faces1)
     = map (placed (Base.Matrix_of pl)) (faces0 ++ faces1).
Proof.
  unfold cyl_mesh.
  assert (H0 : indexed Mesh.Mesh0) by constructor.
  destruct (placed_submesh (Base.Matrix_of pl) faces0 _ H0) as [H1 F1].
  cbv zeta in H1, F1.
  destruct (placed_submesh (Base.Matrix_of pl) faces1 _ H1) as [H2 F2].
  cbv zeta in H2, F2.
  split; [exact H2 |]; rewrite F2, F1, map_app; reflexivity.
Qed.

Lemma Facets_length (m : Mesh.Mesh) :
  length (Mesh.Facets m) = length (Mesh.Faces m).
Proof. apply length_map. Qed.

Lemma recomputed_facets (projection : option string)
  (self self' : RenderingMesh) (om : Mesh.Mesh) (pl : Base.Placement) :
  __originalmesh self = Some om ->
  __originalplacement self = Some pl ->
  kind_of projection = Some Cubic \/ kind_of projection = Some Cylindric ->
  compute_uvmap projection self = (OK tt, self') ->
  indexed (__mesh self')
  /\ Permutation (Mesh.Facets (__mesh self'))
       (map (placed (Base.Matrix_of pl)) (Mesh.Facets om)).
Proof.
  intros Hom Hpl.
  assert (Hnone : compute_uvmap None self = _compute_uvmap_cube self)
    by reflexivity.
  assert (Hcube : _compute_uvmap_cube self = (OK tt, self') ->
                  indexed (__mesh self')
                  /\ Permutation (Mesh.Facets (__mesh self'))
                       (map (placed (Base.Matrix_of pl)) (Mesh.Facets om))).
  { rewrite (cube_run self om pl Hom Hpl); intros H; inversion H; subst.
    cbn [__mesh]; destruct (cube_mesh_Facets om pl) as [Hi Hf].
    split; [exact Hi |]; rewrite Hf.
    apply Permutation_map, classes_Permutation. }
  assert (Hcyl : _compute_uvmap_cylinder self = (OK tt, self') ->
                 indexed (__mesh self')
                 /\ Permutation (Mesh.Facets (__mesh self'))
                      (map (placed (Base.Matrix_of pl)) (Mesh.Facets om))).
  { rewrite (cylinder_run self om pl Hom Hpl).
    destruct (split_z_normal _ _) as [[[f0 f1] zv] |] eqn:Hs;
      [| discriminate].
    destruct (Reqb _ 0); [discriminate |].
    intros H; inversion H; subst; cbn [__mesh].
    destruct (cyl_mesh_Facets pl f0 f1) as [Hi Hf].
    split; [exact Hi |]; rewrite Hf.
    apply Permutation_map; apply split_z_normal_spec in Hs; tauto. }
  destruct projection as [p |]; [| rewrite Hnone; auto].
  unfold compute_uvmap, kind_of; cbv zeta.
  destruct (String.eqb p "Cubic"); [auto |].
  destruct (String.eqb p "Spherical");
    [intros [H | H]; discriminate |].
  destruct (String.eqb p "Cylindric"); [auto |].
  intros [H | H]; discriminate.
Qed.

(** X17.  When the cubic or the cylindric strategy returns, the facets of
    the new mesh are the facets of the original mesh moved by the original
    placement, regrouped: none is lost, added or changed, the facet count is
    the same, and every face of the new mesh points into its points. *)
Theorem recomputed_mesh_facets (projection : option string)
  (self self' : RenderingMesh) (om : Mesh.Mesh) (pl : Base.Placement) :
  __originalmesh self = Some om ->
  __originalplacement self = Some pl ->
  kind_of projection = Some Cubic \/ kind_of projection = Some Cylindric ->
  compute_uvmap projection self = (OK tt, self') ->
  Permutation (Mesh.Facets (__mesh self'))
    (map (placed (Base.Matrix_of pl)) (Mesh.Facets om))
  /\ indexed (__mesh self')
  /\ length (snd (Topology self')) = length (Mesh.Faces om).
Proof.
  intros Hom Hpl Hk Hrun.
  destruct (recomputed_facets projection self self' om pl Hom Hpl Hk Hrun)
    as [Hi Hp].
  split; [exact Hp | split; [exact Hi |]].
  unfold Topology, Mesh.Topology; cbn [snd].
  rewrite <- !Facets_length, (Permutation_length Hp), length_map.
  reflexivity.
Qed.

Lemma recomputed_mesh_facets_witness :
  exists self',
    compute_uvmap (Some "Cubic"%string)
      (mkRenderingMesh corner_mesh (Some corner_mesh) (Some Base.Placement0)
         None)
    = (OK tt, self')
    /\ length (snd (Topology self')) = length (Mesh.Faces corner_mesh).
Proof.
  eexists; split; [apply corner_mesh_cubic |].
  apply (recomputed_mesh_facets (Some "Cubic"%string)
           (mkRenderingMesh corner_mesh (Some corner_mesh)
              (Some Base.Placement0) None)
           _ corner_mesh Base.Placement0 eq_refl eq_refl
           (or_introl eq_refl) corner_mesh_cubic).
Defined.

(** ** The placement, there and back *)

Lemma rigid_there_and_back (pl : Base.Placement) (p : Base.Vector) :
  rigid pl ->
  Base.multVec (Base.Matrix_of pl)
    (Base.multVec (Base.Matrix_of (Base.inverse pl)) p) = p.
Proof.
  destruct pl as [[tx ty tz] [a1 a2 a3] [b1 b2 b3] [c1 c2 c3]],
    p as [px py pz].
  unfold rigid, Base.dot;
    cbn [Base.Row1 Base.Row2 Base.Row3 Base.x Base.y Base.z].
  intros (H11 & H22 & H33 & H12 & H13 & H23).
  cbv [Base.multVec Base.Matrix_of Base.inverse Base.dot Base.Position
       Base.Row1 Base.Row2 Base.Row3 Base.x Base.y Base.z
       Base.A11 Base.A12 Base.A13 Base.A14 Base.A21 Base.A22 Base.A23
       Base.A24 Base.A31 Base.A32 Base.A33 Base.A34].
  f_equal.
  - match goal with
    | |- ?L = _ =>
        replace L
          with ((px - tx) * (a1 * a1 + a2 * a2 + a3 * a3)
                + (py - ty) * (a1 * b1 + a2 * b2 + a3 * b3)
                + (pz - tz) * (a1 * c1 + a2 * c2 + a3 * c3) + tx) by ring
    end.
    rewrite H11, H12, H13; ring.
  - match goal with
    | |- ?L = _ =>
        replace L
          with ((px - tx) * (a1 * b1 + a2 * b2 + a3 * b3)
                + (py - ty) * (b1 * b1 + b2 * b2 + b3 * b3)
                + (pz - tz) * (b1 * c1 + b2 * c2 + b3 * c3) + ty) by ring
    end.
    rewrite H12, H22, H23; ring.
  - match goal with
    | |- ?L = _ =>
        replace L
          with ((px - tx) * (a1 * c1 + a2 * c2 + a3 * c3)
                + (py - ty) * (b1 * c1 + b2 * c2 + b3 * c3)
                + (pz - tz) * (c1 * c1 + c2 * c2 + c3 * c3) + tz) by ring
    end.
    rewrite H13, H23, H33; ring.
Qed.

Lemma placed_there_and_back (pl : Base.Placement) (facet : Mesh.Facet) :
  rigid pl ->
  placed (Base.Matrix_of pl)
    (placed (Base.Matrix_of (Base.inverse pl)) facet) = facet.
Proof.
  intros Hr; destruct facet as [[[p1 p2] p3]]; unfold placed.
  cbn [Mesh.Facet_Points]; rewrite !rigid_there_and_back by exact Hr.
  reflexivity.
Qed.

(** X18.  Over real numbers, for a placement whose rotation part is a
    rotation and a mesh whose faces point into its points, the cubic and the
    cylindric strategies give back the facets of the mesh the object was
    built from, regrouped: the constructor takes the placement off and the
    strategy puts it back on. *)
Theorem recomputed_mesh_round_trip (projection : option string)
  (mesh : Mesh.Mesh) (uv : option (list Base.Vector2d))
  (pl : Base.Placement) (self self' : RenderingMesh) :
  rigid pl ->
  indexed mesh ->
  __init__ (Some mesh) uv pl = OK self ->
  kind_of projection = Some Cubic \/ kind_of projection = Some Cylindric ->
  compute_uvmap projection self = (OK tt, self') ->
  Permutation (Mesh.Facets (__mesh self')) (Mesh.Facets mesh)
  /\ length (Mesh.Faces (__mesh self')) = length (Mesh.Faces mesh).
Proof.
  intros Hr Hi Hinit Hk Hrun; apply init_inv in Hinit; subst self.
  assert (Hp : Permutation (Mesh.Facets (__mesh self')) (Mesh.Facets mesh)).
  { destruct (recomputed_facets projection
                (mkRenderingMesh mesh
                   (Some (Mesh.transform
                            (Base.Matrix_of (Base.inverse pl)) mesh))
                   (Some pl) uv)
                self' _ pl eq_refl eq_refl Hk Hrun) as [_ Hp].
    destruct (transform_Facets (Base.Matrix_of (Base.inverse pl)) mesh Hi)
      as [_ Hf].
    rewrite Hf, map_map in Hp.
    rewrite (map_ext _ (fun f => f)), map_id in Hp; [exact Hp |].
    intros f; apply placed_there_and_back, Hr. }
  split; [exact Hp |].
  rewrite <- !Facets_length; apply Permutation_length, Hp.
Qed.

Lemma turn_x_rigid : rigid turn_x.
Proof.
  unfold rigid, turn_x, Base.dot;
    cbn [Base.Row1 Base.Row2 Base.Row3 Base.x Base.y Base.z].
  repeat split; ring.
Qed.

Lemma turned_corner_indexed : indexed turned_corner.
Proof. repeat constructor; cbn; lia. Qed.

Lemma recomputed_mesh_round_trip_witness :
  exists self self',
    __init__ (Some turned_corner) None turn_x = OK self
    /\ compute_uvmap (Some "Cubic"%string) self = (OK tt, self')
    /\ Permutation (Mesh.Facets (__mesh self')) (Mesh.Facets turned_corner).
Proof.
  eexists; eexists; split; [apply turned_corner_init |].
  split; [apply (cube_run _ corner_mesh turn_x); reflexivity |].
  apply (recomputed_mesh_round_trip (Some "Cubic"%string) turned_corner None
           turn_x _ _ turn_x_rigid turned_corner_indexed
           turned_corner_init (or_introl eq_refl)).
  apply (cube_run _ corner_mesh turn_x); reflexivity.
Defined.

(** ** The range of the spherical UV coordinates *)

Lemma atan_nonpos (a : R) : a <= 0 -> atan a <= 0.
Proof.
  intros [H | ->]; [| rewrite atan_0; lra].
  apply atan_increasing in H; rewrite atan_0 in H; lra.
Qed.

Lemma atan_nonneg (a : R) : 0 <= a -> 0 <= atan a.
Proof.
  intros [H | <-]; [| rewrite atan_0; lra].
  apply atan_increasing in H; rewrite atan_0 in H; lra.
Qed.

Lemma atan2_bound (b a : R) : - PI <= math.atan2 b a <= PI.
Proof.
  pose proof PI_RGT_0 as Hpi; pose proof (atan_bound (b / a)) as Hb.
  unfold math.atan2.
  destruct (Rlt_dec 0 a) as [Ha | Ha]; [lra |].
  destruct (Rlt_dec a 0) as [Ha' | Ha'].
  - assert (Hi : / a < 0) by (apply Rinv_lt_0_compat, Ha').
    destruct (Rge_dec b 0) as [Hy | Hy].
    + assert (H : atan (b / a) <= 0)
        by (apply atan_nonpos; unfold Rdiv; nra).
      lra.
    + assert (H : 0 <= atan (b / a))
        by (apply atan_nonneg; unfold Rdiv; nra).
      lra.
  - destruct (Rlt_dec 0 b); [lra |].
    destruct (Rlt_dec b 0); lra.
Qed.

Lemma sphere_uv_range (o p : Base.Vector) :
  let l := Base.Length (Base.sub p o) in
  0 <= Base.x2d (sphere_uv o p) <= l / 1000 * PI
  /\ 0 <= Base.y2d (sphere_uv o p) <= l / 1000 * PI.
Proof.
  intros l; unfold sphere_uv, Base.scale2d; cbn [Base.x2d Base.y2d].
  fold l; pose proof (Length_nonneg (Base.sub p o)) as Hl; fold l in Hl.
  pose proof PI_RGT_0 as Hpi.
  pose proof (atan2_bound (Base.x (Base.sub p o)) (Base.y (Base.sub p o)))
    as Ha.
  pose proof (asin_bound (Base.z (Base.sub p o) / l)) as Hs.
  set (u := math.atan2 _ _) in *; set (w := Ratan.asin _) in *.
  assert (Hu : 0 <= 0.5 + u / (2 * PI) <= 1).
  { assert (Hi : 0 < / (2 * PI)) by (apply Rinv_0_lt_compat; lra).
    assert (Hone : 2 * PI * / (2 * PI) = 1) by (apply Rinv_r; lra).
    unfold Rdiv; split; nra. }
  assert (Hw : 0 <= 0.5 + w / PI <= 1).
  { assert (Hi : 0 < / PI) by (apply Rinv_0_lt_compat; lra).
    assert (Hone : PI * / PI = 1) by (apply Rinv_r; lra).
    unfold Rdiv; split; nra. }
  assert (Hk : 0 <= l / 1000 * PI) by (unfold Rdiv; nra).
  split; split; nra.
Qed.

(** X19.  When the spherical strategy returns, the UV map has one entry per
    point of the original mesh, and both coordinates of the entry of a point
    lie between 0 and pi times the thousandth of its distance to the
    barycenter (over real numbers). *)
Theorem spherical_uv_range (self self' : RenderingMesh) (om : Mesh.Mesh) :
  __originalmesh self = Some om ->
  compute_uvmap (Some "Spherical"%string) self = (OK tt, self') ->
  exists uvs,
    uvmap self' = Some uvs
    /\ Forall2 (fun p uv =>
                  let l := Base.Length
                             (Base.sub p (_compute_barycenter
                                            (Mesh.Points om))) in
                  0 <= Base.x2d uv <= l / 1000 * PI
                  /\ 0 <= Base.y2d uv <= l / 1000 * PI)
               (Mesh.Points om) uvs.
Proof.
  intros Hom.
  change (compute_uvmap (Some "Spherical"%string)) with _compute_uvmap_sphere.
  rewrite (sphere_run self om Hom); cbv zeta.
  destruct (forallb _ _); [| discriminate].
  intros H; inversion H; subst; clear H; unfold uvmap; cbn [__uvmap].
  eexists; split; [reflexivity |].
  generalize (_compute_barycenter (Mesh.Points om)); intros o.
  induction (Mesh.Points om) as [| p l IH]; cbn [map]; constructor;
    [apply sphere_uv_range | exact IH].
Qed.

Lemma spherical_uv_range_witness :
  exists uvs,
    uvmap (snd (compute_uvmap (Some "Spherical"%string)
                  (mkRenderingMesh corner_mesh (Some corner_mesh)
                     (Some Base.Placement0) None)))
    = Some uvs
    /\ length uvs = length (Mesh.Points corner_mesh).
Proof.
  destruct (spherical_uv_range
              (mkRenderingMesh corner_mesh (Some corner_mesh)
                 (Some Base.Placement0) None)
              _ corner_mesh eq_refl corner_mesh_spherical)
    as (uvs & Hu & Hf).
  exists uvs; split.
  - rewrite corner_mesh_spherical; exact Hu.
  - symmetry; apply (Forall2_length Hf).
Defined.

(** ** The scale of the cylindric UV map *)





(** ** The methods that change the mesh only *)

Lemma add_point_ext (pts : list Base.Vector) (q : Base.Vector) :
  exists ext,
    fst (Mesh.add_point pts q) = pts ++ ext
    /\ (length ext <= 1)%nat /\ In q (pts ++ ext).
Proof.
  unfold Mesh.add_point; destruct (Mesh.index_of q pts) as [i |] eqn:E;
    cbn [fst].
  - exists []; rewrite app_nil_r; split; [reflexivity |].
    split; [cbn; lia |].
    apply index_of_nth in E as [Hl Hn]; rewrite <- Hn; apply nth_In, Hl.
  - exists [q]; split; [reflexivity |]; split; [cbn; lia |].
    apply in_or_app; right; left; reflexivity.
Qed.

Lemma addFacet_Points (m : Mesh.Mesh) (facet : Mesh.Facet) :
  exists ext,
    Mesh.Points (Mesh.addFacet m facet) = Mesh.Points m ++ ext
    /\ (length ext <= 3)%nat
    /\ (forall p, facet_has_point facet p ->
                  In p (Mesh.Points (Mesh.addFacet m facet)))
    /\ length (Mesh.Faces (Mesh.addFacet m facet))
       = S (length (Mesh.Faces m)).
Proof.
  destruct m as [pts faces pl], facet as [[[p1 p2] p3]].
  unfold Mesh.addFacet, facet_has_point;
    cbn [Mesh.Facet_Points Mesh.Points Mesh.Faces Mesh.Placement fst snd].
  destruct (add_point_ext pts p1) as (e1 & E1 & L1 & I1).
  destruct (Mesh.add_point pts p1) as [pts1 i]; cbn [fst snd] in *; subst pts1.
  destruct (add_point_ext (pts ++ e1) p2) as (e2 & E2 & L2 & I2).
  destruct (Mesh.add_point (pts ++ e1) p2) as [pts2 j]; cbn [fst snd] in *;
    subst pts2.
  destruct (add_point_ext ((pts ++ e1) ++ e2) p3) as (e3 & E3 & L3 & I3).
  destruct (Mesh.add_point ((pts ++ e1) ++ e2) p3) as [pts3 k];
    cbn [fst snd] in *; subst pts3.
  exists (e1 ++ e2 ++ e3); cbn [Mesh.Points Mesh.Faces].
  rewrite <- !app_assoc, !length_app; cbn [length]; repeat split.
  - lia.
  - intros p [-> | [-> | ->]]; rewrite !in_app_iff in *; tauto.
  - lia.
Qed.

(** X21.  [transform] and [addFacet] always return and change the mesh
    only, so they leave the UV map of a cubic or cylindric projection as it
    is.  After [transform] it still has one entry per point; after
    [addFacet] of a facet with a point that the mesh does not have, the
    mesh has more points than the UV map has entries. *)
Theorem addFacet_outdates_uvmap (projection : option string)
  (self self1 : RenderingMesh) (om : Mesh.Mesh) (pl : Base.Placement)
  (matrix : Base.Matrix) (facet : Mesh.Facet) (p : Base.Vector) :
  __originalmesh self = Some om ->
  __originalplacement self = Some pl ->
  kind_of projection <> Some Spherical ->
  compute_uvmap projection self = (OK tt, self1) ->
  facet_has_point facet p ->
  ~ In p (Points self1) ->
  exists uvs self2 self3,
    uvmap self1 = Some uvs
    /\ transform matrix self1 = (OK tt, self2)
    /\ uvmap self2 = Some uvs
    /\ length uvs = length (Points self2)
    /\ addFacet facet self1 = (OK tt, self3)
    /\ uvmap self3 = Some uvs
    /\ (length uvs < length (Points self3))%nat.
Proof.
  intros Hom Hpl Hk Hrun Hp Hnew.
  destruct (alignment_from self om pl projection self1 Hom Hpl
              (fun H => False_ind _ (Hk H)) Hrun)
    as (uvs & Hu & _ & Hlen & _).
  exists uvs; eexists; eexists.
  split; [exact Hu |].
  split; [reflexivity |].
  split; [exact Hu |].
  split; [unfold Points; cbn [__mesh]; rewrite Points_transform, length_map;
          exact Hlen |].
  split; [reflexivity |].
  split; [exact Hu |].
  unfold Points in *; cbn [__mesh].
  destruct (addFacet_Points (__mesh self1) facet) as (ext & He & _ & Hi & _).
  specialize (Hi p Hp); rewrite He in Hi |- *.
  rewrite length_app, Hlen.
  destruct ext as [| q ext]; [| cbn [length]; lia].
  rewrite app_nil_r in Hi; contradiction.
Qed.

Lemma addFacet_outdates_uvmap_witness :
  exists self1 uvs self3,
    compute_uvmap (Some "Cubic"%string)
      (mkRenderingMesh corner_mesh (Some corner_mesh) (Some Base.Placement0)
         None)
    = (OK tt, self1)
    /\ addFacet (Mesh.mkFacet (Base.mkVector 5 5 5, Base.mkVector 1 0 0,
                               Base.mkVector 0 1 0)) self1
       = (OK tt, self3)
    /\ uvmap self3 = Some uvs
    /\ (length uvs < length (Points self3))%nat.
Proof.
  assert (Hnew : ~ In (Base.mkVector 5 5 5)
                     (Points (mkRenderingMesh
                                (cube_mesh corner_mesh Base.Placement0)
                                (Some corner_mesh) (Some Base.Placement0)
                                (Some (cube_uvmap corner_mesh))))).
  { unfold Points; cbn [__mesh]; rewrite Points_cube_mesh.
    cbn [_UnitCubeFaceEnum_members map]; rewrite !corner_mesh_cube_submesh.
    cbn [Mesh.Points Mesh.Mesh0 map concat app].
    rewrite !multVec_Placement0.
    intros H; repeat destruct H as [H | H]; try (injection H; intros; lra).
    exact H. }
  destruct (addFacet_outdates_uvmap (Some "Cubic"%string)
              (mkRenderingMesh corner_mesh (Some corner_mesh)
                 (Some Base.Placement0) None)
              _ corner_mesh Base.Placement0 (Base.Matrix_of Base.Placement0)
              (Mesh.mkFacet (Base.mkVector 5 5 5, Base.mkVector 1 0 0,
                             Base.mkVector 0 1 0))
              (Base.mkVector 5 5 5) eq_refl eq_refl
              ltac:(discriminate) corner_mesh_cubic
              (or_introl eq_refl) Hnew)
    as (uvs & self2 & self3 & _ & _ & _ & _ & Ha & Hu & Hl).
  eexists; exists uvs, self3; split; [apply corner_mesh_cubic |].
  split; [exact Ha |]; split; [exact Hu | exact Hl].
Defined.
